(** * Gc (graph-cut library): a shallow embedding of the support code

    This development embeds, function by function, the parts of the Gc
    library and of its MATLAB bindings that the specification makes
    statements about:

    - [Sort]      : [Gc/System/Algo/Sort/Heap.h] ([Heap], [HeapSimultaneous]);
    - [Matlab]    : [Examples/Matlab/GcMatlab.h] ([GetImage], [SetImage]),
                    [GcMatlabTools.h] ([CreateNeighbourhood]) and the mex
                    entry points of the segmentation drivers;
    - [Tools]     : the MATLAB scripts [gc_weighted_kmeans],
                    [gc_normalize_image] and [gc_chan_vese_two_stage];
    - [Metric]    : [RiemannianDanek::SetTransformationMatrix].

    Arrays are lists read with [!!] and written with [<[i:=x]>]; a read or
    a write outside the array, which is undefined in C++, makes the model
    return [None].  Loops carry an explicit bound on their number of
    iterations and the theorems show that the bound suffices. *)

From Stdlib Require Import ZArith QArith Qround Qabs Lia Ascii String.
From Stdlib Require Import Rdefinitions Rtrigo1.
From stdpp Require Import base option list sorting strings pretty.

Close Scope Q_scope.
Close Scope R_scope.
Local Open Scope nat_scope.

(** ** Heap sort: [Gc::System::Algo::Sort] *)

Module Sort.

Section HeapSort.
Context {A : Type}.

(** [gt x y] is the C++ expression [x > y] on the value type. *)
Variable gt : A → A → bool.

(** The inner [while (child < n)] loop of [Heap]: the hole at [index]
    moves down as long as its larger child is greater than [temp].  The
    result is the array and the final position of the hole. *)
Fixpoint sift (fuel : nat) (a : list A) (n : nat) (temp : A)
    (index child : nat) : option (list A * nat) :=
  match fuel with
  | 0 => None
  | S fuel' =>
      if child <? n then
        c0 ← a !! child;
        child' ← (if child + 1 <? n then
                    c1 ← a !! (child + 1);
                    Some (if gt c1 c0 then child + 1 else child)
                  else Some child);
        cv ← a !! child';
        if gt cv temp then
          sift fuel' (<[index:=cv]> a) n temp child' (child' * 2 + 1)
        else Some (a, index)
      else Some (a, index)
  end.

(** The outer [while (n > 1)] loop of [Heap]. *)
Fixpoint heap_loop (fuel : nat) (a : list A) (n parent : nat)
    : option (list A) :=
  match fuel with
  | 0 => None
  | S fuel' =>
      if 1 <? n then
        '(temp, a1, n1, parent1) ←
          (if 0 <? parent then
             temp ← a !! (parent - 1);
             Some (temp, a, n, parent - 1)
           else
             temp ← a !! (n - 1);
             a0 ← a !! 0;
             Some (temp, <[n - 1:=a0]> a, n - 1, parent));
        '(a2, index) ← sift (S n1) a1 n1 temp parent1 (parent1 * 2 + 1);
        heap_loop fuel' (<[index:=temp]> a2) n1 parent1
      else Some a
  end.

(** [Heap(begin, end)] on the range holding [a]. *)
Definition Heap (a : list A) : option (list A) :=
  let n := length a in
  heap_loop (S (n + n / 2)) a n (n / 2).

(** The inner loop of [HeapSimultaneous]: every move in the first array
    is repeated in the second. *)
Fixpoint sift2 {B : Type} (fuel : nat) (a : list A) (b : list B) (n : nat)
    (temp1 : A) (index child : nat) : option (list A * list B * nat) :=
  match fuel with
  | 0 => None
  | S fuel' =>
      if child <? n then
        c0 ← a !! child;
        child' ← (if child + 1 <? n then
                    c1 ← a !! (child + 1);
                    Some (if gt c1 c0 then child + 1 else child)
                  else Some child);
        cv ← a !! child';
        if gt cv temp1 then
          cw ← b !! child';
          sift2 fuel' (<[index:=cv]> a) (<[index:=cw]> b) n temp1
                child' (child' * 2 + 1)
        else Some (a, b, index)
      else Some (a, b, index)
  end.

(** The outer loop of [HeapSimultaneous]. *)
Fixpoint heap2_loop {B : Type} (fuel : nat) (a : list A) (b : list B)
    (n parent : nat) : option (list A * list B) :=
  match fuel with
  | 0 => None
  | S fuel' =>
      if 1 <? n then
        '(temp1, temp2, a1, b1, n1, parent1) ←
          (if 0 <? parent then
             temp1 ← a !! (parent - 1);
             temp2 ← b !! (parent - 1);
             Some (temp1, temp2, a, b, n, parent - 1)
           else
             temp1 ← a !! (n - 1);
             temp2 ← b !! (n - 1);
             a0 ← a !! 0;
             b0 ← b !! 0;
             Some (temp1, temp2, <[n - 1:=a0]> a, <[n - 1:=b0]> b,
                   n - 1, parent));
        '(a2, b2, index) ←
          sift2 (S n1) a1 b1 n1 temp1 parent1 (parent1 * 2 + 1);
        heap2_loop fuel' (<[index:=temp1]> a2) (<[index:=temp2]> b2)
                   n1 parent1
      else Some (a, b)
  end.

(** [HeapSimultaneous(d1Beg, d1End, d2Beg)]. *)
Definition HeapSimultaneous {B : Type} (d1 : list A) (d2 : list B)
    : option (list A * list B) :=
  let n := length d1 in
  heap2_loop (S (n + n / 2)) d1 d2 n (n / 2).

(** *** Specification vocabulary for the sort *)

(** [j] is one of the two children of [i] in the implicit binary tree. *)
Definition is_child (i j : nat) : Prop := j = 2 * i + 1 ∨ j = 2 * i + 2.

(** [x] is not greater than [y]. *)
Definition le (x y : A) : Prop := gt x y = false.

(** Non-decreasing order, position by position. *)
Definition nondecreasing (a : list A) : Prop :=
  ∀ i j x y, i ≤ j → a !! i = Some x → a !! j = Some y → gt x y = false.

(** Among the first [n] cells, no child is greater than its parent, for
    every parent at position [lo] or later. *)
Definition heap_from (a : list A) (lo n : nat) : Prop :=
  ∀ i j x y, lo ≤ i → j < n → is_child i j →
    a !! i = Some x → a !! j = Some y → gt y x = false.

(** Invariant of the inner loop, the hole being at [index]. *)
Definition sift_inv (lo n : nat) (temp : A) (a : list A) (index : nat)
    : Prop :=
  (∀ i j x y, lo ≤ i → j < n → is_child i j → i ≠ index →
     a !! i = Some x → a !! j = Some y → gt y x = false)
  ∧ (∀ p j x y, lo ≤ p → is_child p index → is_child index j → j < n →
       a !! p = Some x → a !! j = Some y → gt y x = false)
  ∧ (∀ p x, lo ≤ p → is_child p index → a !! p = Some x →
       gt temp x = false).

(** Invariant of the outer loop: a heap in front, the sorted largest
    elements behind. *)
Definition heap_inv (a0 a : list A) (n parent : nat) : Prop :=
  length a = length a0 ∧ n ≤ length a ∧ parent ≤ n ∧ a ≡ₚ a0
  ∧ heap_from a parent n
  ∧ StronglySorted le (drop n a)
  ∧ (∀ x y, x ∈ take n a → y ∈ drop n a → le x y).

End HeapSort.

(** The comparison [HeapSimultaneous] makes on a pair of cells: only the
    element of the first range counts. *)
Definition gt_fst {A B : Type} (gt : A → A → bool) (p q : A * B) : bool :=
  gt p.1 q.1.

End Sort.

(** ** MATLAB bindings: [Examples/Matlab] *)

Module Matlab.

(** *** Outcomes of a mex call

    [Done v] is a normal return, [MexError msg] is [mexErrMsgTxt(msg)],
    which leaves the mex function at once, [Throw msg] is a
    [Gc::System::Exception] on its way to the [catch] of [mexFunction], and
    [Undefined] stands for undefined behaviour of the C++ code (a read or
    write outside an array, a division by zero). *)
Inductive outcome (X : Type) : Type :=
| Done (v : X)
| MexError (msg : string)
| Throw (msg : string)
| Undefined.
Arguments Done {X} v.
Arguments MexError {X} msg.
Arguments Throw {X} msg.
Arguments Undefined {X}.

Definition bind {X Y : Type} (m : outcome X) (k : X → outcome Y) : outcome Y :=
  match m with
  | Done v => k v
  | MexError msg => MexError msg
  | Throw msg => Throw msg
  | Undefined => Undefined
  end.

Notation "'let*' x ':=' m 'in' k" := (bind m (fun x => k))
  (at level 10, x pattern, m at level 100, k at level 200).

(** A value that must be defined: [None] is undefined behaviour. *)
Definition defined {X : Type} (o : option X) : outcome X :=
  match o with Some v => Done v | None => Undefined end.

(** [for (Size i = 0; i < n; i++) body] on a state of type [S]. *)
Fixpoint for_loop {S : Type} (n : nat) (body : nat → S → outcome S)
    (i : nat) (s : S) : outcome S :=
  match n with
  | 0 => Done s
  | Datatypes.S n' => let* s' := body i s in for_loop n' body (Datatypes.S i) s'
  end.

(** *** Arrays and pointers *)

(** [System::Collection::Array<N,T>]: the size along each axis and the
    elements, [Begin()] pointing at element 0. *)
Record Array (T : Type) : Type := MkArray {
  Dimensions : list nat;
  Data : list T
}.
Arguments MkArray {T} _ _.
Arguments Dimensions {T} _.
Arguments Data {T} _.

(** [Array::Elements()]: the product of the sizes. *)
Definition Elements (dims : list nat) : nat := foldr Nat.mul 1 dims.

(** [*p] for a pointer [p] at offset [p] from the start of [m]. *)
Definition load {T : Type} (m : list T) (p : Z) : outcome T :=
  if (0 <=? p)%Z then defined (m !! Z.to_nat p) else Undefined.

(** [*p = v]. *)
Definition store {T : Type} (m : list T) (p : Z) (v : T) : outcome (list T) :=
  if ((0 <=? p) && (p <? Z.of_nat (length m)))%Z
  then Done (<[Z.to_nat p:=v]> m) else Undefined.

(** The two running pointers of [GetImage] and [SetImage], as offsets from
    the start of their buffers, and the buffer written through [dout]. *)
Record cursor (T : Type) : Type := Cursor {
  din : Z;
  dout : Z;
  buf : list T
}.
Arguments Cursor {T} _ _ _.
Arguments din {T} _.
Arguments dout {T} _.
Arguments buf {T} _.

(** [Array::Resize(dim)]: new storage of [Elements dim] cells whose content
    is not initialised; [garbage] is whatever the cells happen to hold. *)
Definition Resize {T : Type} (dim : list nat) (garbage : nat → T) : Array T :=
  MkArray dim (garbage <$> seq 0 (Elements dim)).

(** [GetImage<N,GC_DATA,MX_DATA>(mx_in, img)]: [mx_dim] and [mx_data] are
    [mxGetDimensions(mx_in)] and [mxGetData(mx_in)], [cast] is the
    conversion [GC_DATA(...)]. *)
Definition GetImage {GC MX : Type} (N : nat) (cast : MX → GC)
    (mx_dim : list nat) (mx_data : list MX) (garbage : nat → GC)
    : outcome (Array GC) :=
  let* d0 := defined (mx_dim !! 1) in
  let* d1 := defined (mx_dim !! 0) in
  let* rest := for_loop (N - 2)
                 (λ i dims, let* d := defined (mx_dim !! i) in Done (dims ++ [d]))
                 2 [] in
  let img_dim := d0 :: d1 :: rest in
  let img := Resize img_dim garbage in
  let slice_sz := d0 * d1 in
  let* dim_wo_xy := (if slice_sz =? 0 then Undefined
                     else Done (Elements img_dim / slice_sz)) in
  let* c :=
    for_loop dim_wo_xy (λ _ c,
      let* c :=
        for_loop d0 (λ _ c,
          let* c :=
            for_loop d1 (λ _ c,
              let* v := load mx_data (din c) in
              let* m := store (buf c) (dout c) (cast v) in
              Done (Cursor (din c + 1) (dout c + Z.of_nat d0) m)) 0 c in
          Done (Cursor (din c) (dout c - (Z.of_nat slice_sz - 1)) (buf c)))
          0 c in
      Done (Cursor (din c) (dout c + (Z.of_nat slice_sz - Z.of_nat d0)) (buf c)))
      0 (Cursor 0 0 (Data img)) in
  Done (MkArray img_dim (buf c)).

(** [SetImage<N,GC_DATA,MX_DATA>(img, mx_out)]: [mx_out] is the data of the
    mxArray written to, [cast] the conversion [MX_DATA(...)]; the result is
    that data after the call. *)
Definition SetImage {GC MX : Type} (cast : GC → MX) (img : Array GC)
    (mx_out : list MX) : outcome (list MX) :=
  let* d0 := defined (Dimensions img !! 0) in
  let* d1 := defined (Dimensions img !! 1) in
  let slice_sz := d0 * d1 in
  let* dim_wo_xy := (if slice_sz =? 0 then Undefined
                     else Done (Elements (Dimensions img) / slice_sz)) in
  let* c :=
    for_loop dim_wo_xy (λ _ c,
      let* c :=
        for_loop d1 (λ _ c,
          let* c :=
            for_loop d0 (λ _ c,
              let* v := load (Data img) (din c) in
              let* m := store (buf c) (dout c) (cast v) in
              Done (Cursor (din c + 1) (dout c + Z.of_nat d1) m)) 0 c in
          Done (Cursor (din c) (dout c - (Z.of_nat slice_sz - 1)) (buf c)))
          0 c in
      Done (Cursor (din c) (dout c + (Z.of_nat slice_sz - Z.of_nat d1)) (buf c)))
      0 (Cursor 0 0 mx_out) in
  Done (buf c).

(** The loop nest both functions share, [a] and [b] being the bounds of the
    middle and of the inner loop: used to state what the loops compute. *)
Definition copy_nest {X Y : Type} (cast : X → Y) (src : list X)
    (slices a b : nat) (c0 : cursor Y) : outcome (cursor Y) :=
  for_loop slices (λ _ c,
    let* c :=
      for_loop a (λ _ c,
        let* c :=
          for_loop b (λ _ c,
            let* v := load src (din c) in
            let* m := store (buf c) (dout c) (cast v) in
            Done (Cursor (din c + 1) (dout c + Z.of_nat a) m)) 0 c in
        Done (Cursor (din c) (dout c - (Z.of_nat (a * b) - 1)) (buf c)))
        0 c in
    Done (Cursor (din c) (dout c + (Z.of_nat (a * b) - Z.of_nat a)) (buf c)))
    0 c0.

(** The cursor after [q] steps of the inner loop, in column [p] of slice
    [i]: every cell copied so far is in its place. *)
Definition copied {X Y : Type} (cast : X → Y) (src : list X) (a b len : nat)
    (i p q : nat) (c : cursor Y) : Prop :=
  din c = Z.of_nat (i * (a * b) + p * b + q)
  ∧ dout c = Z.of_nat (i * (a * b) + p + q * a)
  ∧ length (buf c) = len
  ∧ ∀ i' p' q', p' < a → q' < b →
      (i' < i ∨ (i' = i ∧ (p' < p ∨ (p' = p ∧ q' < q)))) →
      buf c !! (i' * (a * b) + p' + q' * a)
      = cast <$> src !! (i' * (a * b) + p' * b + q').

(** Where [GetImage] puts the element that MATLAB keeps at linear index
    [k] of an array with [h] rows and [w] columns: row [y] and column [x]
    of slice [i] go to [x + w * y] in slice [i]. *)
Definition gc_index (h w k : nat) : nat :=
  k / (h * w) * (w * h) + k mod (h * w) / h + k mod (h * w) mod h * w.

(** *** MATLAB values and the argument helpers of [GcMatlab.h] *)

(** The data of an mxArray, by class.  Single and double precision numbers
    are rationals here: rounding is not modelled. *)
Inductive mxData : Type :=
| DoubleData (l : list Q)
| SingleData (l : list Q)
| Uint8Data (l : list Z)
| LogicalData (l : list bool)
| CharData (s : string).

Record mxArray : Type := MxArray {
  mxGetDimensions : list nat;
  mxGetData : mxData
}.

Definition mxGetNumberOfDimensions (a : mxArray) : nat :=
  length (mxGetDimensions a).

Definition mxIsDouble (a : mxArray) : bool :=
  match mxGetData a with DoubleData _ => true | _ => false end.

Definition mxIsSingle (a : mxArray) : bool :=
  match mxGetData a with SingleData _ => true | _ => false end.

Definition mxIsUint8 (a : mxArray) : bool :=
  match mxGetData a with Uint8Data _ => true | _ => false end.

Definition mxIsChar (a : mxArray) : bool :=
  match mxGetData a with CharData _ => true | _ => false end.

Definition mxIsLogicalScalar (a : mxArray) : bool :=
  match mxGetData a with LogicalData [_] => true | _ => false end.

Definition mxCreateDoubleScalar (v : Q) : mxArray :=
  MxArray [1; 1] (DoubleData [v]).

(** [GetNumber(prhs, idx)]. *)
Definition GetNumber (prhs : list mxArray) (idx : nat) : outcome Q :=
  let* a := defined (prhs !! idx) in
  match mxGetData a with
  | DoubleData l => defined (l !! 0)
  | _ => MexError ("Parameter " +:+ pretty (idx + 1)
                   +:+ " must be of numeric type double.")
  end.

(** [GetString(prhs, idx, str, strlen)]: [mxGetString] keeps at most
    [strlen - 1] characters. *)
Definition GetString (prhs : list mxArray) (idx strlen : nat)
    : outcome string :=
  let* a := defined (prhs !! idx) in
  match mxGetData a with
  | CharData s => Done (String.substring 0 (strlen - 1) s)
  | _ => MexError ("Parameter " +:+ pretty (idx + 1)
                   +:+ " must be a text string.")
  end.

(** [GetLogical(prhs, idx)]. *)
Definition GetLogical (prhs : list mxArray) (idx : nat) : outcome bool :=
  let* a := defined (prhs !! idx) in
  match mxGetData a with
  | LogicalData [b] => Done b
  | _ => MexError ("Parameter " +:+ pretty (idx + 1)
                   +:+ " must be a logical value.")
  end.

(** *** Numbers of the C++ side *)

(** [x < y] on numbers of type [double] or [float]. *)
Definition Qltb (x y : Q) : bool := negb (Qle_bool y x).

(** [Gc::Size] is taken to be a 64-bit unsigned integer. *)
Definition Size_max : Z := 2 ^ 64.

(** Truncation towards zero, the first step of a conversion from [double]
    to an integer type. *)
Definition Qtrunc (q : Q) : Z :=
  if Qle_bool 0 q then Qfloor q else Qceiling q.

(** [(Gc::Size)d] for a [double] [d]: the truncated value when [Gc::Size]
    can hold it.  C++ leaves the other case undefined; [oor] is what the
    platform produces there. *)
Definition double_to_Size (oor : Q → Z) (d : Q) : Z :=
  let t := Qtrunc d in
  if ((0 <=? t) && (t <? Size_max))%Z then t else oor d.

(** What the compilers for x86-64 produce for a [double] whose truncation
    is negative and above [-2^63]: the value modulo [2^64]. *)
Definition x86_64_oor (d : Q) : Z := (Qtrunc d mod Size_max)%Z.

(** [(Gc::Size)i] for an [int] [i]: the value modulo [2^64]. *)
Definition int_to_Size (i : Z) : Z := (i mod Size_max)%Z.

(** [isspace] and the value of a decimal digit. *)
Definition is_space (c : ascii) : bool :=
  let n := nat_of_ascii c in (n =? 32) || ((9 <=? n) && (n <=? 13)).

Definition digit_val (c : ascii) : option Z :=
  let n := nat_of_ascii c in
  if (48 <=? n) && (n <=? 57) then Some (Z.of_nat (n - 48)) else None.

Fixpoint skip_spaces (s : string) : string :=
  match s with
  | String c s' => if is_space c then skip_spaces s' else s
  | EmptyString => s
  end.

Fixpoint atoi_digits (s : string) (acc : Z) : Z :=
  match s with
  | String c s' =>
      match digit_val c with
      | Some d => atoi_digits s' (10 * acc + d)
      | None => acc
      end
  | EmptyString => acc
  end.

(** [atoi]: white space, an optional sign, then the longest run of
    digits; 0 when there is no digit. *)
Definition atoi (s : string) : Z :=
  match skip_spaces s with
  | String "-" s' => (- atoi_digits s' 0)%Z
  | String "+" s' => atoi_digits s' 0
  | s' => atoi_digits s' 0
  end.

(** [!strcmp(a, b)]. *)
Definition streq (a b : string) : bool := String.eqb a b.

(** [str + 1] for a C string: the string without its first character.
    For the empty string the pointer is past the terminator, and what is
    read there is not determined by the program. *)
Definition str_plus_1 (str : string) : outcome string :=
  match str with
  | String _ t => Done t
  | EmptyString => Undefined
  end.

(** *** Neighbourhoods *)

(** [Energy::Neighbourhood<N,Int32>] is code outside this development: an
    object is represented by the call that builds it.  [Ctor] is the
    constructor [Neighbourhood(sz, with_center)], [Common] and [Box] are
    the methods of those names. *)
Inductive Neighbourhood : Type :=
| Ctor (N : nat) (sz : Z) (with_center : bool)
| Common (N : nat) (sz : Z) (with_center : bool)
| Box (N : nat) (half : list Z) (b1 b2 : bool).

(** [CreateNeighbourhood<N>(str_nb, nb)]. *)
Definition CreateNeighbourhood (N : nat) (str_nb : string)
    : outcome Neighbourhood :=
  if (N =? 2)
     && (streq str_nb "N4" || streq str_nb "N8"
         || streq str_nb "N16" || streq str_nb "N32")
  then let* t := str_plus_1 str_nb in Done (Common N (int_to_Size (atoi t)) false)
  else if (N =? 3)
          && (streq str_nb "N6" || streq str_nb "N18" || streq str_nb "N26")
  then let* t := str_plus_1 str_nb in Done (Common N (int_to_Size (atoi t)) false)
  else if (N =? 3) && streq str_nb "N98"
  then Done (Box N (replicate N 2%Z) true false)
  else MexError
         "Unsupported neighbourhood type for given image dimensionality.".

(** The neighbourhood the drivers [GcChanVeseLab], [GcRoussonDeriche] and
    [GcMumfordShah] build:
    [Neighbourhood<N,Int32> nb((Size)atoi(str_nb + 1), false)]. *)
Definition driver_neighbourhood (N : nat) (str_nb : string)
    : outcome Neighbourhood :=
  let* t := str_plus_1 str_nb in
  Done (Ctor N (int_to_Size (atoi t)) false).

(** The symbols of the specification. *)
Definition symbols_2d : list string := ["N4"; "N8"; "N16"; "N32"].
Definition symbols_3d : list string := ["N6"; "N18"; "N26"; "N98"].

(** *** The outer loop of the segmentation algorithms *)

(** Modelled from the spec: the functions [ChanVese::Compute],
    [ChanVese::ComputeMasked], [MumfordShah::ComputePiecewiseConstant] and
    [RoussonDeriche::Compute] of [Gc/Algo/Segmentation] are not part of the
    sources at hand; only their calls are.  The specification gives their
    outer loop: "Repeat: build graph with current (c1,c2); run max-flow;
    read the region; recompute c1, c2; stop when |dc1|+|dc2| <= conv or
    iter >= maxiter.  Return the final labelling, energy, iteration count,
    and final means."  [iteration] is one pass of that loop, [converged]
    its test on the statistics before and after the pass, [fuel] the
    iterations still allowed and [iter] those performed so far.  The count
    comes back in the [max_iter] argument, which the drivers pass by
    reference and read after the call. *)
Fixpoint outer_loop {St : Type} (iteration : St → outcome St)
    (converged : St → St → bool) (fuel : nat) (iter : Z) (s : St)
    : outcome (St * Z) :=
  match fuel with
  | 0 => Done (s, iter)
  | S fuel' =>
      let* s' := iteration s in
      if converged s s' then Done (s', (iter + 1)%Z)
      else outer_loop iteration converged fuel' (iter + 1)%Z s'
  end.

(** The states the outer loop goes through, one for each iteration it
    performs: this is what "the iterations actually performed" refers
    to. *)
Fixpoint outer_trace {St : Type} (iteration : St → outcome St)
    (converged : St → St → bool) (fuel : nat) (s : St) : list St :=
  match fuel with
  | 0 => []
  | S fuel' =>
      match iteration s with
      | Done s' =>
          s' :: (if converged s s' then []
                 else outer_trace iteration converged fuel' s')
      | _ => []
      end
  end.

(** [j] passes of the loop body from [s], with no test in between. *)
Fixpoint iterate_n {St : Type} (iteration : St → outcome St) (j : nat)
    (s : St) : outcome St :=
  match j with
  | 0 => Done s
  | S j' => let* s' := iteration s in iterate_n iteration j' s'
  end.

(** [n] is the number of iterations the outer loop performs from [s0] when
    allowed [max_iter] of them: it never exceeds the bound, and it is below
    the bound as soon as the convergence test succeeds after fewer than
    [max_iter] iterations. *)
Definition counts_iterations {St : Type} (iteration : St → outcome St)
    (converged : St → St → bool) (max_iter : Z) (s0 : St) (n : Z) : Prop :=
  n = Z.of_nat (length (outer_trace iteration converged (Z.to_nat max_iter) s0))
  ∧ (0 <= n)%Z ∧ (n <= Z.max 0 max_iter)%Z
  ∧ ∀ j p q, iterate_n iteration j s0 = Done p → iteration p = Done q →
      converged p q = true → (Z.of_nat (j + 1) < max_iter)%Z →
      (n < max_iter)%Z.

(** Mask values.  Modelled from the spec: [Gc/Algo/Segmentation/Mask.h] is
    not part of the sources at hand; the specification gives "1 =
    BACKGROUND_FIXED, 2 = FOREGROUND_FIXED, 3 = UNKNOWN". *)
Definition MaskBackground : Z := 1.
Definition MaskForeground : Z := 2.
Definition MaskUnknown : Z := 3.

(** The number of cells of a mask marked unknown. *)
Definition count_unknown (l : list Z) : nat :=
  length (filter (λ m : Z, m = MaskUnknown) l).

(** *** The drivers *)

Section Drivers.

(** The platform's conversion of an out-of-range [double] to [Gc::Size]. *)
Variable oor : Q → Z.

(** The content of freshly allocated arrays. *)
Variable garbageQ : nat → Q.
Variable garbageZ : nat → Z.
Variable garbageB : nat → bool.

(** The statistics and the labelling the Chan-Vese loop works on:
    [cv_label] is [mf.NodeLabel] of the max-flow object after the last
    cut. *)
Record CVState : Type := MkCV {
  cv_c1 : Q;
  cv_c2 : Q;
  cv_energy : Q;
  cv_seg : Array bool;
  cv_label : nat → Z
}.

(** One pass of the Chan-Vese loop, on the image, the mask if there is
    one, the initial labelling given to the max-flow object, the weights
    and the neighbourhood. *)
Variable CV_iteration :
  Array Q → option (Array Z) → Array Z → Q → Q → Neighbourhood →
  CVState → outcome CVState.

(** "stop when |dc1|+|dc2| <= conv". *)
Definition CV_converged (conv : Q) (s s' : CVState) : bool :=
  Qle_bool (Qabs (cv_c1 s' - cv_c1 s) + Qabs (cv_c2 s' - cv_c2 s)) conv.

(** Modelled from the spec: [ChanVese::Compute] ([mask = None]) and
    [ChanVese::ComputeMasked]; the result is the last state and the value
    left in [max_iter]. *)
Definition ChanVese_Compute (img : Array Q) (mask : option (Array Z))
    (iface : Array Z) (l1 l2 c1 c2 conv : Q) (max_iter : Z)
    (nb : Neighbourhood) : outcome (CVState * Z) :=
  outer_loop (CV_iteration img mask iface l1 l2 nb) (CV_converged conv)
    (Z.to_nat max_iter) 0%Z
    (MkCV c1 c2 0 (Resize (Dimensions img) garbageB) garbageZ).

(** The data of an image argument, read as [T*] for [T] single or
    double. *)
Definition float_data (a : mxArray) : outcome (list Q) :=
  match mxGetData a with
  | DoubleData l | SingleData l => Done l
  | _ => Undefined
  end.

Definition uint8_data (a : mxArray) : outcome (list Z) :=
  match mxGetData a with
  | Uint8Data l => Done l
  | _ => Undefined
  end.

(** [Segment<N,T,LAB>] of [GcChanVeseLab.cpp]. *)
Definition ChanVeseLab_Segment (N : nat) (mx_in mx_interface : mxArray)
    (mx_mask : option mxArray) (l1 l2 c1 c2 conv : Q) (max_iter : Z)
    (str_nb : string) (log : bool) : outcome (list mxArray) :=
  let* d := float_data mx_in in
  let* img := GetImage N id (mxGetDimensions mx_in) d garbageQ in
  let* d := uint8_data mx_interface in
  let* iface := GetImage N id (mxGetDimensions mx_interface) d garbageZ in
  if negb (bool_decide (Dimensions iface = Dimensions img)) then
    MexError "Initial interface and image must have the same dimensions."
  else
  let* mask :=
    match mx_mask with
    | Some m =>
        let* d := uint8_data m in
        let* mask := GetImage N id (mxGetDimensions m) d garbageZ in
        if negb (bool_decide (Dimensions mask = Dimensions img)) then
          MexError "Mask and image must have the same dimensions."
        else Done (Some mask)
    | None => Done None
    end in
  let* nb := driver_neighbourhood N str_nb in
  let* (r, max_iter) :=
    ChanVese_Compute img mask iface l1 l2 c1 c2 conv max_iter nb in
  let labels := Resize (Dimensions img) garbageZ in
  let* (labels, _) :=
    match mask with
    | None =>
        for_loop (Elements (Dimensions labels))
          (λ i '(lab, j), Done (<[i:=cv_label r i]> lab, j))
          0 (Data labels, 0)
    | Some mask =>
        for_loop (Elements (Dimensions labels))
          (λ i '(lab, j),
             let* m := defined (Data mask !! i) in
             if (m =? MaskUnknown)%Z then
               Done (<[i:=cv_label r j]> lab, j + 1)
             else
               let* v := defined (Data iface !! i) in
               Done (<[i:=v]> lab, j))
          0 (Data labels, 0)
    end in
  let* out := SetImage id (MkArray (Dimensions img) labels)
                (replicate (Elements (mxGetDimensions mx_in)) 0%Z) in
  Done [MxArray (mxGetDimensions mx_in) (Uint8Data out);
        mxCreateDoubleScalar (cv_energy r);
        mxCreateDoubleScalar (inject_Z max_iter);
        mxCreateDoubleScalar (cv_c1 r);
        mxCreateDoubleScalar (cv_c2 r)].

(** The [try ... catch (const Gc::System::Exception &e)] of the mex
    functions: the message of the exception goes to [mexErrMsgTxt]. *)
Definition catch_exception {X : Type} (m : outcome X) : outcome X :=
  match m with
  | Throw msg => MexError msg
  | _ => m
  end.

(** [mexFunction] of [GcChanVeseLab.cpp]. *)
Definition ChanVeseLab_mexFunction (nlhs : nat) (prhs : list mxArray)
    : outcome (list mxArray) :=
  let nrhs := length prhs in
  if (nrhs <? 10) || (11 <? nrhs) then
    MexError "Ten or eleven input arguments required."
  else if negb (nlhs =? 5) then
    MexError "Five output argument required."
  else
  let* l1 := GetNumber prhs 2 in
  let* l2 := GetNumber prhs 3 in
  let* c1 := GetNumber prhs 4 in
  let* c2 := GetNumber prhs 5 in
  let* conv := GetNumber prhs 6 in
  let* mi := GetNumber prhs 7 in
  let max_iter := double_to_Size oor mi in
  let* nb := GetString prhs 8 10 in
  let* log := GetLogical prhs 9 in
  if negb (Qltb 0 l1 && Qltb 0 l2 && (0 <? max_iter)%Z) then
    MexError
      "Parameters lambda1, lambda2 and max_iter must be greater than zero."
  else if Qltb conv 0 then
    MexError "Convergence criterion must be greater or equal to zero."
  else if Qle_bool c2 c1 then
    MexError "Condition c1 < c2 is not satisfied."
  else
  let* p0 := defined (prhs !! 0) in
  let* p1 := defined (prhs !! 1) in
  let dim_num := mxGetNumberOfDimensions p0 in
  if negb (dim_num =? mxGetNumberOfDimensions p1) || negb (mxIsUint8 p1) then
    MexError "Initial interface and image must have the same dimensions. Interface must be of uint8 type."
  else
  let* mx_mask :=
    if nrhs =? 11 then
      let* p10 := defined (prhs !! 10) in
      if negb (dim_num =? mxGetNumberOfDimensions p10) || negb (mxIsUint8 p10)
      then MexError "Mask and image must have the same dimensions. Mask data type must be uint8."
      else Done (Some p10)
    else Done None in
  catch_exception
    (if (dim_num =? 2) || (dim_num =? 3) then
       if mxIsSingle p0 || mxIsDouble p0 then
         ChanVeseLab_Segment dim_num p0 p1 mx_mask l1 l2 c1 c2 conv max_iter
           nb log
       else MexError "Unsupported image/voxel type."
     else MexError "Only 2D and 3D images are supported.").

(** The state of the piecewise-constant Mumford-Shah loop. *)
Record MSState : Type := MkMS {
  ms_c : list Q;
  ms_energy : Q;
  ms_seg : Array Z
}.

(** [KMeans::Lloyd(img, k, l, conv, 50, c)], whose code is not at hand:
    the means it leaves in [c]. *)
Variable Lloyd : Array Q → Z → list Q → Q → Z → outcome (list Q).

(** One pass of the Mumford-Shah loop: the rounds of expansion moves and
    the new means. *)
Variable MS_iteration :
  Array Q → Z → list Q → Neighbourhood → MSState → outcome MSState.

(** "Convergence of the outer loop: total |dc| < conv". *)
Definition MS_converged (conv : Q) (s s' : MSState) : bool :=
  Qltb (foldr Qplus 0%Q (zip_with (λ x y, Qabs (y - x)) (ms_c s) (ms_c s')))
       conv.

(** Modelled from the spec: [MumfordShah::ComputePiecewiseConstant]. *)
Definition MumfordShah_ComputePiecewiseConstant (img : Array Q) (k : Z)
    (l c : list Q) (conv : Q) (max_iter : Z) (nb : Neighbourhood)
    : outcome (MSState * Z) :=
  outer_loop (MS_iteration img k l nb) (MS_converged conv)
    (Z.to_nat max_iter) 0%Z
    (MkMS c 0 (Resize (Dimensions img) garbageZ)).

(** [Segment<N,T>] of [GcMumfordShah.cpp]. *)
Definition MumfordShah_Segment (N : nat) (mx_in : mxArray) (k : Z)
    (lambda conv : Q) (max_iter : Z) (str_nb : string) (log : bool)
    : outcome (list mxArray) :=
  let* d := float_data mx_in in
  let* img := GetImage N id (mxGetDimensions mx_in) d garbageQ in
  let* nb := driver_neighbourhood N str_nb in
  let l := replicate (Z.to_nat k) lambda in
  let* c := Lloyd img k l conv 50 in
  let* (r, max_iter) :=
    MumfordShah_ComputePiecewiseConstant img k l c conv max_iter nb in
  let* out := SetImage id (ms_seg r)
                (replicate (Elements (mxGetDimensions mx_in)) 0%Z) in
  let* cv := for_loop (Z.to_nat k)
               (λ i cv, let* ci := defined (ms_c r !! i) in Done (<[i:=ci]> cv))
               0 (replicate (Z.to_nat k) 0%Q) in
  Done [MxArray (mxGetDimensions mx_in) (Uint8Data out);
        mxCreateDoubleScalar (ms_energy r);
        mxCreateDoubleScalar (inject_Z max_iter);
        MxArray [1; Z.to_nat k] (DoubleData cv)].

(** [mexFunction] of [GcMumfordShah.cpp]. *)
Definition MumfordShah_mexFunction (nlhs : nat) (prhs : list mxArray)
    : outcome (list mxArray) :=
  let nrhs := length prhs in
  if negb (nrhs =? 7) then MexError "Seven input arguments required."
  else if negb (nlhs =? 4) then MexError "Four output arguments required."
  else
  let* kd := GetNumber prhs 1 in
  let k := double_to_Size oor kd in
  let* lambda := GetNumber prhs 2 in
  let* conv := GetNumber prhs 3 in
  let* mi := GetNumber prhs 4 in
  let max_iter := double_to_Size oor mi in
  let* nb := GetString prhs 5 10 in
  let* log := GetLogical prhs 6 in
  if ((k <? 2) || (254 <? k))%Z then
    MexError "Condition 1 < k < 255 not satisfied."
  else if negb (Qltb 0 lambda && (0 <? max_iter)%Z) then
    MexError "Parameters lambda and max_iter must be greater than zero."
  else if Qltb conv 0 then
    MexError "Convergence criterion must be greater or equal to zero."
  else
  let* p0 := defined (prhs !! 0) in
  let dim_num := mxGetNumberOfDimensions p0 in
  catch_exception
    (if (dim_num =? 2) || (dim_num =? 3) then
       if mxIsSingle p0 || mxIsDouble p0 then
         MumfordShah_Segment dim_num p0 k lambda conv max_iter nb log
       else MexError "Unsupported image/voxel type."
     else MexError "Only 2D and 3D images are supported.").

(** The grid max-flow objects of [CreateGridMaxFlow]. *)
Inductive GridMaxFlow : Type :=
| Kohli (mask : bool)
| PushRelabelFifo (mask : bool)
| PushRelabelHighestLevel (mask : bool).

(** [CreateGridMaxFlow<N,T>(name, mask)]. *)
Definition CreateGridMaxFlow (name : string) (mask : bool)
    : outcome GridMaxFlow :=
  if streq name "GRD-KO" then Done (Kohli mask)
  else if streq name "GRD-PRF" then Done (PushRelabelFifo mask)
  else if streq name "GRD-PRH" then Done (PushRelabelHighestLevel mask)
  else MexError "Unknown grid max-flow algorithm.".

(** [RoussonDeriche::Params<T>] and the state of the loop. *)
Record RDParams : Type := MkRDParams {
  m_c1 : Q;
  m_v1 : Q;
  m_c2 : Q;
  m_v2 : Q
}.

Record RDState : Type := MkRD {
  rd_par : RDParams;
  rd_energy : Q;
  rd_seg : Array bool
}.

(** [RoussonDeriche::InitialEstimate(img, 50, rdpar)], one pass of the
    loop and its convergence test, whose code is not at hand. *)
Variable RD_InitialEstimate : Array Q → Z → outcome RDParams.
Variable RD_iteration :
  Array Q → Q → Neighbourhood → GridMaxFlow → RDState → outcome RDState.
Variable RD_converged : Q → RDState → RDState → bool.

(** Modelled from the spec: [RoussonDeriche::Compute]. *)
Definition RoussonDeriche_Compute (img : Array Q) (lambda : Q)
    (rdpar : RDParams) (conv : Q) (max_iter : Z) (nb : Neighbourhood)
    (mf : GridMaxFlow) : outcome (RDState * Z) :=
  outer_loop (RD_iteration img lambda nb mf) (RD_converged conv)
    (Z.to_nat max_iter) 0%Z
    (MkRD rdpar 0 (Resize (Dimensions img) garbageB)).

(** [Segment<N,T>] of [GcRoussonDeriche.cpp]. *)
Definition RoussonDeriche_Segment (N : nat) (mx_in : mxArray)
    (lambda conv : Q) (max_iter : Z) (str_nb str_mf : string) (log : bool)
    : outcome (list mxArray) :=
  let* d := float_data mx_in in
  let* img := GetImage N id (mxGetDimensions mx_in) d garbageQ in
  let* nb := driver_neighbourhood N str_nb in
  let* rdpar := RD_InitialEstimate img 50 in
  let* mf := CreateGridMaxFlow str_mf false in
  let* (r, max_iter) :=
    RoussonDeriche_Compute img lambda rdpar conv max_iter nb mf in
  let* out := SetImage id (rd_seg r)
                (replicate (Elements (mxGetDimensions mx_in)) false) in
  Done [MxArray (mxGetDimensions mx_in) (LogicalData out);
        mxCreateDoubleScalar (rd_energy r);
        mxCreateDoubleScalar (inject_Z max_iter);
        mxCreateDoubleScalar (m_c1 (rd_par r));
        mxCreateDoubleScalar (m_v1 (rd_par r));
        mxCreateDoubleScalar (m_c2 (rd_par r));
        mxCreateDoubleScalar (m_v2 (rd_par r))].

(** [mexFunction] of [GcRoussonDeriche.cpp]. *)
Definition RoussonDeriche_mexFunction (nlhs : nat) (prhs : list mxArray)
    : outcome (list mxArray) :=
  let nrhs := length prhs in
  if negb (nrhs =? 7) then MexError "Seven input arguments required."
  else if negb (nlhs =? 7) then MexError "Seven output arguments required."
  else
  let* lambda := GetNumber prhs 1 in
  let* conv := GetNumber prhs 2 in
  let* mi := GetNumber prhs 3 in
  let max_iter := double_to_Size oor mi in
  let* nb := GetString prhs 4 10 in
  let* mf := GetString prhs 5 10 in
  let* log := GetLogical prhs 6 in
  if negb (Qltb 0 lambda && (0 <? max_iter)%Z) then
    MexError "Parameters lambda and max_iter must be greater than zero."
  else if Qltb conv 0 then
    MexError "Convergence criterion must be greater or equal to zero."
  else
  let* p0 := defined (prhs !! 0) in
  let dim_num := mxGetNumberOfDimensions p0 in
  catch_exception
    (if (dim_num =? 2) || (dim_num =? 3) then
       if mxIsSingle p0 || mxIsDouble p0 then
         RoussonDeriche_Segment dim_num p0 lambda conv max_iter nb mf log
       else MexError "Unsupported image/voxel type."
     else MexError "Only 2D and 3D images are supported.").

(** The number a driver reports as "iterations performed": the scalar in
    [plhs[2]]. *)
Definition iterations_output (plhs : list mxArray) : option Q :=
  a ← plhs !! 2;
  match mxGetData a with
  | DoubleData [v] => Some v
  | _ => None
  end.

End Drivers.

(** A loop body to run the drivers on: it halves the first mean, reports
    energy 1 and labels the nodes 7, 8, 9, ... *)
Definition halving_iteration (_ : Array Q) (_ : option (Array Z))
    (_ : Array Z) (_ _ : Q) (_ : Neighbourhood) (s : CVState)
    : outcome CVState :=
  Done (MkCV (cv_c1 s * (1 # 2)) (cv_c2 s) 1 (cv_seg s)
             (λ j, (7 + Z.of_nat j)%Z)).

(** *** [CreateGeneralMaxFlow] of [GcMatlabTools.h] *)

(** The general max-flow objects. *)
Inductive GeneralMaxFlow : Type :=
| FordFulkerson
| EdmondsKarp
| Dinitz
| BoykovKolmogorov
| GeneralKohli
| GeneralPushRelabelFifo
| GeneralPushRelabelHighestLevel.

(** [CreateGeneralMaxFlow<T>(name)]. *)
Definition CreateGeneralMaxFlow (name : string) : outcome GeneralMaxFlow :=
  if streq name "GEN-FF" then Done FordFulkerson
  else if streq name "GEN-EK" then Done EdmondsKarp
  else if streq name "GEN-DI" then Done Dinitz
  else if streq name "GEN-BK" then Done BoykovKolmogorov
  else if streq name "GEN-KO" then Done GeneralKohli
  else if streq name "GEN-PRF" then Done GeneralPushRelabelFifo
  else if streq name "GEN-PRH" then Done GeneralPushRelabelHighestLevel
  else MexError "Unknown general max-flow algorithm.".

(** The names the two factories know. *)
Definition grid_names : list string := ["GRD-KO"; "GRD-PRF"; "GRD-PRH"].
Definition general_names : list string :=
  ["GEN-FF"; "GEN-EK"; "GEN-DI"; "GEN-BK"; "GEN-KO"; "GEN-PRF"; "GEN-PRH"].

(** The symbols [CreateNeighbourhood<N>] knows for images of [N]
    dimensions. *)
Definition supported (N : nat) (str_nb : string) : Prop :=
  (N = 2 ∧ str_nb ∈ symbols_2d) ∨ (N = 3 ∧ str_nb ∈ symbols_3d).

(** *** [GcChanVeseTp.cpp] and [GcDistTransform.cpp] *)

Definition mxIsLogical (a : mxArray) : bool :=
  match mxGetData a with LogicalData _ => true | _ => false end.

Definition logical_data (a : mxArray) : outcome (list bool) :=
  match mxGetData a with
  | LogicalData l => Done l
  | _ => Undefined
  end.

Section TopologyPreserving.

Variable oor : Q → Z.
Variable garbageQ : nat → Q.
Variable garbageZ : nat → Z.
Variable garbageB : nat → bool.

(** [ChanVese::Compute] ([mask = None]) and [ChanVese::ComputeMasked] on a
    [ZengDanek] max-flow object that holds a reference to the initial
    interface; their code is not at hand.  The result is the energy, the
    segmentation and what the call leaves in its arguments [c1], [c2] and
    [max_iter]. *)
Variable ChanVeseTp_Compute :
  Array Q → option (Array Z) → Array bool → Q → Q → Q → Q → Q → Z →
  Neighbourhood → outcome (Q * Array bool * Q * Q * Z).

(** [Segment<N,T>] of [GcChanVeseTp.cpp]. *)
Definition ChanVeseTp_Segment (N : nat) (mx_in mx_interface : mxArray)
    (mx_mask : option mxArray) (l1 l2 c1 c2 conv : Q) (max_iter : Z)
    (str_nb : string) (log : bool) : outcome (list mxArray) :=
  let* d := float_data mx_in in
  let* img := GetImage N id (mxGetDimensions mx_in) d garbageQ in
  let* d := logical_data mx_interface in
  let* iface := GetImage N id (mxGetDimensions mx_interface) d garbageB in
  if negb (bool_decide (Dimensions iface = Dimensions img)) then
    MexError "Initial interface and image must have the same dimensions."
  else
  let* mask :=
    match mx_mask with
    | Some m =>
        let* d := uint8_data m in
        let* mask := GetImage N id (mxGetDimensions m) d garbageZ in
        if negb (bool_decide (Dimensions mask = Dimensions img)) then
          MexError "Mask and image must have the same dimensions."
        else Done (Some mask)
    | None => Done None
    end in
  let* nb := CreateNeighbourhood N str_nb in
  let* (energy, seg, c1, c2, max_iter) :=
    ChanVeseTp_Compute img mask iface l1 l2 c1 c2 conv max_iter nb in
  let* out := SetImage id seg
                (replicate (Elements (mxGetDimensions mx_in)) false) in
  Done [MxArray (mxGetDimensions mx_in) (LogicalData out);
        mxCreateDoubleScalar energy;
        mxCreateDoubleScalar (inject_Z max_iter);
        mxCreateDoubleScalar c1;
        mxCreateDoubleScalar c2].

(** [mexFunction] of [GcChanVeseTp.cpp]. *)
Definition ChanVeseTp_mexFunction (nlhs : nat) (prhs : list mxArray)
    : outcome (list mxArray) :=
  let nrhs := length prhs in
  if (nrhs <? 10) || (11 <? nrhs) then
    MexError "Ten or eleven input arguments required."
  else if negb (nlhs =? 5) then
    MexError "Five output argument required."
  else
  let* l1 := GetNumber prhs 2 in
  let* l2 := GetNumber prhs 3 in
  let* c1 := GetNumber prhs 4 in
  let* c2 := GetNumber prhs 5 in
  let* conv := GetNumber prhs 6 in
  let* mi := GetNumber prhs 7 in
  let max_iter := double_to_Size oor mi in
  let* nb := GetString prhs 8 10 in
  let* log := GetLogical prhs 9 in
  if negb (Qltb 0 l1 && Qltb 0 l2 && (0 <? max_iter)%Z) then
    MexError
      "Parameters lambda1, lambda2 and max_iter must be greater than zero."
  else if Qltb conv 0 then
    MexError "Convergence criterion must be greater or equal to zero."
  else if Qle_bool c2 c1 then
    MexError "Condition c1 < c2 is not satisfied."
  else
  let* p0 := defined (prhs !! 0) in
  let* p1 := defined (prhs !! 1) in
  let dim_num := mxGetNumberOfDimensions p0 in
  if negb (dim_num =? mxGetNumberOfDimensions p1) || negb (mxIsLogical p1) then
    MexError "Initial interface and image must have the same dimensions. Interface must be of logical type."
  else
  let* mx_mask :=
    if nrhs =? 11 then
      let* p10 := defined (prhs !! 10) in
      if negb (dim_num =? mxGetNumberOfDimensions p10) || negb (mxIsUint8 p10)
      then MexError "Mask and image must have the same dimensions. Mask data type must be uint8."
      else Done (Some p10)
    else Done None in
  catch_exception
    (if (dim_num =? 2) || (dim_num =? 3) then
       if mxIsSingle p0 || mxIsDouble p0 then
         ChanVeseTp_Segment dim_num p0 p1 mx_mask l1 l2 c1 c2 conv max_iter
           nb log
       else MexError "Unsupported image/voxel type."
     else MexError "Only 2D and 3D images are supported.").

(** [DistanceTransform::CityBlock(img, zero_val, dmap)] and [ChessBoard]
    for images of type [bool] and [Uint8]; their code is not at hand.  The
    result is the distance map. *)
Variable CityBlock_bool : Array bool → bool → outcome (Array Z).
Variable ChessBoard_bool : Array bool → bool → outcome (Array Z).
Variable CityBlock_uint8 : Array Z → Z → outcome (Array Z).
Variable ChessBoard_uint8 : Array Z → Z → outcome (Array Z).

(** [DistTransform<N,T>] of [GcDistTransform.cpp], the two transforms for
    [T] being arguments.  The result is the array of class uint32 put in
    [*mx_out]: its sizes and its data. *)
Definition DistTransform {T : Type} (N : nat)
    (CityBlock ChessBoard : Array T → T → outcome (Array Z))
    (garbage : nat → T) (mx_dim : list nat) (mx_data zero_data : list T)
    (metric : string) : outcome (list nat * list Z) :=
  let* img := GetImage N id mx_dim mx_data garbage in
  let* zero_val := defined (zero_data !! 0) in
  let* dmap :=
    (if streq metric "cityblock" then CityBlock img zero_val
     else if streq metric "chessboard" then ChessBoard img zero_val
     else MexError "Unknown metric type.") in
  let* out := SetImage id dmap (replicate (Elements mx_dim) 0%Z) in
  Done (mx_dim, out).

(** [mexFunction] of [GcDistTransform.cpp]. *)
Definition DistTransform_mexFunction (nlhs : nat) (prhs : list mxArray)
    : outcome (list nat * list Z) :=
  let nrhs := length prhs in
  if negb (nrhs =? 3) then MexError "Three input arguments required."
  else if negb (nlhs =? 1) then MexError "One output argument required."
  else
  let* metric := GetString prhs 2 30 in
  let* p0 := defined (prhs !! 0) in
  let* p1 := defined (prhs !! 1) in
  let dim_num := mxGetNumberOfDimensions p0 in
  catch_exception
    (if (dim_num =? 2) || (dim_num =? 3) then
       match mxGetData p0 with
       | LogicalData img =>
           match mxGetData p1 with
           | LogicalData z =>
               DistTransform dim_num CityBlock_bool ChessBoard_bool garbageB
                 (mxGetDimensions p0) img z metric
           | _ => MexError "Image and zero value types don't match."
           end
       | Uint8Data img =>
           match mxGetData p1 with
           | Uint8Data z =>
               DistTransform dim_num CityBlock_uint8 ChessBoard_uint8 garbageZ
                 (mxGetDimensions p0) img z metric
           | _ => MexError "Image and zero value types don't match."
           end
       | _ => MexError "Unsupported image/voxel type."
       end
     else MexError "Only 2D and 3D images are supported.").

End TopologyPreserving.

(** *** What a call has met when a mex function returns

    The conditions on the arguments [prhs] and the shape of the outputs
    [plhs] that hold when a mex function returns its outputs rather than an
    error; [oor] is the platform's conversion of an out-of-range [double]
    to [Gc::Size]. *)

(** An image with two or three axes, at least one row and one column. *)
Definition image_sizes_ok (img : mxArray) : Prop :=
  ∃ h w rest, mxGetDimensions img = h :: w :: rest
    ∧ 0 < h ∧ 0 < w ∧ length rest ≤ 1.

(** The checks [GcChanVeseLab] and [GcChanVeseTp] share. *)
Definition ChanVese_accepted (oor : Q → Z) (nlhs : nat)
    (prhs plhs : list mxArray) (img iface : mxArray) : Prop :=
  nlhs = 5 ∧ (length prhs = 10 ∨ length prhs = 11) ∧ length plhs = 5
  ∧ prhs !! 0 = Some img ∧ prhs !! 1 = Some iface
  ∧ (∃ l1 l2 c1 c2 conv mi,
       GetNumber prhs 2 = Done l1 ∧ GetNumber prhs 3 = Done l2
       ∧ GetNumber prhs 4 = Done c1 ∧ GetNumber prhs 5 = Done c2
       ∧ GetNumber prhs 6 = Done conv ∧ GetNumber prhs 7 = Done mi
       ∧ (0 < l1)%Q ∧ (0 < l2)%Q ∧ (0 < double_to_Size oor mi)%Z
       ∧ (0 <= conv)%Q ∧ (c1 < c2)%Q)
  ∧ (mxIsSingle img = true ∨ mxIsDouble img = true)
  ∧ image_sizes_ok img
  ∧ mxGetDimensions iface = mxGetDimensions img
  ∧ (∀ m, prhs !! 10 = Some m →
       mxIsUint8 m = true ∧ mxGetDimensions m = mxGetDimensions img).

Definition ChanVeseLab_accepted (oor : Q → Z) (nlhs : nat)
    (prhs plhs : list mxArray) : Prop :=
  ∃ img iface, ChanVese_accepted oor nlhs prhs plhs img iface
    ∧ mxIsUint8 iface = true
    ∧ ∃ out, plhs !! 0 = Some (MxArray (mxGetDimensions img) (Uint8Data out)).

Definition ChanVeseTp_accepted (oor : Q → Z) (nlhs : nat)
    (prhs plhs : list mxArray) : Prop :=
  ∃ img iface nb, ChanVese_accepted oor nlhs prhs plhs img iface
    ∧ mxIsLogical iface = true
    ∧ GetString prhs 8 10 = Done nb
    ∧ supported (mxGetNumberOfDimensions img) nb
    ∧ ∃ out, plhs !! 0
             = Some (MxArray (mxGetDimensions img) (LogicalData out)).

Definition MumfordShah_accepted (oor : Q → Z) (nlhs : nat)
    (prhs plhs : list mxArray) : Prop :=
  nlhs = 4 ∧ length prhs = 7
  ∧ ∃ img kd lambda conv mi,
      prhs !! 0 = Some img
      ∧ GetNumber prhs 1 = Done kd ∧ GetNumber prhs 2 = Done lambda
      ∧ GetNumber prhs 3 = Done conv ∧ GetNumber prhs 4 = Done mi
      ∧ (2 <= double_to_Size oor kd <= 254)%Z
      ∧ (0 < lambda)%Q ∧ (0 < double_to_Size oor mi)%Z ∧ (0 <= conv)%Q
      ∧ (mxIsSingle img = true ∨ mxIsDouble img = true)
      ∧ image_sizes_ok img
      ∧ ∃ out energy iter c,
          plhs = [MxArray (mxGetDimensions img) (Uint8Data out);
                  mxCreateDoubleScalar energy; mxCreateDoubleScalar iter;
                  MxArray [1; Z.to_nat (double_to_Size oor kd)] (DoubleData c)]
          ∧ length c = Z.to_nat (double_to_Size oor kd).

Definition RoussonDeriche_accepted (oor : Q → Z) (nlhs : nat)
    (prhs plhs : list mxArray) : Prop :=
  nlhs = 7 ∧ length prhs = 7 ∧ length plhs = 7
  ∧ ∃ img lambda conv mi mf,
      prhs !! 0 = Some img
      ∧ GetNumber prhs 1 = Done lambda ∧ GetNumber prhs 2 = Done conv
      ∧ GetNumber prhs 3 = Done mi ∧ GetString prhs 5 10 = Done mf
      ∧ (0 < lambda)%Q ∧ (0 < double_to_Size oor mi)%Z ∧ (0 <= conv)%Q
      ∧ mf ∈ grid_names
      ∧ (mxIsSingle img = true ∨ mxIsDouble img = true)
      ∧ image_sizes_ok img
      ∧ ∃ out, plhs !! 0
               = Some (MxArray (mxGetDimensions img) (LogicalData out)).

Definition DistTransform_accepted (nlhs : nat) (prhs : list mxArray)
    (dims : list nat) : Prop :=
  nlhs = 1 ∧ length prhs = 3
  ∧ ∃ img zero metric,
      prhs !! 0 = Some img ∧ prhs !! 1 = Some zero
      ∧ GetString prhs 2 30 = Done metric
      ∧ (metric = "cityblock" ∨ metric = "chessboard")
      ∧ ((mxIsLogical img = true ∧ mxIsLogical zero = true)
         ∨ (mxIsUint8 img = true ∧ mxIsUint8 zero = true))
      ∧ image_sizes_ok img
      ∧ dims = mxGetDimensions img.

End Matlab.

(** ** MATLAB scripts: [Examples/Matlab/Tools] and [ChanVese] *)

Module Tools.

(** *** Floating-point values

    A value of class single or double is a rational, an infinity or NaN:
    the special values follow IEEE 754, finite results are exact (rounding
    and overflow are not modelled). *)
Inductive fval : Type :=
| Fin (q : Q)
| PInf
| NInf
| NaN.

Definition is_finite (v : fval) : bool :=
  match v with Fin _ => true | _ => false end.

Definition Qltb (x y : Q) : bool := negb (Qle_bool y x).

Definition fneg (v : fval) : fval :=
  match v with
  | Fin q => Fin (- q)%Q
  | PInf => NInf
  | NInf => PInf
  | NaN => NaN
  end.

Definition fadd (x y : fval) : fval :=
  match x, y with
  | NaN, _ | _, NaN => NaN
  | Fin a, Fin b => Fin (a + b)%Q
  | PInf, NInf | NInf, PInf => NaN
  | PInf, _ | _, PInf => PInf
  | NInf, _ | _, NInf => NInf
  end.

Definition fsub (x y : fval) : fval := fadd x (fneg y).

Definition fabs (v : fval) : fval :=
  match v with
  | Fin q => Fin (Qabs q)
  | PInf | NInf => PInf
  | NaN => NaN
  end.

(** The product of an infinity of sign [pos] with the finite [a]. *)
Definition inf_times (pos : bool) (a : Q) : fval :=
  if Qeq_bool a 0 then NaN
  else if eqb pos (Qltb 0 a) then PInf else NInf.

Definition fmul (x y : fval) : fval :=
  match x, y with
  | NaN, _ | _, NaN => NaN
  | Fin a, Fin b => Fin (a * b)%Q
  | PInf, Fin a | Fin a, PInf => inf_times true a
  | NInf, Fin a | Fin a, NInf => inf_times false a
  | PInf, PInf | NInf, NInf => PInf
  | PInf, NInf | NInf, PInf => NInf
  end.

(** [x / y] for finite [x] and [y]. *)
Definition fdiv (x y : Q) : fval :=
  if Qeq_bool y 0 then
    if Qeq_bool x 0 then NaN else if Qltb 0 x then PInf else NInf
  else Fin (x / y)%Q.

(** [x > y], false as soon as one side is NaN. *)
Definition fgt (x y : fval) : bool :=
  match x, y with
  | NaN, _ | _, NaN => false
  | Fin a, Fin b => Qltb b a
  | PInf, PInf | NInf, _ => false
  | PInf, _ => true
  | Fin _, NInf => true
  | Fin _, PInf => false
  end.

(** [v >= 0] and [v < 0]. *)
Definition fge0 (v : fval) : bool :=
  match v with
  | Fin q => Qle_bool 0 q
  | PInf => true
  | NInf | NaN => false
  end.

Definition flt0 (v : fval) : bool :=
  match v with
  | Fin q => Qltb q 0
  | NInf => true
  | PInf | NaN => false
  end.

(** *** Images and results *)

(** An array argument: its sizes and its elements, of a floating-point
    class or of another one ([isfloat]). *)
Inductive image : Type :=
| FloatImage (dims : list nat) (px : list Q)
| OtherImage (dims : list nat) (px : list Z).

(** The outcome of a script: its outputs, or the message of [error]. *)
Inductive mresult (X : Type) : Type :=
| Ok (v : X)
| Error (msg : string).
Arguments Ok {X} v.
Arguments Error {X} msg.

Definition mbind {X Y : Type} (m : mresult X) (k : X → mresult Y)
    : mresult Y :=
  match m with
  | Ok v => k v
  | Error msg => Error msg
  end.

Definition qmin (x y : Q) : Q := if Qle_bool x y then x else y.
Definition qmax (x y : Q) : Q := if Qle_bool x y then y else x.

(** [min(img(:))], [max(img(:))] and [mean(...)] of a vector. *)
Definition list_min (x : Q) (l : list Q) : Q := foldr qmin x l.
Definition list_max (x : Q) (l : list Q) : Q := foldr qmax x l.
Definition qsum (l : list Q) : Q := foldr Qplus 0%Q l.

Definition mean (l : list Q) : fval :=
  match l with
  | [] => NaN
  | _ => Fin (qsum l / inject_Z (Z.of_nat (length l)))%Q
  end.

(** *** [gc_normalize_image] *)

Definition gc_normalize_image (img : image) : mresult (list fval) :=
  match img with
  | OtherImage _ _ => Error "Use only with SINGLE[] or DOUBLE[] images."
  | FloatImage _ [] => Ok []
  | FloatImage _ (x :: l) =>
      let a := list_min x l in
      let b := list_max x l in
      Ok ((λ v, fdiv (v - a)%Q (b - a)%Q) <$> (x :: l))
  end.

(** *** [gc_weighted_kmeans] *)

(** The variables of the script while it loops. *)
Record kstate : Type := MkK {
  k_c1 : fval;
  k_c2 : fval;
  k_old_c1 : fval;
  k_old_c2 : fval;
  k_iter : Z
}.

(** [abs(c1-old_c1) + abs(c2-old_c2)]. *)
Definition k_delta (s : kstate) : fval :=
  fadd (fabs (fsub (k_c1 s) (k_old_c1 s))) (fabs (fsub (k_c2 s) (k_old_c2 s))).

(** The condition of the [while]. *)
Definition k_guard (conv maxiter : Q) (s : kstate) : bool :=
  fgt (k_delta s) (Fin conv) && Qltb (inject_Z (k_iter s)) maxiter.

(** [R = -lambda1 * (img - c1).^2 + lambda2 * (img - c2).^2] at one
    pixel. *)
Definition residual (lambda1 lambda2 : Q) (c1 c2 : fval) (x : Q) : fval :=
  let d1 := fsub (Fin x) c1 in
  let d2 := fsub (Fin x) c2 in
  fadd (fmul (Fin (- lambda1)%Q) (fmul d1 d1)) (fmul (Fin lambda2) (fmul d2 d2)).

(** The body of the [while]. *)
Definition k_body (px : list Q) (lambda1 lambda2 : Q) (s : kstate) : kstate :=
  let R := residual lambda1 lambda2 (k_c1 s) (k_c2 s) in
  MkK (mean (filter (λ x, fge0 (R x) = true) px))
      (mean (filter (λ x, flt0 (R x) = true) px))
      (k_c1 s) (k_c2 s) (k_iter s + 1)%Z.

(** The [while] loop, with a bound on the passes it may make. *)
Fixpoint k_loop (fuel : nat) (px : list Q) (lambda1 lambda2 conv maxiter : Q)
    (s : kstate) : option kstate :=
  if k_guard conv maxiter s then
    match fuel with
    | 0 => None
    | S fuel' =>
        k_loop fuel' px lambda1 lambda2 conv maxiter (k_body px lambda1 lambda2 s)
    end
  else Some s.

(** The state before the loop. *)
Definition k_init (x : Q) (l : list Q) : kstate :=
  let px := x :: l in
  let avg := (qsum px / inject_Z (Z.of_nat (length px)))%Q in
  MkK (Fin (avg - (avg - list_min x l) / 2)%Q)
      (Fin (avg + (list_max x l - avg) / 2)%Q)
      (Fin (-1)%Q) (Fin (-1)%Q) 0%Z.

(** [gc_weighted_kmeans(img, lambda1, lambda2, conv, maxiter)]; [conv] and
    [maxiter] are [None] when the call leaves them out.  The result is the
    state at the end of the loop, of which the script returns [c1], [c2]
    and [iter].  On an empty image the condition of the [while] is an
    empty array, which [&&] refuses. *)
Definition gc_weighted_kmeans (img : image) (lambda1 lambda2 : Q)
    (conv maxiter : option Q) : mresult (option kstate) :=
  match img with
  | OtherImage _ _ => Error "Use only with SINGLE[] or DOUBLE[] images."
  | FloatImage _ [] =>
      Error "Operands to the || and && operators must be convertible to logical scalar values."
  | FloatImage _ (x :: l) =>
      let conv := default (1 # 1000)%Q conv in
      let maxiter := default 30%Q maxiter in
      Ok (k_loop (Z.to_nat (Qceiling maxiter)) (x :: l) lambda1 lambda2 conv
            maxiter (k_init x l))
  end.

(** The outputs [c1 c2 iter] of a final state. *)
Definition k_outputs (s : kstate) : fval * fval * Z :=
  (k_c1 s, k_c2 s, k_iter s).

(** The stopping rule of the specification, "stop when |dc1|+|dc2| < conv
    or maxiter reached", as a condition under which the loop goes on. *)
Definition spec_guard (conv maxiter : Q) (s : kstate) : bool :=
  negb (fgt (Fin conv) (k_delta s)) && Qltb (inject_Z (k_iter s)) maxiter.

(** *** [gc_chan_vese_two_stage] *)

(** The index vector of the element of linear index [k] in an array of
    sizes [dims], first index fastest. *)
Fixpoint position (dims : list nat) (k : nat) : list Z :=
  match dims with
  | [] => []
  | d :: ds => Z.of_nat (k mod d) :: position ds (k / d)
  end.

(** The cityblock distance of two index vectors. *)
Definition cityblock (p q : list Z) : Z :=
  foldr Z.add 0%Z (zip_with (λ a b, Z.abs (a - b)) p q).

(** The least element of a list of distances. *)
Definition least (l : list Z) : option Z :=
  foldr (λ d acc, Some (match acc with Some m => Z.min d m | None => d end))
        None l.

(** Modelled from the spec: [GcDistTransform(seg, zero_val, 'cityblock')].
    The mex function is at hand but the transform it calls,
    [DistanceTransform::CityBlock], is not; the specification has the band
    "determined by cityblock distance transform".  [dist_to dims seg
    zero_val k] is the cityblock distance from the element of index [k] to
    the nearest element of [seg] equal to [zero_val], and [None] when [seg]
    has no such element, which counts as farther than every radius. *)
Definition dist_to (dims : list nat) (seg : list bool) (zero_val : bool)
    (k : nat) : option Z :=
  least ((λ j, cityblock (position dims k) (position dims j))
           <$> filter (λ j, seg !! j = Some zero_val) (seq 0 (length seg))).

Definition GcDistTransform (dims : list nat) (seg : list bool)
    (zero_val : bool) : list (option Z) :=
  dist_to dims seg zero_val <$> seq 0 (length seg).

(** [dt > bandradius] at one element. *)
Definition exceeds (bandradius : Q) (d : option Z) : bool :=
  match d with
  | Some d => Qltb bandradius (inject_Z d)
  | None => true
  end.

(** Lines 182-188 of the script: the mask of the second stage. *)
Definition band_mask (dims : list nat) (seg : list bool) (bandradius : Q)
    : list Z :=
  let mask := replicate (length seg) 3%Z in
  let dt := GcDistTransform dims seg false in
  let mask := zip_with (λ d m, if exceeds bandradius d then 2%Z else m) dt mask in
  let dt := GcDistTransform dims seg true in
  zip_with (λ d m, if exceeds bandradius d then 1%Z else m) dt mask.

Section TwoStage.

(** The outputs [seg energy iter c1 c2] of [GcChanVese]. *)
Definition cv_outputs : Type := list bool * fval * Q * fval * fval.

(** The mex function [GcChanVese(img, lambda1, lambda2, c1, c2, conv,
    maxiter, nb, flow, log, [mask])], whose source is not at hand. *)
Variable GcChanVese :
  image → fval → fval → fval → fval → Q → Q → string → string → bool →
  option (list Z) → mresult cv_outputs.

(** [gc_chan_vese_two_stage]; an argument the call leaves out is
    [None]. *)
Definition gc_chan_vese_two_stage (img : image) (mu lambda1 lambda2 : Q)
    (bandradius : option Q) (nb1 nb2 flow1 flow2 : option string)
    (log : option bool) (conv1 conv2 maxiter1 maxiter2 : option Q)
    (c1 c2 : option fval)
    : mresult (list bool * fval * Q * Q * fval * fval) :=
  match img with
  | OtherImage _ _ => Error "Use only with SINGLE[] or DOUBLE[] images."
  | FloatImage dims px =>
      if bool_decide (is_Some c1 ∧ c2 = None) then
        Error "c1 and c2 have to be specified either both or none."
      else
      let two_d := length dims =? 2 in
      let bandradius := default (if two_d then 8%Q else 4%Q) bandradius in
      let nb1 := default (if two_d then "N4" else "N6") nb1 in
      let nb2 := default (if two_d then "N16" else "N98") nb2 in
      let flow1 := default "GRD-KO" flow1 in
      let flow2 := default "GRD-PRH" flow2 in
      let log := default false log in
      let conv1 := default (1 # 1000)%Q conv1 in
      let conv2 := default (1 # 1000)%Q conv2 in
      let maxiter1 := default 30%Q maxiter1 in
      let maxiter2 := default 10%Q maxiter2 in
      mbind
        (match c1, c2 with
         | Some a, Some b => Ok (a, b)
         | _, _ =>
             mbind (gc_weighted_kmeans img lambda1 lambda2
                      (Some (1 # 1000)%Q) (Some 30%Q))
               (λ s, match s with
                     | Some s => Ok (k_c1 s, k_c2 s)
                     | None => Error "gc_weighted_kmeans did not return."
                     end)
         end)
        (λ '(c1, c2),
      mbind (GcChanVese img (fdiv lambda1 mu) (fdiv lambda2 mu) c1 c2 conv1
               maxiter1 nb1 flow1 log None)
        (λ '(seg, energy, iter1, c1, c2),
      let mask := band_mask dims seg bandradius in
      mbind (GcChanVese img (fdiv lambda1 mu) (fdiv lambda2 mu) c1 c2 conv2
               maxiter2 nb2 flow2 log (Some mask))
        (λ '(seg, energy, iter2, fc1, fc2),
      Ok (seg, energy, iter1, iter2, fc1, fc2))))
  end.

End TwoStage.

(** A stand-in for [GcChanVese] to run the script on: it labels as
    foreground the pixels brighter than 1/2, with a mask the pixels the
    mask fixes as foreground or leaves open and brighter than 1/2. *)
Definition threshold_GcChanVese (img : image) (_ _ c1 c2 : fval) (_ _ : Q)
    (_ _ : string) (_ : bool) (mask : option (list Z)) : mresult cv_outputs :=
  match img with
  | FloatImage _ px =>
      let seg :=
        match mask with
        | None => (λ x, Qltb (1 # 2) x) <$> px
        | Some m =>
            zip_with (λ x v, (v =? 2)%Z || ((v =? 3)%Z && Qltb (1 # 2) x)) px m
        end in
      Ok (seg, Fin 0, 1%Q, c1, c2)
  | OtherImage _ _ => Error "Unsupported image/voxel type."
  end.

End Tools.

(** ** Metric weights: [Gc::Energy::Potential::Metric::RiemannianDanek] *)

Module Metric.

(** The scalar type [T] ([Float32] or [Float64]) is the type of real
    numbers here: rounding is not modelled. *)

(** The dimensions [CauchyCroftonCoef<N,T>] is specialised for. *)
Inductive dimension : Type := Dim2 | Dim3.

(** [CauchyCroftonCoef<N,T>()]: the right hand side of the Cauchy-Crofton
    formulas. *)
Definition CauchyCroftonCoef (N : dimension) : R :=
  match N with
  | Dim2 => 2%R
  | Dim3 => PI
  end.

(** [for (Size i = 0; i < n; i++)] on a state of type [S], a step that
    reads or writes outside an array giving [None]. *)
Fixpoint for_each {S : Type} (n : nat) (body : nat → S → option S) (i : nat)
    (s : S) : option S :=
  match n with
  | 0 => Some s
  | Datatypes.S n' => s' ← body i s; for_each n' body (Datatypes.S i) s'
  end.

(** [a[i] = x] on an array of fixed size. *)
Definition store {X : Type} (a : list X) (i : nat) (x : X) : option (list X) :=
  if decide (i < length a) then Some (<[i:=x]> a) else None.

Section RiemannianDanek.

Variable N : dimension.

(** [Math::Algebra::Vector<N,T>] and [SquareMatrix<N,T>] with the methods
    the function calls, and [Math::Geometry::HypersphereVoronoiDiagram]:
    their code is not at hand. *)
Variable Vector : Type.
Variable SquareMatrix : Type.
Variable Mul : SquareMatrix → Vector → Vector.
Variable Normalized : Vector → Vector.
Variable Length : Vector → R.
Variable Determinant : SquareMatrix → R.
Variable HypersphereVoronoiDiagram : list Vector → list R.

(** The content of a new array of vectors. *)
Variable new_vector : Vector.

(** The members of the class the function uses: the neighbourhood and the
    weights. *)
Record RiemannianDanek : Type := MkRiemannianDanek {
  m_nb : list Vector;
  m_rw : list R
}.

(** [RiemannianDanek<N,T>::SetTransformationMatrix(mt)]. *)
Definition SetTransformationMatrix (this : RiemannianDanek)
    (mt : SquareMatrix) : option RiemannianDanek :=
  let n := length (m_nb this) in
  nv ← for_each n
         (λ i nv, d ← m_nb this !! i; store nv i (Normalized (Mul mt d)))
         0 (replicate n new_vector);
  let dphi := HypersphereVoronoiDiagram nv in
  let coef := CauchyCroftonCoef N in
  let cell_area := Determinant mt in
  rw ← for_each n
         (λ i rw,
            d ← m_nb this !! i;
            let drho := (cell_area / Length (Mul mt d))%R in
            phi ← dphi !! i;
            store rw i ((phi * drho) / coef)%R)
         0 (m_rw this);
  Some (MkRiemannianDanek (m_nb this) rw).

End RiemannianDanek.

End Metric.

(** * Theorems *)

Module SortProofs.
Import Sort.

Section HeapSortCorrect.
Context {A : Type}.
Variable gt : A → A → bool.
Hypothesis gt_asym : ∀ x y, gt x y = true → gt y x = false.
Hypothesis gt_negtrans :
  ∀ x y z, gt x y = false → gt y z = false → gt x z = false.

Lemma gt_irrefl x : gt x x = false.
Proof. destruct (gt x x) eqn:E; [by apply gt_asym in E as E'; congruence|done]. Qed.

Lemma is_child_gt i j : is_child i j → i < j.
Proof. unfold is_child; lia. Qed.

Lemma is_child_parent_eq i i' j : is_child i j → is_child i' j → i = i'.
Proof. unfold is_child; lia. Qed.

(** Closing the hole with [temp] when no child of the hole is greater. *)
Lemma heap_from_fill lo n (temp : A) (a : list A) index :
  sift_inv gt lo n temp a index → index < n → n ≤ length a →
  (∀ j y, is_child index j → j < n → a !! j = Some y → gt y temp = false) →
  heap_from gt (<[index:=temp]> a) lo n.
Proof.
  intros (P1 & P2 & P3) Hi Hn Hex i j x y Hlo Hj Hc Hx Hy.
  pose proof (is_child_gt _ _ Hc) as Hij.
  destruct (decide (i = index)) as [->|Hne].
  - rewrite list_lookup_insert_eq in Hx by lia. simplify_eq.
    rewrite list_lookup_insert_ne in Hy by lia. eauto.
  - rewrite list_lookup_insert_ne in Hx by done.
    destruct (decide (j = index)) as [->|Hne'].
    + rewrite list_lookup_insert_eq in Hy by lia. simplify_eq. eauto.
    + rewrite list_lookup_insert_ne in Hy by done. eauto.
Qed.

(** Moving the larger child [cv] into the hole keeps the invariant. *)
Lemma sift_inv_step lo n (temp : A) (a : list A) index child' cv :
  sift_inv gt lo n temp a index → index < n → n ≤ length a →
  is_child index child' → child' < n → a !! child' = Some cv →
  (∀ j y, is_child index j → j < n → a !! j = Some y → gt y cv = false) →
  gt cv temp = true →
  sift_inv gt lo n temp (<[index:=cv]> a) child'.
Proof.
  intros (P1 & P2 & P3) Hi Hn Hc Hc' Hcv Hmax Hgt.
  pose proof (is_child_gt _ _ Hc) as Hlt.
  split; [|split].
  - intros i j x y Hlo Hj Hij Hne Hx Hy.
    pose proof (is_child_gt _ _ Hij) as Hij'.
    destruct (decide (i = index)) as [->|Hne1].
    + rewrite list_lookup_insert_eq in Hx by lia. simplify_eq.
      rewrite list_lookup_insert_ne in Hy by lia. eauto.
    + rewrite list_lookup_insert_ne in Hx by done.
      destruct (decide (j = index)) as [->|Hne2].
      * rewrite list_lookup_insert_eq in Hy by lia. simplify_eq. eauto.
      * rewrite list_lookup_insert_ne in Hy by done. eauto.
  - intros p j x y Hlo Hp Hj Hjn Hx Hy.
    pose proof (is_child_parent_eq _ _ _ Hc Hp) as <-.
    pose proof (is_child_gt _ _ Hj) as Hj'.
    rewrite list_lookup_insert_eq in Hx by lia. simplify_eq.
    rewrite list_lookup_insert_ne in Hy by lia.
    apply (P1 child' j x y); auto; lia.
  - intros p x Hlo Hp Hx.
    pose proof (is_child_parent_eq _ _ _ Hc Hp) as <-.
    rewrite list_lookup_insert_eq in Hx by lia. simplify_eq.
    by apply gt_asym.
Qed.

(** The permutation made by one move of the hole. *)
Lemma hole_move_perm n (temp : A) (a : list A) index child' cv :
  index < n → child' < n → n ≤ length a → index ≠ child' →
  a !! child' = Some cv →
  take n (<[child':=temp]> (<[index:=cv]> a)) ≡ₚ take n (<[index:=temp]> a).
Proof.
  intros Hi Hc Hn Hne Hcv.
  rewrite !take_insert_lt by done.
  set (b := take n a).
  assert (Hb : b !! child' = Some cv) by (unfold b; by rewrite lookup_take_lt).
  assert (Hlen : length b = n) by (unfold b; rewrite length_take; lia).
  rewrite <-(list_insert_insert_eq b index cv temp).
  apply Permutation_insert_swap.
  - rewrite list_lookup_insert_eq; [done|lia].
  - by rewrite list_lookup_insert_ne.
Qed.

Lemma sift_spec fuel : ∀ (a : list A) n (temp : A) lo index child,
  n ≤ length a → lo ≤ index → index < n → child = index * 2 + 1 →
  n - index < fuel →
  sift_inv gt lo n temp a index →
  ∃ a' index', sift gt fuel a n temp index child = Some (a', index')
    ∧ index' < n ∧ length a' = length a
    ∧ drop n a' = drop n a
    ∧ take n (<[index':=temp]> a') ≡ₚ take n (<[index:=temp]> a)
    ∧ heap_from gt (<[index':=temp]> a') lo n.
Proof.
  induction fuel as [|fuel IH]; intros a n temp lo index child Hn Hlo Hi -> Hf Hinv;
    [lia|].
  simpl. destruct (Nat.ltb_spec (index * 2 + 1) n) as [Hc|Hc].
  2:{ exists a, index. repeat split; auto.
      apply heap_from_fill; auto. intros j y Hj Hjn _. unfold is_child in Hj; lia. }
  destruct (lookup_lt_is_Some_2 a (index * 2 + 1)) as [c0 Hc0]; [lia|].
  rewrite Hc0; simpl.
  (* the larger child *)
  assert (∃ child' cv,
    (if index * 2 + 1 + 1 <? n
     then c1 ← a !! (index * 2 + 1 + 1);
          Some (if gt c1 c0 then index * 2 + 1 + 1 else index * 2 + 1)
     else Some (index * 2 + 1)) = Some child'
    ∧ is_child index child' ∧ child' < n ∧ a !! child' = Some cv
    ∧ ∀ j y, is_child index j → j < n → a !! j = Some y → gt y cv = false)
    as (child' & cv & -> & Hch & Hch' & Hcv & Hmax).
  { destruct (Nat.ltb_spec (index * 2 + 1 + 1) n) as [Hc2|Hc2].
    - destruct (lookup_lt_is_Some_2 a (index * 2 + 1 + 1)) as [c1 Hc1]; [lia|].
      rewrite Hc1; simpl. destruct (gt c1 c0) eqn:Hg.
      + exists (index * 2 + 1 + 1), c1. repeat split; auto; [unfold is_child; lia|].
        intros j y [->| ->] Hjn Hy.
        * replace (2 * index + 1) with (index * 2 + 1) in Hy by lia.
          simplify_eq. by apply gt_asym.
        * replace (2 * index + 2) with (index * 2 + 1 + 1) in Hy by lia.
          simplify_eq. apply gt_irrefl.
      + exists (index * 2 + 1), c0. repeat split; auto; [unfold is_child; lia|].
        intros j y [->| ->] Hjn Hy.
        * replace (2 * index + 1) with (index * 2 + 1) in Hy by lia.
          simplify_eq. apply gt_irrefl.
        * replace (2 * index + 2) with (index * 2 + 1 + 1) in Hy by lia.
          by simplify_eq.
    - exists (index * 2 + 1), c0. repeat split; auto; [unfold is_child; lia|].
      intros j y [->| ->] Hjn Hy; [|lia].
      replace (2 * index + 1) with (index * 2 + 1) in Hy by lia.
      simplify_eq. apply gt_irrefl. }
  simpl. rewrite Hcv; simpl.
  pose proof (is_child_gt _ _ Hch) as Hlt.
  destruct (gt cv temp) eqn:Hg.
  - destruct (IH (<[index:=cv]> a) n temp lo child' (child' * 2 + 1))
      as (a' & index' & Hs & Hi' & Hlen & Hdrop & Hperm & Hheap);
      rewrite ?length_insert; auto; try lia.
    { by apply sift_inv_step. }
    exists a', index'. rewrite Hs. repeat split; auto.
    + by rewrite Hlen, length_insert.
    + by rewrite Hdrop, drop_insert_lt.
    + rewrite Hperm. apply hole_move_perm; auto; lia.
  - exists a, index. repeat split; auto.
    apply heap_from_fill; auto.
    intros j y Hj Hjn Hy. apply (gt_negtrans y cv temp); eauto.
Qed.

#[local] Arguments sift : simpl never.

(** The root of a heap is not smaller than any of its elements. *)
Lemma heap_root_max (a : list A) n r :
  heap_from gt a 0 n → n ≤ length a → a !! 0 = Some r →
  ∀ k x, k < n → a !! k = Some x → gt x r = false.
Proof.
  intros Hh Hn Hr k. induction k as [k IH] using lt_wf_ind.
  intros x Hk Hx. destruct k as [|k].
  - simplify_eq. apply gt_irrefl.
  - destruct (lookup_lt_is_Some_2 a (k / 2)) as [z Hz].
    { pose proof (Nat.Div0.div_le_upper_bound k 2 k). lia. }
    assert (Hpk : k / 2 < S k) by (pose proof (Nat.Div0.div_le_upper_bound k 2 k); lia).
    apply (gt_negtrans x z r).
    + apply (Hh (k / 2) (S k) z x); auto; [lia|].
      unfold is_child. pose proof (Nat.div_mod_eq k 2).
      pose proof (Nat.mod_upper_bound k 2). lia.
    + apply (IH (k / 2)); auto. lia.
Qed.

Lemma drop_insert_head (a : list A) n x :
  n < length a → drop n (<[n:=x]> a) = x :: drop (S n) a.
Proof.
  intros Hn. rewrite insert_take_drop by done.
  rewrite drop_app_length'; [done|]. rewrite length_take; lia.
Qed.

Lemma heap_loop_spec (a0 : list A) fuel : ∀ (a : list A) n parent,
  heap_inv gt a0 a n parent → parent + n < fuel →
  ∃ a', heap_loop gt fuel a n parent = Some a'
    ∧ a' ≡ₚ a0 ∧ StronglySorted (le gt) a'.
Proof.
  induction fuel as [|fuel IH]; intros a n parent Hinv Hf; [lia|].
  destruct Hinv as (Hlen & Hn & Hp & Hperm & Hheap & Hss & Hps).
  simpl. destruct (Nat.ltb_spec 1 n) as [Hn1|Hn1].
  2:{ exists a. repeat split; auto.
      rewrite <-(take_drop n a). apply StronglySorted_app. repeat split; auto.
      destruct (take n a) as [|x [|y l]] eqn:E.
      - constructor.
      - repeat constructor.
      - apply (f_equal length) in E. rewrite length_take in E. simpl in E. lia. }
  destruct (Nat.ltb_spec 0 parent) as [Hp0|Hp0].
  - (* heap construction: sift the element at parent - 1 *)
    destruct (lookup_lt_is_Some_2 a (parent - 1)) as [temp Ht]; [lia|].
    rewrite Ht; simpl.
    destruct (sift_spec (S n) a n temp (parent - 1) (parent - 1)
                ((parent - 1) * 2 + 1))
      as (a2 & index & -> & Hi & Hlen2 & Hdrop & Hperm2 & Hheap2);
      auto; try lia.
    { split; [|split].
      - intros i j x y ? ? ? ? ? ?. apply (Hheap i j x y); auto; lia.
      - intros p j x y ? Hc. apply is_child_gt in Hc. lia.
      - intros p x ? Hc. apply is_child_gt in Hc. lia. }
    simpl. rewrite (list_insert_id a (parent - 1) temp) in Hperm2 by done.
    assert (Hd : drop n (<[index:=temp]> a2) = drop n a)
      by (by rewrite drop_insert_lt).
    apply IH; [|lia]. repeat split; auto.
    + by rewrite length_insert, Hlen2.
    + rewrite length_insert, Hlen2. lia.
    + lia.
    + rewrite <-Hperm, <-(take_drop n (<[index:=temp]> a2)), Hperm2, Hd.
      by rewrite take_drop.
    + by rewrite Hd.
    + intros x y Hx Hy. rewrite Hperm2 in Hx. rewrite Hd in Hy. auto.
  - (* extraction: the root goes to position n - 1 *)
    assert (parent = 0) as -> by lia.
    destruct (lookup_lt_is_Some_2 a (n - 1)) as [temp Ht]; [lia|].
    destruct (lookup_lt_is_Some_2 a 0) as [r Hr]; [lia|].
    rewrite Ht, Hr; simpl.
    set (a1 := <[n - 1:=r]> a).
    destruct (sift_spec (S (n - 1)) a1 (n - 1) temp 0 0 1)
      as (a2 & index & -> & Hi & Hlen2 & Hdrop & Hperm2 & Hheap2);
      unfold a1; rewrite ?length_insert; auto; try lia.
    { split; [|split].
      - intros i j x y ? ? Hc ? Hx Hy. pose proof (is_child_gt _ _ Hc).
        rewrite list_lookup_insert_ne in Hx by lia.
        rewrite list_lookup_insert_ne in Hy by lia.
        apply (Hheap i j x y); auto; lia.
      - intros p j x y ? Hc. apply is_child_gt in Hc. lia.
      - intros p x ? Hc. apply is_child_gt in Hc. lia. }
    fold a1 in Hlen2, Hdrop, Hperm2. simpl.
    assert (Hd : drop (n - 1) (<[index:=temp]> a2) = r :: drop n a).
    { rewrite drop_insert_lt by done. rewrite Hdrop. unfold a1.
      rewrite drop_insert_head by lia. f_equal. f_equal. lia. }
    assert (Hin : ∀ x, x ∈ take (n - 1) (<[index:=temp]> a2) → x ∈ take n a).
    { intros x Hx. rewrite Hperm2 in Hx.
      apply list_elem_of_lookup in Hx as [k Hk].
      apply lookup_take_Some in Hk as [Hk Hkn].
      apply list_elem_of_lookup.
      destruct (decide (k = 0)) as [->|Hk0].
      - unfold a1 in Hk. rewrite list_lookup_insert_eq in Hk
          by (rewrite length_insert; lia).
        simplify_eq. exists (n - 1). rewrite lookup_take_lt by lia. done.
      - unfold a1 in Hk. rewrite !list_lookup_insert_ne in Hk by lia.
        exists k. rewrite lookup_take_lt by lia. done. }
    assert (Hrin : r ∈ take n a).
    { apply list_elem_of_lookup. exists 0. by rewrite lookup_take_lt by lia. }
    apply IH; [|lia]. repeat split; auto.
    + rewrite length_insert, Hlen2. unfold a1. by rewrite length_insert.
    + rewrite length_insert, Hlen2. unfold a1. rewrite length_insert. lia.
    + lia.
    + rewrite <-Hperm.
      rewrite <-(take_drop (n - 1) (<[index:=temp]> a2)).
      rewrite Hperm2. rewrite drop_insert_lt by done. rewrite Hdrop.
      rewrite <-(drop_insert_lt a1 (n - 1) 0 temp) by lia.
      rewrite take_drop. unfold a1.
      by apply Permutation_insert_swap.
    + rewrite Hd. constructor; auto.
      apply Forall_forall. intros y Hy. by apply Hps.
    + intros x y Hx Hy. rewrite Hd in Hy. apply Hin in Hx.
      apply elem_of_cons in Hy as [->|Hy]; [|by apply Hps].
      apply list_elem_of_lookup in Hx as [k Hk].
      apply lookup_take_Some in Hk as [Hk Hkn].
      by apply (heap_root_max a n r Hheap Hn Hr k x).
Qed.

Lemma StronglySorted_nondecreasing (a : list A) :
  StronglySorted (le gt) a → nondecreasing gt a.
Proof.
  induction 1 as [|x l Hl IH Hx]; intros i j u v Hij Hu Hv; [done|].
  destruct i as [|i], j as [|j]; simpl in *; simplify_eq.
  - apply gt_irrefl.
  - rewrite Forall_forall in Hx. apply Hx. by eapply list_elem_of_lookup_2.
  - lia.
  - apply (IH i j); auto. lia.
Qed.

Lemma Heap_sorts (a : list A) :
  ∃ a', Heap gt a = Some a' ∧ a' ≡ₚ a ∧ nondecreasing gt a'.
Proof.
  destruct (heap_loop_spec a (S (length a + length a / 2)) a (length a)
              (length a / 2)) as (a' & Ha & Hp & Hs).
  - repeat split; auto.
    + pose proof (Nat.Div0.div_le_upper_bound (length a) 2 (length a)). lia.
    + intros i j x y Hi Hj Hc _ _. unfold is_child in Hc.
      pose proof (Nat.div_mod_eq (length a) 2).
      pose proof (Nat.mod_upper_bound (length a) 2). lia.
    + rewrite drop_all. constructor.
    + intros x y _ Hy. rewrite drop_all in Hy. by apply elem_of_nil in Hy.
  - lia.
  - exists a'. repeat split; auto. by apply StronglySorted_nondecreasing.
Qed.

End HeapSortCorrect.

(** *** [HeapSimultaneous] is [Heap] on the array of pairs *)

Section Simultaneous.
Context {A B : Type}.
Variable gt : A → A → bool.

Lemma pick_child_sim (a : list A) (b : list B) n child c0 d0 :
  length a = length b →
  (if child + 1 <? n then
     c1 ← zip a b !! (child + 1);
     Some (if gt_fst gt c1 (c0, d0) then child + 1 else child)
   else Some child)
  = (if child + 1 <? n then
       c1 ← a !! (child + 1);
       Some (if gt c1 c0 then child + 1 else child)
     else Some child).
Proof.
  intros Hlen. destruct (child + 1 <? n); [|done].
  rewrite lookup_zip_with.
  destruct (a !! (child + 1)) as [c1|] eqn:Ha; [|done]. simpl.
  destruct (b !! (child + 1)) as [d1|] eqn:Hb; [done|].
  apply lookup_lt_Some in Ha. apply lookup_ge_None in Hb. lia.
Qed.

Lemma sift2_sim fuel : ∀ (a : list A) (b : list B) n t1 t2 index child,
  length a = length b →
  sift (gt_fst gt) fuel (zip a b) n (t1, t2) index child
  = (λ r : list A * list B * nat, (zip r.1.1 r.1.2, r.2))
      <$> sift2 gt fuel a b n t1 index child.
Proof.
  induction fuel as [|fuel IH]; intros a b n t1 t2 index child Hlen; [done|].
  simpl. destruct (child <? n); [|done].
  rewrite (lookup_zip_with pair a b child).
  destruct (a !! child) as [c0|] eqn:Ha; [|done]. simpl.
  destruct (b !! child) as [d0|] eqn:Hb; simpl.
  2:{ apply lookup_lt_Some in Ha. apply lookup_ge_None in Hb. lia. }
  rewrite pick_child_sim by done.
  destruct (if child + 1 <? n then _ else _) as [child'|]; [|done]. simpl.
  rewrite (lookup_zip_with pair a b child').
  destruct (a !! child') as [cv|] eqn:Hcv; [|done]. simpl.
  destruct (b !! child') as [dv|] eqn:Hdv; simpl.
  2:{ apply lookup_lt_Some in Hcv. apply lookup_ge_None in Hdv. lia. }
  unfold gt_fst at 1. simpl. destruct (gt cv t1); [|done].
  rewrite insert_zip_with. apply IH. by rewrite !length_insert.
Qed.

Lemma sift2_length fuel : ∀ (a : list A) (b : list B) n t1 index child a' b' i',
  sift2 gt fuel a b n t1 index child = Some (a', b', i') →
  length a' = length a ∧ length b' = length b.
Proof.
  induction fuel as [|fuel IH]; intros a b n t1 index child a' b' i' Hs; [done|].
  simpl in Hs. destruct (child <? n); [|by simplify_eq].
  destruct (a !! child) as [c0|]; [|done]. simpl in Hs.
  destruct (if child + 1 <? n then _ else _) as [child'|]; [|done]. simpl in Hs.
  destruct (a !! child') as [cv|]; [|done]. simpl in Hs.
  destruct (gt cv t1); [|by simplify_eq].
  destruct (b !! child') as [dv|]; [|done]. simpl in Hs.
  apply IH in Hs. by rewrite !length_insert in Hs.
Qed.

#[local] Arguments sift : simpl never.
#[local] Arguments sift2 : simpl never.

Lemma heap2_loop_sim fuel : ∀ (a : list A) (b : list B) n parent,
  length a = length b →
  heap_loop (gt_fst gt) fuel (zip a b) n parent
  = (λ r : list A * list B, zip r.1 r.2) <$> heap2_loop gt fuel a b n parent.
Proof.
  induction fuel as [|fuel IH]; intros a b n parent Hlen; [done|].
  simpl. destruct (1 <? n); [|done].
  destruct (0 <? parent).
  - rewrite (lookup_zip_with pair a b (parent - 1)).
    destruct (a !! (parent - 1)) as [t1|] eqn:Ha; [|done]. simpl.
    destruct (b !! (parent - 1)) as [t2|] eqn:Hb; simpl.
    2:{ apply lookup_lt_Some in Ha. apply lookup_ge_None in Hb. lia. }
    rewrite sift2_sim by done.
    destruct (sift2 gt (S n) a b n t1 (parent - 1) ((parent - 1) * 2 + 1))
      as [[[a2 b2] index]|] eqn:Hs; [|done]. simpl.
    apply sift2_length in Hs as [Ha2 Hb2].
    rewrite insert_zip_with. apply IH. rewrite !length_insert. congruence.
  - rewrite (lookup_zip_with pair a b (n - 1)), (lookup_zip_with pair a b 0).
    destruct (a !! (n - 1)) as [t1|] eqn:Ha; [|done]. simpl.
    destruct (b !! (n - 1)) as [t2|] eqn:Hb; simpl.
    2:{ apply lookup_lt_Some in Ha. apply lookup_ge_None in Hb. lia. }
    destruct (a !! 0) as [a0|] eqn:Ha0; [|done]. simpl.
    destruct (b !! 0) as [b0|] eqn:Hb0; simpl.
    2:{ apply lookup_lt_Some in Ha0. apply lookup_ge_None in Hb0. lia. }
    rewrite insert_zip_with.
    rewrite sift2_sim by (by rewrite !length_insert).
    destruct (sift2 gt (S (n - 1)) (<[n - 1:=a0]> a) (<[n - 1:=b0]> b) (n - 1)
                t1 parent (parent * 2 + 1))
      as [[[a2 b2] index]|] eqn:Hs; [|done]. simpl.
    apply sift2_length in Hs as [Ha2 Hb2].
    rewrite insert_zip_with. apply IH.
    rewrite !length_insert in *. congruence.
Qed.

Lemma heap2_loop_length fuel : ∀ (a : list A) (b : list B) n parent a' b',
  length a = length b →
  heap2_loop gt fuel a b n parent = Some (a', b') → length a' = length b'.
Proof.
  induction fuel as [|fuel IH]; intros a b n parent a' b' Hlen Hh; [done|].
  simpl in Hh. destruct (1 <? n); [|by simplify_eq].
  destruct (0 <? parent).
  - destruct (a !! (parent - 1)) as [t1|]; [|done]. simpl in Hh.
    destruct (b !! (parent - 1)) as [t2|]; [|done]. simpl in Hh.
    destruct (sift2 gt (S n) a b n t1 (parent - 1) ((parent - 1) * 2 + 1))
      as [[[a2 b2] index]|] eqn:Hs; [|done]. simpl in Hh.
    apply sift2_length in Hs as [Ha2 Hb2].
    apply IH in Hh; [done|]. rewrite !length_insert. congruence.
  - destruct (a !! (n - 1)) as [t1|]; [|done]. simpl in Hh.
    destruct (b !! (n - 1)) as [t2|]; [|done]. simpl in Hh.
    destruct (a !! 0) as [a0|]; [|done]. simpl in Hh.
    destruct (b !! 0) as [b0|]; [|done]. simpl in Hh.
    destruct (sift2 gt (S (n - 1)) (<[n - 1:=a0]> a) (<[n - 1:=b0]> b) (n - 1)
                t1 parent (parent * 2 + 1))
      as [[[a2 b2] index]|] eqn:Hs; [|done]. simpl in Hh.
    apply sift2_length in Hs as [Ha2 Hb2].
    apply IH in Hh; [done|]. rewrite !length_insert in *. congruence.
Qed.

Lemma zip_lookup_split (a : list A) (b : list B) i :
  length a = length b →
  match zip a b !! i with
  | Some p => a !! i = Some p.1 ∧ b !! i = Some p.2
  | None => a !! i = None ∧ b !! i = None
  end.
Proof.
  intros Hlen. rewrite lookup_zip_with.
  destruct (a !! i) as [x|] eqn:Ha, (b !! i) as [y|] eqn:Hb; simpl; auto.
  - apply lookup_lt_Some in Ha. apply lookup_ge_None in Hb. lia.
  - apply lookup_lt_Some in Hb. apply lookup_ge_None in Ha. lia.
Qed.

End Simultaneous.

(** C9.  For a comparison [>] that is a strict weak order (asymmetric, and
    "not greater" is transitive), [Sort::Heap] returns, for every range, a
    permutation of the range in non-decreasing order; [Sort::HeapSimultaneous],
    on two ranges of the same length, returns the first range in
    non-decreasing order and has moved both ranges by one and the same
    permutation [f] of positions, so that the pairs are preserved. *)
Theorem Heap_sorts_and_HeapSimultaneous_keeps_pairs {A B : Type}
    (gt : A → A → bool)
    (gt_asym : ∀ x y, gt x y = true → gt y x = false)
    (gt_negtrans : ∀ x y z, gt x y = false → gt y z = false → gt x z = false)
    (a d1 : list A) (d2 : list B) :
  length d1 = length d2 →
  (∃ a', Heap gt a = Some a' ∧ a' ≡ₚ a ∧ nondecreasing gt a')
  ∧ (∃ d1' d2', HeapSimultaneous gt d1 d2 = Some (d1', d2')
       ∧ nondecreasing gt d1'
       ∧ d1' ≡ₚ d1 ∧ d2' ≡ₚ d2 ∧ zip d1' d2' ≡ₚ zip d1 d2
       ∧ ∃ f : nat → nat, Inj (=) (=) f
           ∧ ∀ i, d1' !! i = d1 !! f i ∧ d2' !! i = d2 !! f i).
Proof.
  intros Hlen. split; [by apply Heap_sorts|].
  destruct (Heap_sorts (gt_fst gt) (A:=A * B)) with (a := zip d1 d2)
    as (z & Hz & Hperm & Hnd).
  { intros [x u] [y v]. unfold gt_fst. simpl. apply gt_asym. }
  { intros [x u] [y v] [w t]. unfold gt_fst. simpl. apply gt_negtrans. }
  unfold Heap in Hz. rewrite length_zip_with_l_eq in Hz by done.
  rewrite heap2_loop_sim in Hz by done.
  destruct (heap2_loop gt (S (length d1 + length d1 / 2)) d1 d2 (length d1)
              (length d1 / 2)) as [[d1' d2']|] eqn:Hh; [|done].
  simpl in Hz. simplify_eq.
  pose proof (heap2_loop_length _ _ _ _ _ _ _ _ Hlen Hh) as Hlen'.
  exists d1', d2'. split; [done|].
  assert (Hp1 : d1' ≡ₚ d1).
  { rewrite <-(fst_zip d1' d2'), <-(fst_zip d1 d2) by lia. by rewrite Hperm. }
  assert (Hp2 : d2' ≡ₚ d2).
  { rewrite <-(snd_zip d1' d2'), <-(snd_zip d1 d2) by lia. by rewrite Hperm. }
  repeat split; auto.
  - intros i j x y Hij Hx Hy.
    pose proof (zip_lookup_split d1' d2' i Hlen') as Hi.
    pose proof (zip_lookup_split d1' d2' j Hlen') as Hj.
    destruct (zip d1' d2' !! i) as [[x' u]|] eqn:Ei; destruct Hi as [Hi1 Hi2];
      [|congruence].
    destruct (zip d1' d2' !! j) as [[y' v]|] eqn:Ej; destruct Hj as [Hj1 Hj2];
      [|congruence].
    simpl in *. simplify_eq. apply (Hnd i j (x, u) (y, v) Hij Ei Ej).
  - apply Permutation_inj in Hperm as (_ & f & Hf & Hfi).
    exists f. split; [done|]. intros i.
    pose proof (zip_lookup_split d1' d2' i Hlen') as Hi.
    pose proof (zip_lookup_split d1 d2 (f i) Hlen) as Hj.
    rewrite <-Hfi in Hj.
    destruct (zip d1' d2' !! i) as [[x u]|]; destruct Hi as [-> ->];
      destruct Hj as [-> ->]; done.
Qed.

(** An instance: integers with their usual order, three elements. *)
Lemma Heap_sorts_and_HeapSimultaneous_keeps_pairs_witness :
  (∀ x y, Z.gtb x y = true → Z.gtb y x = false)
  ∧ (∀ x y z, Z.gtb x y = false → Z.gtb y z = false → Z.gtb x z = false)
  ∧ length [3; 1; 2]%Z = length ["c"; "a"; "b"]%string
  ∧ (∃ a', Heap Z.gtb [3; 1; 2]%Z = Some a' ∧ a' ≡ₚ [3; 1; 2]%Z
          ∧ nondecreasing Z.gtb a')
  ∧ (∃ d1' d2',
       HeapSimultaneous Z.gtb [3; 1; 2]%Z ["c"; "a"; "b"]%string
         = Some (d1', d2')
       ∧ nondecreasing Z.gtb d1'
       ∧ d1' ≡ₚ [3; 1; 2]%Z ∧ d2' ≡ₚ ["c"; "a"; "b"]%string
       ∧ zip d1' d2' ≡ₚ zip [3; 1; 2]%Z ["c"; "a"; "b"]%string
       ∧ ∃ f : nat → nat, Inj (=) (=) f
           ∧ ∀ i, d1' !! i = [3; 1; 2]%Z !! f i
                  ∧ d2' !! i = ["c"; "a"; "b"]%string !! f i).
Proof.
  assert (H1 : ∀ x y, Z.gtb x y = true → Z.gtb y x = false)
    by (intros x y; rewrite !Z.gtb_ltb, Z.ltb_lt, Z.ltb_ge; lia).
  assert (H2 : ∀ x y z, Z.gtb x y = false → Z.gtb y z = false → Z.gtb x z = false)
    by (intros x y z; rewrite !Z.gtb_ltb, !Z.ltb_ge; lia).
  split; [exact H1|]. split; [exact H2|]. split; [reflexivity|].
  exact (Heap_sorts_and_HeapSimultaneous_keeps_pairs Z.gtb H1 H2
           [3; 1; 2]%Z [3; 1; 2]%Z ["c"; "a"; "b"]%string eq_refl).
Defined.

(** The two sorts on a concrete input. *)
Example Heap_example :
  Heap Z.gtb [5; 2; 9; 1; 5; 6; 0]%Z = Some [0; 1; 2; 5; 5; 6; 9]%Z.
Proof. reflexivity. Qed.

Example HeapSimultaneous_example :
  HeapSimultaneous Z.gtb [3; 1; 2; 0]%Z ["d"; "b"; "c"; "a"]%string
  = Some ([0; 1; 2; 3]%Z, ["a"; "b"; "c"; "d"]%string).
Proof. reflexivity. Qed.

(** *** What the sorts do whatever the comparison is *)

Section AnyComparison.
Context {A B : Type}.
Variable gt : A → A → bool.

(** The child the inner loop goes on with lies below the hole and inside
    the heap. *)
Lemma pick_child_lt (a : list A) n child c0 child' :
  child < n →
  (if child + 1 <? n then
     c1 ← a !! (child + 1);
     Some (if gt c1 c0 then child + 1 else child)
   else Some child) = Some child' →
  child ≤ child' ∧ child' < n.
Proof.
  intros Hc. destruct (Nat.ltb_spec (child + 1) n) as [Hc1|Hc1].
  - destruct (a !! (child + 1)) as [c1|]; [|done]. simpl.
    destruct (gt c1 c0); intros; simplify_eq; lia.
  - intros; simplify_eq; lia.
Qed.

Lemma sift_perm fuel : ∀ (a : list A) n (temp : A) index child,
  n ≤ length a → index < n → child = index * 2 + 1 → n - index < fuel →
  ∃ a' index', sift gt fuel a n temp index child = Some (a', index')
    ∧ index' < n ∧ length a' = length a
    ∧ drop n a' = drop n a
    ∧ take n (<[index':=temp]> a') ≡ₚ take n (<[index:=temp]> a).
Proof.
  induction fuel as [|fuel IH]; intros a n temp index child Hn Hi -> Hf; [lia|].
  simpl. destruct (Nat.ltb_spec (index * 2 + 1) n) as [Hc|Hc].
  2:{ exists a, index. repeat split; auto. }
  destruct (lookup_lt_is_Some_2 a (index * 2 + 1)) as [c0 Hc0]; [lia|].
  rewrite Hc0; simpl.
  assert (∃ child',
    (if index * 2 + 1 + 1 <? n
     then c1 ← a !! (index * 2 + 1 + 1);
          Some (if gt c1 c0 then index * 2 + 1 + 1 else index * 2 + 1)
     else Some (index * 2 + 1)) = Some child') as [child' Hpick].
  { destruct (Nat.ltb_spec (index * 2 + 1 + 1) n) as [Hc2|Hc2]; [|by eexists].
    destruct (lookup_lt_is_Some_2 a (index * 2 + 1 + 1)) as [c1 Hc1]; [lia|].
    rewrite Hc1. by eexists. }
  rewrite Hpick. simpl.
  apply pick_child_lt in Hpick as [Hlo Hhi]; [|done].
  destruct (lookup_lt_is_Some_2 a child') as [cv Hcv]; [lia|].
  rewrite Hcv; simpl.
  destruct (gt cv temp).
  - destruct (IH (<[index:=cv]> a) n temp child' (child' * 2 + 1))
      as (a' & index' & Hs & Hi' & Hlen & Hdrop & Hperm);
      rewrite ?length_insert; auto; try lia.
    exists a', index'. rewrite Hs. repeat split; auto.
    + by rewrite Hlen, length_insert.
    + by rewrite Hdrop, drop_insert_lt.
    + rewrite Hperm. apply hole_move_perm; auto; lia.
  - exists a, index. repeat split; auto.
Qed.

Lemma sift2_fst fuel : ∀ (a : list A) (b : list B) n t index child,
  n ≤ length b →
  sift gt fuel a n t index child
  = (λ r : list A * list B * nat, (r.1.1, r.2))
      <$> sift2 gt fuel a b n t index child.
Proof.
  induction fuel as [|fuel IH]; intros a b n t index child Hn; [done|].
  simpl. destruct (Nat.ltb_spec child n) as [Hc|Hc]; [|done].
  destruct (a !! child) as [c0|]; [|done]. simpl.
  destruct (if child + 1 <? n then _ else _) as [child'|] eqn:Hpick; [|done].
  simpl. apply pick_child_lt in Hpick as [Hlo Hhi]; [|done].
  destruct (a !! child') as [cv|]; [|done]. simpl.
  destruct (gt cv t); [|done].
  destruct (lookup_lt_is_Some_2 b child') as [cw Hcw]; [lia|].
  rewrite Hcw. simpl. apply IH. by rewrite length_insert.
Qed.

Lemma sift2_index_lt fuel : ∀ (a : list A) (b : list B) n t index child a' b' i',
  index < n →
  sift2 gt fuel a b n t index child = Some (a', b', i') → i' < n.
Proof.
  induction fuel as [|fuel IH]; intros a b n t index child a' b' i' Hi Hs;
    [done|].
  simpl in Hs. destruct (Nat.ltb_spec child n) as [Hc|Hc]; [|by simplify_eq].
  destruct (a !! child) as [c0|]; [|done]. simpl in Hs.
  destruct (if child + 1 <? n then _ else _) as [child'|] eqn:Hpick; [|done].
  simpl in Hs. apply pick_child_lt in Hpick as [Hlo Hhi]; [|done].
  destruct (a !! child') as [cv|]; [|done]. simpl in Hs.
  destruct (gt cv t); [|by simplify_eq].
  destruct (b !! child') as [cw|]; [|done]. simpl in Hs.
  by apply IH in Hs.
Qed.

(** Cells of the second range behind the heap take no part. *)
Lemma sift2_app fuel : ∀ (a : list A) (b e : list B) n t index child,
  n ≤ length b → index < n →
  sift2 gt fuel a (b ++ e) n t index child
  = (λ r : list A * list B * nat, (r.1.1, r.1.2 ++ e, r.2))
      <$> sift2 gt fuel a b n t index child.
Proof.
  induction fuel as [|fuel IH]; intros a b e n t index child Hn Hi; [done|].
  simpl. destruct (Nat.ltb_spec child n) as [Hc|Hc]; [|done].
  destruct (a !! child) as [c0|]; [|done]. simpl.
  destruct (if child + 1 <? n then _ else _) as [child'|] eqn:Hpick; [|done].
  simpl. apply pick_child_lt in Hpick as [Hlo Hhi]; [|done].
  destruct (a !! child') as [cv|]; [|done]. simpl.
  destruct (gt cv t); [|done].
  rewrite lookup_app_l by lia.
  destruct (b !! child') as [cw|]; [|done]. simpl.
  rewrite insert_app_l by lia. apply IH; [by rewrite length_insert|done].
Qed.

#[local] Arguments sift : simpl never.
#[local] Arguments sift2 : simpl never.

Lemma heap_loop_perm (a0 : list A) fuel : ∀ (a : list A) n parent,
  n ≤ length a → parent ≤ n → a ≡ₚ a0 → parent + n < fuel →
  ∃ a', heap_loop gt fuel a n parent = Some a' ∧ a' ≡ₚ a0.
Proof.
  induction fuel as [|fuel IH]; intros a n parent Hn Hp Hperm Hf; [lia|].
  simpl. destruct (Nat.ltb_spec 1 n) as [Hn1|Hn1]; [|by exists a].
  destruct (Nat.ltb_spec 0 parent) as [Hp0|Hp0].
  - destruct (lookup_lt_is_Some_2 a (parent - 1)) as [temp Ht]; [lia|].
    rewrite Ht; simpl.
    destruct (sift_perm (S n) a n temp (parent - 1) ((parent - 1) * 2 + 1))
      as (a2 & index & -> & Hi & Hlen2 & Hdrop & Hperm2); auto; try lia.
    simpl. rewrite (list_insert_id a (parent - 1) temp) in Hperm2 by done.
    apply IH; [rewrite length_insert; lia|lia| |lia].
    rewrite <-Hperm, <-(take_drop n (<[index:=temp]> a2)), Hperm2.
    rewrite drop_insert_lt by done. rewrite Hdrop. by rewrite take_drop.
  - assert (parent = 0) as -> by lia.
    destruct (lookup_lt_is_Some_2 a (n - 1)) as [temp Ht]; [lia|].
    destruct (lookup_lt_is_Some_2 a 0) as [r Hr]; [lia|].
    rewrite Ht, Hr; simpl.
    set (a1 := <[n - 1:=r]> a).
    destruct (sift_perm (S (n - 1)) a1 (n - 1) temp 0 1)
      as (a2 & index & -> & Hi & Hlen2 & Hdrop & Hperm2);
      unfold a1; rewrite ?length_insert; auto; try lia.
    fold a1 in Hlen2, Hdrop, Hperm2. simpl.
    apply IH;
      [rewrite length_insert, Hlen2; unfold a1; rewrite length_insert; lia
      |lia| |lia].
    rewrite <-Hperm.
    rewrite <-(take_drop (n - 1) (<[index:=temp]> a2)).
    rewrite Hperm2. rewrite drop_insert_lt by done. rewrite Hdrop.
    rewrite <-(drop_insert_lt a1 (n - 1) 0 temp) by lia.
    rewrite take_drop. unfold a1.
    by apply Permutation_insert_swap.
Qed.

Lemma heap2_loop_fst fuel : ∀ (a : list A) (b : list B) n parent,
  n ≤ length b → parent ≤ n →
  heap_loop gt fuel a n parent = fst <$> heap2_loop gt fuel a b n parent.
Proof.
  induction fuel as [|fuel IH]; intros a b n parent Hn Hp; [done|].
  simpl. destruct (Nat.ltb_spec 1 n) as [Hn1|Hn1]; [|done].
  destruct (Nat.ltb_spec 0 parent) as [Hp0|Hp0].
  - destruct (a !! (parent - 1)) as [t1|]; [|done]. simpl.
    destruct (lookup_lt_is_Some_2 b (parent - 1)) as [t2 Ht2]; [lia|].
    rewrite Ht2. simpl.
    rewrite (sift2_fst (S n) a b n t1 (parent - 1)) by done.
    destruct (sift2 gt (S n) a b n t1 (parent - 1) ((parent - 1) * 2 + 1))
      as [[[a2 b2] index]|] eqn:Hs; [|done]. simpl.
    apply sift2_length in Hs as [_ Hb2].
    apply IH; [rewrite length_insert; lia|lia].
  - destruct (a !! (n - 1)) as [t1|]; [|done]. simpl.
    destruct (lookup_lt_is_Some_2 b (n - 1)) as [t2 Ht2]; [lia|].
    rewrite Ht2. simpl.
    destruct (a !! 0) as [x0|]; [|done]. simpl.
    destruct (lookup_lt_is_Some_2 b 0) as [y0 Hy0]; [lia|].
    rewrite Hy0. simpl.
    rewrite (sift2_fst (S (n - 1)) (<[n - 1:=x0]> a) (<[n - 1:=y0]> b))
      by (rewrite length_insert; lia).
    destruct (sift2 gt (S (n - 1)) (<[n - 1:=x0]> a) (<[n - 1:=y0]> b) (n - 1)
                t1 parent (parent * 2 + 1))
      as [[[a2 b2] index]|] eqn:Hs; [|done]. simpl.
    apply sift2_length in Hs as [_ Hb2]. rewrite length_insert in Hb2.
    apply IH; [rewrite length_insert; lia|lia].
Qed.

Lemma heap2_loop_app fuel : ∀ (a : list A) (b e : list B) n parent,
  n ≤ length b → parent ≤ n →
  heap2_loop gt fuel a (b ++ e) n parent
  = (λ r : list A * list B, (r.1, r.2 ++ e))
      <$> heap2_loop gt fuel a b n parent.
Proof.
  induction fuel as [|fuel IH]; intros a b e n parent Hn Hp; [done|].
  simpl. destruct (Nat.ltb_spec 1 n) as [Hn1|Hn1]; [|done].
  destruct (Nat.ltb_spec 0 parent) as [Hp0|Hp0].
  - destruct (a !! (parent - 1)) as [t1|]; [|done]. simpl.
    rewrite lookup_app_l by lia.
    destruct (b !! (parent - 1)) as [t2|]; [|done]. simpl.
    rewrite sift2_app by (done || lia).
    destruct (sift2 gt (S n) a b n t1 (parent - 1) ((parent - 1) * 2 + 1))
      as [[[a2 b2] index]|] eqn:Hs; [|done]. simpl.
    assert (Hi : index < _) by (eapply sift2_index_lt; [|exact Hs]; lia).
    apply sift2_length in Hs as [_ Hb2].
    rewrite insert_app_l by lia.
    apply IH; [rewrite length_insert; lia|lia].
  - destruct (a !! (n - 1)) as [t1|]; [|done]. simpl.
    rewrite (lookup_app_l b e (n - 1)) by lia.
    rewrite (lookup_app_l b e 0) by lia.
    destruct (b !! (n - 1)) as [t2|]; [|done]. simpl.
    destruct (a !! 0) as [x0|]; [|done]. simpl.
    destruct (b !! 0) as [y0|]; [|done]. simpl.
    rewrite insert_app_l by lia.
    rewrite sift2_app by (rewrite ?length_insert; lia).
    destruct (sift2 gt (S (n - 1)) (<[n - 1:=x0]> a) (<[n - 1:=y0]> b) (n - 1)
                t1 parent (parent * 2 + 1))
      as [[[a2 b2] index]|] eqn:Hs; [|done]. simpl.
    assert (Hi : index < _) by (eapply sift2_index_lt; [|exact Hs]; lia).
    apply sift2_length in Hs as [_ Hb2]. rewrite length_insert in Hb2.
    rewrite insert_app_l by lia.
    apply IH; [rewrite length_insert; lia|lia].
Qed.

Lemma heap2_loop_short fuel : ∀ (a : list A) (b : list B) n parent,
  1 < n → length b < n → heap2_loop gt fuel a b n parent = None.
Proof.
  induction fuel as [|fuel IH]; intros a b n parent Hn Hb; [done|].
  simpl. destruct (Nat.ltb_spec 1 n) as [_|?]; [|lia].
  destruct (0 <? parent).
  - destruct (a !! (parent - 1)) as [t1|]; [|done]. simpl.
    destruct (b !! (parent - 1)) as [t2|]; [|done]. simpl.
    destruct (sift2 gt (S n) a b n t1 (parent - 1) ((parent - 1) * 2 + 1))
      as [[[a2 b2] index]|] eqn:Hs; [|done]. simpl.
    apply sift2_length in Hs as [_ Hb2].
    apply IH; [done|]. rewrite length_insert. lia.
  - destruct (a !! (n - 1)) as [t1|]; [|done]. simpl.
    by rewrite (lookup_ge_None_2 b (n - 1)) by lia.
Qed.

End AnyComparison.

(** X1.  Whatever the comparison [>] is, an order or not, [Sort::Heap]
    returns: its loops end, it reads and writes inside the range only, and
    the range it leaves is a permutation of the one it was given. *)
Theorem Heap_permutes_for_any_comparison {A : Type} (gt : A → A → bool)
    (a : list A) :
  ∃ a', Heap gt a = Some a' ∧ a' ≡ₚ a.
Proof.
  unfold Heap. apply heap_loop_perm; [done| |done|lia].
  pose proof (Nat.Div0.div_le_upper_bound (length a) 2 (length a)). lia.
Qed.

(** X2.  When the second range is at least as long as the first,
    [Sort::HeapSimultaneous] returns, whatever the comparison is, and it
    leaves the first range exactly as [Sort::Heap] alone leaves it. *)
Theorem HeapSimultaneous_keys_as_Heap {A B : Type} (gt : A → A → bool)
    (d1 : list A) (d2 : list B) :
  length d1 ≤ length d2 →
  ∃ d1' d2', HeapSimultaneous gt d1 d2 = Some (d1', d2')
    ∧ Heap gt d1 = Some d1'
    ∧ d1' ≡ₚ d1 ∧ length d2' = length d2.
Proof.
  intros Hlen.
  destruct (heap_loop_perm gt d1 (S (length d1 + length d1 / 2)) d1
              (length d1) (length d1 / 2)) as (d1' & Hh & Hperm);
    [done| |done|lia|].
  { pose proof (Nat.Div0.div_le_upper_bound (length d1) 2 (length d1)). lia. }
  pose proof Hh as Hh2.
  rewrite (heap2_loop_fst gt _ d1 d2) in Hh2; [|done|].
  2:{ pose proof (Nat.Div0.div_le_upper_bound (length d1) 2 (length d1)). lia. }
  unfold HeapSimultaneous, Heap.
  destruct (heap2_loop gt (S (length d1 + length d1 / 2)) d1 d2 (length d1)
              (length d1 / 2)) as [[x y]|] eqn:E; [|done].
  simpl in Hh2. simplify_eq. exists d1', y. repeat split; auto.
  rewrite <-(take_drop (length d1) d2) in E.
  rewrite heap2_loop_app in E.
  - destruct (heap2_loop gt _ d1 (take (length d1) d2) _ _) as [[x z]|] eqn:E2;
      [|done].
    simpl in E. simplify_eq.
    apply heap2_loop_length in E2; [|rewrite length_take; lia].
    rewrite length_app, <-E2, length_drop.
    apply Permutation_length in Hperm. lia.
  - rewrite length_take. lia.
  - pose proof (Nat.Div0.div_le_upper_bound (length d1) 2 (length d1)). lia.
Qed.

(** Integers sorted together with a longer list of names. *)
Lemma HeapSimultaneous_keys_as_Heap_witness :
  length [3; 1; 2]%Z ≤ length ["c"; "a"; "b"; "z"]%string
  ∧ ∃ d1' d2',
      HeapSimultaneous Z.gtb [3; 1; 2]%Z ["c"; "a"; "b"; "z"]%string
        = Some (d1', d2')
      ∧ Heap Z.gtb [3; 1; 2]%Z = Some d1'
      ∧ d1' ≡ₚ [3; 1; 2]%Z
      ∧ length d2' = length ["c"; "a"; "b"; "z"]%string.
Proof.
  split; [simpl; lia|].
  apply (HeapSimultaneous_keys_as_Heap Z.gtb [3; 1; 2]%Z
           ["c"; "a"; "b"; "z"]%string).
  simpl. lia.
Defined.

(** X3.  [Sort::HeapSimultaneous] touches the second range only in its
    first [d1End - d1Beg] cells: on a second range [d2 ++ e], with [d2] as
    long as the first range, it does to [d2] what it does without [e], and
    leaves [e] as it is. *)
Theorem HeapSimultaneous_leaves_the_rest {A B : Type} (gt : A → A → bool)
    (d1 : list A) (d2 e : list B) :
  length d1 = length d2 →
  HeapSimultaneous gt d1 (d2 ++ e)
  = (λ r : list A * list B, (r.1, r.2 ++ e)) <$> HeapSimultaneous gt d1 d2.
Proof.
  intros Hlen. unfold HeapSimultaneous. apply heap2_loop_app; [lia|].
  pose proof (Nat.Div0.div_le_upper_bound (length d1) 2 (length d1)). lia.
Qed.

Lemma HeapSimultaneous_leaves_the_rest_witness :
  length [3; 1; 2]%Z = length ["c"; "a"; "b"]%string
  ∧ HeapSimultaneous Z.gtb [3; 1; 2]%Z (["c"; "a"; "b"]%string ++ ["z"; "y"]%string)
    = (λ r : list Z * list string, (r.1, r.2 ++ ["z"; "y"]%string))
        <$> HeapSimultaneous Z.gtb [3; 1; 2]%Z ["c"; "a"; "b"]%string.
Proof.
  split; [reflexivity|].
  apply (HeapSimultaneous_leaves_the_rest Z.gtb [3; 1; 2]%Z
           ["c"; "a"; "b"]%string ["z"; "y"]%string).
  reflexivity.
Defined.

(** X4.  A second range shorter than the first, the first holding two
    elements or more: [Sort::HeapSimultaneous] reads the second range past
    its end, whatever the elements and the comparison are.  The function
    makes no check of its own; the caller has to provide the cells. *)
Theorem HeapSimultaneous_short_second_range {A B : Type} (gt : A → A → bool)
    (d1 : list A) (d2 : list B) :
  1 < length d1 → length d2 < length d1 →
  HeapSimultaneous gt d1 d2 = None.
Proof.
  intros H1 H2. unfold HeapSimultaneous. by apply heap2_loop_short.
Qed.

Lemma HeapSimultaneous_short_second_range_witness :
  1 < length [2; 1]%Z ∧ length ["a"]%string < length [2; 1]%Z
  ∧ HeapSimultaneous Z.gtb [2; 1]%Z ["a"]%string = None.
Proof.
  split; [simpl; lia|]. split; [simpl; lia|].
  apply (HeapSimultaneous_short_second_range Z.gtb [2; 1]%Z ["a"]%string);
    simpl; lia.
Defined.

End SortProofs.

Module MatlabProofs.
Import Matlab.

(** A loop invariant [P k], [k] counting the iterations done. *)
Lemma for_loop_inv {S : Type} (P : nat → S → Prop) n :
  ∀ (body : nat → S → outcome S) i0 s,
  P 0 s →
  (∀ k s, k < n → P k s → ∃ s', body (i0 + k) s = Done s' ∧ P (Datatypes.S k) s') →
  ∃ s', for_loop n body i0 s = Done s' ∧ P n s'.
Proof.
  revert P. induction n as [|n IH]; intros P body i0 s H0 Hstep.
  - by exists s.
  - destruct (Hstep 0 s) as (s1 & Hb & H1); [lia|done|].
    simpl. rewrite Nat.add_0_r in Hb. rewrite Hb. simpl.
    apply (IH (λ k, P (Datatypes.S k))); [done|].
    intros k s2 Hk Hs2. destruct (Hstep (Datatypes.S k) s2) as (s3 & Hb3 & H3);
      [lia|done|].
    exists s3. split; [|done]. rewrite <-Hb3. f_equal. lia.
Qed.

Lemma src_index_lt i p q slices a b :
  i < slices → p < a → q < b → i * (a * b) + p * b + q < slices * (a * b).
Proof.
  intros Hi Hp Hq.
  pose proof (Nat.mul_le_mono_r (i + 1) slices (a * b)).
  pose proof (Nat.mul_le_mono_r (p + 1) a b). lia.
Qed.

Lemma dst_index_lt i p q slices a b :
  i < slices → p < a → q < b → i * (a * b) + p + q * a < slices * (a * b).
Proof.
  intros Hi Hp Hq.
  pose proof (Nat.mul_le_mono_r (i + 1) slices (a * b)).
  pose proof (Nat.mul_le_mono_r (q + 1) b a). lia.
Qed.

Lemma dst_index_inj i p q i' p' q' a b :
  p < a → q < b → p' < a → q' < b →
  i * (a * b) + p + q * a = i' * (a * b) + p' + q' * a →
  i = i' ∧ p = p' ∧ q = q'.
Proof.
  intros Hp Hq Hp' Hq' He.
  assert (Hu : p + q * a < a * b)
    by (pose proof (Nat.mul_le_mono_r (q + 1) b a); lia).
  assert (Hu' : p' + q' * a < a * b)
    by (pose proof (Nat.mul_le_mono_r (q' + 1) b a); lia).
  assert (i = i') as ->.
  { destruct (Nat.lt_trichotomy i i') as [Hlt|[Heq|Hlt]]; [|done|].
    - pose proof (Nat.mul_le_mono_r (i + 1) i' (a * b)). lia.
    - pose proof (Nat.mul_le_mono_r (i' + 1) i (a * b)). lia. }
  assert (q = q') as ->.
  { destruct (Nat.lt_trichotomy q q') as [Hlt|[Heq|Hlt]]; [|done|].
    - pose proof (Nat.mul_le_mono_r (q + 1) q' a). lia.
    - pose proof (Nat.mul_le_mono_r (q' + 1) q a). lia. }
  repeat split; lia.
Qed.

Section CopyNest.
Context {X Y : Type} (cast : X → Y) (src : list X).
Variables slices a b : nat.
Hypothesis Hsrc : length src = slices * (a * b).

(** One pass through the body of the inner loop. *)
Lemma copy_cell i p q (c : cursor Y) :
  i < slices → p < a → q < b → copied cast src a b (slices * (a * b)) i p q c →
  ∃ c', (let* v := load src (din c) in
         let* m := store (buf c) (dout c) (cast v) in
         Done (Cursor (din c + 1) (dout c + Z.of_nat a) m)) = Done c'
        ∧ copied cast src a b (slices * (a * b)) i p (S q) c'.
Proof.
  intros Hi Hp Hq (Hdin & Hdout & Hlen & Hcells).
  pose proof (src_index_lt i p q slices a b Hi Hp Hq) as Hs.
  pose proof (dst_index_lt i p q slices a b Hi Hp Hq) as Hd.
  destruct (lookup_lt_is_Some_2 src (i * (a * b) + p * b + q)) as [v Hv]; [lia|].
  unfold load, store. rewrite Hdin, Hdout, Hlen.
  rewrite !Nat2Z.id, Hv. simpl.
  destruct (Z.leb_spec 0 (Z.of_nat (i * (a * b) + p * b + q))); [|lia].
  simpl.
  destruct (Z.leb_spec 0 (Z.of_nat (i * (a * b) + p + q * a))); [|lia].
  destruct (Z.ltb_spec (Z.of_nat (i * (a * b) + p + q * a)) (Z.of_nat (slices * (a * b)))); [|lia].
  simpl. eexists. split; [done|].
  split; [simpl; lia|]. split; [simpl; lia|].
  split; [simpl; by rewrite length_insert|].
  intros i' p' q' Hp' Hq' Hlt. simpl.
  destruct (decide (i' = i ∧ p' = p ∧ q' = q)) as [(-> & -> & ->)|Hne].
  - rewrite list_lookup_insert_eq by lia. by rewrite Hv.
  - rewrite list_lookup_insert_ne.
    + apply Hcells; auto. lia.
    + intros He. apply dst_index_inj in He as (? & ? & ?); auto.
Qed.

Lemma copy_nest_spec (buf0 : list Y) :
  length buf0 = (slices * (a * b)) →
  ∃ c, copy_nest cast src slices a b (Cursor 0 0 buf0) = Done c
       ∧ copied cast src a b (slices * (a * b)) slices 0 0 c.
Proof.
  intros Hbuf. unfold copy_nest.
  apply (for_loop_inv (λ i c, copied cast src a b (slices * (a * b)) i 0 0 c)).
  { repeat split; simpl; auto; lia. }
  intros i c Hi Hc.
  destruct (for_loop_inv (λ p c, copied cast src a b (slices * (a * b)) i p 0 c) a
              (λ _ c,
                 let* c := for_loop b (λ _ c,
                   let* v := load src (din c) in
                   let* m := store (buf c) (dout c) (cast v) in
                   Done (Cursor (din c + 1) (dout c + Z.of_nat a) m)) 0 c in
                 Done (Cursor (din c) (dout c - (Z.of_nat (a * b) - 1)) (buf c)))
              0 c Hc) as (c1 & -> & H1).
  { intros p c2 Hp Hc2.
    destruct (for_loop_inv (λ q c, copied cast src a b (slices * (a * b)) i p q c) b
                (λ _ c,
                   let* v := load src (din c) in
                   let* m := store (buf c) (dout c) (cast v) in
                   Done (Cursor (din c + 1) (dout c + Z.of_nat a) m))
                0 c2 Hc2) as (c3 & -> & H3).
    { intros q c4 Hq Hc4. by apply copy_cell. }
    simpl. eexists. split; [done|].
    destruct H3 as (Hdin & Hdout & Hlen & Hcells).
    split; [simpl; lia|]. split; [simpl; lia|]. split; [done|].
    intros i' p' q' Hp' Hq' Hlt. simpl. apply Hcells; auto. lia. }
  simpl. eexists. split; [done|].
  destruct H1 as (Hdin & Hdout & Hlen & Hcells).
  split; [simpl; lia|]. split; [simpl; lia|]. split; [done|].
  intros i' p' q' Hp' Hq' Hlt. simpl. apply Hcells; auto. lia.
Qed.

End CopyNest.

(** The loop of [GetImage] that copies the sizes of the axes after Y. *)
Lemma dims_loop (mx_dim : list nat) n : ∀ k acc,
  k + n ≤ length mx_dim →
  for_loop n (λ i dims, let* d := defined (mx_dim !! i) in Done (dims ++ [d]))
           k acc
  = Done (acc ++ take n (drop k mx_dim)).
Proof.
  induction n as [|n IH]; intros k acc Hk; simpl.
  - by rewrite app_nil_r.
  - destruct (lookup_lt_is_Some_2 mx_dim k) as [d Hd]; [lia|].
    rewrite Hd. simpl. rewrite IH by lia.
    rewrite (drop_S _ _ _ Hd). simpl. by rewrite <-app_assoc.
Qed.

Lemma Elements_cons2 d0 d1 rest :
  Elements (d0 :: d1 :: rest) = Elements rest * (d0 * d1).
Proof. unfold Elements. simpl. lia. Qed.

Lemma GetImage_spec {GC MX : Type} (cast : MX → GC) h w rest
    (mx_data : list MX) garbage :
  0 < h → 0 < w → length mx_data = Elements (h :: w :: rest) →
  ∃ img, GetImage (2 + length rest) cast (h :: w :: rest) mx_data garbage
         = Done img
    ∧ Dimensions img = w :: h :: rest
    ∧ length (Data img) = Elements (w :: h :: rest)
    ∧ ∀ i x y, i < Elements rest → x < w → y < h →
        Data img !! (i * (w * h) + x + y * w)
        = cast <$> mx_data !! (i * (w * h) + x * h + y).
Proof.
  intros Hh Hw Hlen. unfold GetImage. simpl. rewrite Nat.sub_0_r.
  rewrite (dims_loop (h :: w :: rest) (length rest) 2 []) by (simpl; lia).
  simpl. rewrite drop_0, take_ge by done. unfold Resize. simpl.
  fold (Elements rest).
  destruct (Nat.eqb_spec (w * h) 0) as [E|_]; [nia|]. simpl.
  rewrite Elements_cons2 in Hlen.
  replace (w * (h * Elements rest) / (w * h)) with (Elements rest).
  2:{ replace (w * (h * Elements rest)) with (Elements rest * (w * h)) by lia.
      rewrite Nat.div_mul; [done|nia]. }
  destruct (copy_nest_spec cast mx_data (Elements rest) w h) with
    (buf0 := garbage <$> seq 0 (w * (h * Elements rest)))
    as (c & Hc & Hdin & Hdout & Hbuf & Hcells).
  { rewrite Hlen. lia. }
  { rewrite length_fmap, length_seq. lia. }
  unfold copy_nest in Hc. rewrite Hc. simpl.
  eexists. split; [done|]. simpl. split; [done|].
  split; [fold (Elements rest); rewrite Hbuf; lia|].
  intros i x y Hi Hx Hy. apply Hcells; [done|done|by left].
Qed.

Lemma SetImage_spec {GC MX : Type} (cast : GC → MX) h w rest
    (data : list GC) (mx_out : list MX) :
  0 < h → 0 < w → length data = Elements (w :: h :: rest) →
  length mx_out = length data →
  ∃ out, SetImage cast (MkArray (w :: h :: rest) data) mx_out = Done out
    ∧ length out = length mx_out
    ∧ ∀ i x y, i < Elements rest → x < w → y < h →
        out !! (i * (h * w) + y + x * h)
        = cast <$> data !! (i * (h * w) + y * w + x).
Proof.
  intros Hh Hw Hlen Hout. unfold SetImage. simpl.
  destruct (Nat.eqb_spec (w * h) 0) as [E|_]; [nia|]. simpl.
  rewrite Elements_cons2 in Hlen.
  change (foldr Nat.mul 1 rest) with (Elements rest).
  replace (w * (h * Elements rest) / (w * h)) with (Elements rest).
  2:{ replace (w * (h * Elements rest)) with (Elements rest * (w * h)) by lia.
      rewrite Nat.div_mul; [done|nia]. }
  destruct (copy_nest_spec cast data (Elements rest) h w) with (buf0 := mx_out)
    as (c & Hc & Hdin & Hdout & Hbuf & Hcells).
  { rewrite Hlen. lia. }
  { rewrite Hout, Hlen. lia. }
  unfold copy_nest in Hc. rewrite (Nat.mul_comm w h). rewrite Hc. simpl.
  eexists. split; [done|]. split; [rewrite Hbuf, Hout, Hlen; lia|].
  intros i x y Hi Hx Hy. apply Hcells; [done|done|by left].
Qed.



Example GetImage_transposes :
  GetImage 2 id [2; 3] [1; 2; 3; 4; 5; 6]%Z (λ _, 0%Z)
  = Done (MkArray [3; 2] [1; 3; 5; 2; 4; 6]%Z).
Proof. reflexivity. Qed.

Example SetImage_GetImage_3d :
  (let* img := GetImage 3 id [2; 2; 2] [1; 2; 3; 4; 5; 6; 7; 8]%Z (λ _, 0%Z) in
   SetImage id img (replicate 8 0%Z))
  = Done [1; 2; 3; 4; 5; 6; 7; 8]%Z.
Proof. reflexivity. Qed.

(** An array without rows: [Elements() / slice_sz] divides by zero. *)
Example GetImage_empty_undefined :
  GetImage 2 id [0; 3] ([] : list Z) (λ _, 0%Z) = Undefined.
Proof. reflexivity. Qed.

(** The decomposition of a MATLAB linear index. *)
Lemma mx_index_split h w n k :
  0 < h → 0 < w → k < n * (h * w) →
  ∃ i x y, i < n ∧ x < w ∧ y < h
    ∧ k = i * (h * w) + y + x * h
    ∧ gc_index h w k = i * (w * h) + x + y * w.
Proof.
  intros Hh Hw Hk. unfold gc_index.
  set (i := k / (h * w)). set (r := k mod (h * w)).
  set (x := r / h). set (y := r mod h).
  assert (Hkr : k = i * (h * w) + r)
    by (unfold i, r; pose proof (Nat.div_mod_eq k (h * w)); lia).
  assert (Hrxy : r = x * h + y)
    by (unfold x, y; pose proof (Nat.div_mod_eq r h); lia).
  assert (Hr : r < h * w) by (unfold r; apply Nat.mod_upper_bound; nia).
  assert (Hy : y < h) by (unfold y; apply Nat.mod_upper_bound; lia).
  assert (Hx : x < w) by (unfold x; apply Nat.Div0.div_lt_upper_bound; lia).
  assert (Hi : i < n) by (unfold i; apply Nat.Div0.div_lt_upper_bound; lia).
  exists i, x, y. repeat split; auto; lia.
Qed.

Lemma gc_index_lt h w n k :
  0 < h → 0 < w → k < n * (h * w) → gc_index h w k < n * (h * w).
Proof.
  intros Hh Hw Hk.
  destruct (mx_index_split h w n k Hh Hw Hk) as (i & x & y & Hi & Hx & Hy & _ & ->).
  pose proof (dst_index_lt i x y n w h Hi Hx Hy). lia.
Qed.

(** [GetImage] and [SetImage], cell by cell, through [gc_index]. *)
Lemma GetImage_index {GC MX : Type} (cast : MX → GC) h w rest
    (mx_data : list MX) garbage :
  0 < h → 0 < w → length mx_data = Elements (h :: w :: rest) →
  ∃ data, GetImage (2 + length rest) cast (h :: w :: rest) mx_data garbage
          = Done (MkArray (w :: h :: rest) data)
    ∧ length data = length mx_data
    ∧ ∀ k, k < length mx_data →
        data !! gc_index h w k = cast <$> mx_data !! k.
Proof.
  intros Hh Hw Hlen.
  destruct (GetImage_spec cast h w rest mx_data garbage Hh Hw Hlen)
    as ([dims data] & Hget & Hdims & Hdata & Hcells).
  cbn [Dimensions Data] in *. subst dims. exists data. split; [done|].
  rewrite Elements_cons2 in Hlen, Hdata.
  split; [lia|]. intros k Hk.
  destruct (mx_index_split h w (Elements rest) k Hh Hw) as
    (i & x & y & Hi & Hx & Hy & -> & ->); [lia|].
  rewrite (Hcells i x y Hi Hx Hy). do 2 f_equal. lia.
Qed.

Lemma SetImage_index {GC MX : Type} (cast : GC → MX) h w rest
    (data : list GC) (mx_out : list MX) :
  0 < h → 0 < w → length data = Elements (w :: h :: rest) →
  length mx_out = length data →
  ∃ out, SetImage cast (MkArray (w :: h :: rest) data) mx_out = Done out
    ∧ length out = length data
    ∧ ∀ k, k < length data → out !! k = cast <$> data !! gc_index h w k.
Proof.
  intros Hh Hw Hlen Hout.
  destruct (SetImage_spec cast h w rest data mx_out Hh Hw Hlen Hout)
    as (out & Hset & Hlo & Hcells).
  exists out. split; [done|]. split; [lia|]. intros k Hk.
  rewrite Elements_cons2 in Hlen.
  destruct (mx_index_split h w (Elements rest) k Hh Hw) as
    (i & x & y & Hi & Hx & Hy & -> & ->); [lia|].
  rewrite (Hcells i x y Hi Hx Hy). do 2 f_equal. lia.
Qed.

(** *** Neighbourhood symbols *)

Lemma streq_eq a b : streq a b = true ↔ a = b.
Proof. apply String.eqb_eq. Qed.

Ltac in_list :=
  repeat first [apply list_elem_of_here | apply list_elem_of_further].

Ltac not_in_list H :=
  repeat (apply elem_of_cons in H as [H|H]; [congruence|]);
  by apply elem_of_nil in H.

Ltac solve_symbol_case :=
  match goal with
  | |- _ ↔ _ =>
      split;
      [ intros [? Hnb]; first [discriminate Hnb | in_list]
      | let Hin := fresh in
        intros Hin; first [by eexists | exfalso; not_in_list Hin] ]
  | |- _ ∉ _ → _ =>
      let Hn := fresh in
      intros Hn; first [reflexivity | exfalso; apply Hn; in_list]
  end.

(** [CreateNeighbourhood] accepts the four symbols of the image's
    dimensionality and nothing else. *)
Lemma CreateNeighbourhood_accepts_exactly (s : string) :
  ((∃ nb, CreateNeighbourhood 2 s = Done nb) ↔ s ∈ symbols_2d)
  ∧ ((∃ nb, CreateNeighbourhood 3 s = Done nb) ↔ s ∈ symbols_3d)
  ∧ (s ∉ symbols_2d → CreateNeighbourhood 2 s = MexError
       "Unsupported neighbourhood type for given image dimensionality.")
  ∧ (s ∉ symbols_3d → CreateNeighbourhood 3 s = MexError
       "Unsupported neighbourhood type for given image dimensionality.").
Proof.
  unfold symbols_2d, symbols_3d, CreateNeighbourhood.
  destruct (streq s "N4") eqn:E4;
    [apply streq_eq in E4 as ->; simpl; (split; [|split; [|split]]); solve_symbol_case|].
  destruct (streq s "N8") eqn:E8;
    [apply streq_eq in E8 as ->; simpl; (split; [|split; [|split]]); solve_symbol_case|].
  destruct (streq s "N16") eqn:E16;
    [apply streq_eq in E16 as ->; simpl; (split; [|split; [|split]]); solve_symbol_case|].
  destruct (streq s "N32") eqn:E32;
    [apply streq_eq in E32 as ->; simpl; (split; [|split; [|split]]); solve_symbol_case|].
  destruct (streq s "N6") eqn:E6;
    [apply streq_eq in E6 as ->; simpl; (split; [|split; [|split]]); solve_symbol_case|].
  destruct (streq s "N18") eqn:E18;
    [apply streq_eq in E18 as ->; simpl; (split; [|split; [|split]]); solve_symbol_case|].
  destruct (streq s "N26") eqn:E26;
    [apply streq_eq in E26 as ->; simpl; (split; [|split; [|split]]); solve_symbol_case|].
  destruct (streq s "N98") eqn:E98;
    [apply streq_eq in E98 as ->; simpl; (split; [|split; [|split]]); solve_symbol_case|].
  assert (H4 : s ≠ "N4") by (intros ->; done).
  assert (H8 : s ≠ "N8") by (intros ->; done).
  assert (H16 : s ≠ "N16") by (intros ->; done).
  assert (H32 : s ≠ "N32") by (intros ->; done).
  assert (H6 : s ≠ "N6") by (intros ->; done).
  assert (H18 : s ≠ "N18") by (intros ->; done).
  assert (H26 : s ≠ "N26") by (intros ->; done).
  assert (H98 : s ≠ "N98") by (intros ->; done).
  simpl. (split; [|split; [|split]]); solve_symbol_case.
Qed.

(** What each accepted symbol builds: the common neighbourhood of that
    size, and for N98 a box of half-width 2 along each of the three axes,
    that is 5 x 5 x 5 offsets. *)
Lemma CreateNeighbourhood_builds :
  CreateNeighbourhood 2 "N4" = Done (Common 2 4 false)
  ∧ CreateNeighbourhood 2 "N8" = Done (Common 2 8 false)
  ∧ CreateNeighbourhood 2 "N16" = Done (Common 2 16 false)
  ∧ CreateNeighbourhood 2 "N32" = Done (Common 2 32 false)
  ∧ CreateNeighbourhood 3 "N6" = Done (Common 3 6 false)
  ∧ CreateNeighbourhood 3 "N18" = Done (Common 3 18 false)
  ∧ CreateNeighbourhood 3 "N26" = Done (Common 3 26 false)
  ∧ CreateNeighbourhood 3 "N98" = Done (Box 3 [2; 2; 2]%Z true false).
Proof. repeat split; reflexivity. Qed.

(** The drivers that build the neighbourhood themselves read the size
    after the first character and never look at that character. *)
Lemma driver_neighbourhood_tail N c t :
  driver_neighbourhood N (String c t)
  = Done (Ctor N (int_to_Size (atoi t)) false).
Proof. reflexivity. Qed.

(** C3, on [GcChanVeseLab], [GcRoussonDeriche] and [GcMumfordShah]: the
    string "X4" is not one of the symbols, [CreateNeighbourhood] refuses it
    with its "Unsupported neighbourhood" message, and yet the drivers build
    from it the very neighbourhood they build from "N4", without an
    error. *)
Theorem driver_neighbourhood_accepts_X4 :
("X4" ∉ symbols_2d)
  ∧ CreateNeighbourhood 2 "X4" = MexError
      "Unsupported neighbourhood type for given image dimensionality."
  ∧ driver_neighbourhood 2 "X4" = Done (Ctor 2 4 false)
  ∧ driver_neighbourhood 2 "X4" = driver_neighbourhood 2 "N4".
Proof.
  split; [|repeat split; reflexivity].
  unfold symbols_2d. intros H. repeat (apply elem_of_cons in H as [H|H]; [done|]).
  by apply elem_of_nil in H.
Qed.

(** Other strings the same drivers take for N4, N8 and N26. *)
Example driver_neighbourhood_other_strings :
  driver_neighbourhood 2 "N4x" = driver_neighbourhood 2 "N4"
  ∧ driver_neighbourhood 2 "N 8" = driver_neighbourhood 2 "N8"
  ∧ driver_neighbourhood 3 "n+26" = driver_neighbourhood 3 "N26".
Proof. repeat split; reflexivity. Qed.

(** *** Parameter validation *)

Lemma Qltb_lt x y : Qltb x y = true ↔ (x < y)%Q.
Proof.
  unfold Qltb. rewrite negb_true_iff. split.
  - intros H. apply Qnot_le_lt. intros Hle.
    apply Qle_bool_iff in Hle. congruence.
  - intros H. destruct (Qle_bool y x) eqn:E; [|done].
    apply Qle_bool_iff in E. by apply Qle_not_lt in E.
Qed.

Lemma Qltb_ge x y : Qltb x y = false ↔ (y <= x)%Q.
Proof.
  unfold Qltb. rewrite negb_false_iff. apply Qle_bool_iff.
Qed.

(** Scalars as the MATLAB wrappers pass them. *)
Definition scalar (v : Q) : mxArray := MxArray [1; 1] (DoubleData [v]).
Definition text (s : string) : mxArray :=
  MxArray [1; String.length s] (CharData s).
Definition logical (b : bool) : mxArray := MxArray [1; 1] (LogicalData [b]).

Section Validation.
Variable oor : Q → Z.
Variables (garbageQ : nat → Q) (garbageZ : nat → Z) (garbageB : nat → bool).
Variable CV_iteration :
  Array Q → option (Array Z) → Array Z → Q → Q → Neighbourhood →
  CVState → outcome CVState.
Variable Lloyd : Array Q → Z → list Q → Q → Z → outcome (list Q).
Variable MS_iteration :
  Array Q → Z → list Q → Neighbourhood → MSState → outcome MSState.

(** What [GcMumfordShah] refuses before it looks at the image: a number of
    labels outside 2..254, a weight that is not positive, a zero bound on
    the iterations, a negative convergence criterion; and then an image
    that is neither 2-D nor 3-D.  [k] and [max_iter] are the values after
    their conversion to [Gc::Size]. *)
Lemma MumfordShah_mexFunction_validates img kd lambda conv mi nb log :
  let k := double_to_Size oor kd in
  let max_iter := double_to_Size oor mi in
  let run := MumfordShah_mexFunction oor garbageQ garbageZ Lloyd MS_iteration 4
               [img; scalar kd; scalar lambda; scalar conv; scalar mi;
                text nb; logical log] in
  ((k < 2 ∨ 254 < k)%Z →
     run = MexError "Condition 1 < k < 255 not satisfied.")
  ∧ ((2 <= k <= 254)%Z → ((lambda <= 0)%Q ∨ (max_iter <= 0)%Z) →
     run = MexError "Parameters lambda and max_iter must be greater than zero.")
  ∧ ((2 <= k <= 254)%Z → (0 < lambda)%Q → (0 < max_iter)%Z → (conv < 0)%Q →
     run = MexError "Convergence criterion must be greater or equal to zero.")
  ∧ ((2 <= k <= 254)%Z → (0 < lambda)%Q → (0 < max_iter)%Z → (0 <= conv)%Q →
     mxGetNumberOfDimensions img ≠ 2 → mxGetNumberOfDimensions img ≠ 3 →
     run = MexError "Only 2D and 3D images are supported.").
Proof.
  intros k max_iter run. unfold run, MumfordShah_mexFunction. simpl.
  fold k. fold max_iter.
  repeat split.
  - intros Hk.
    assert (((k <? 2) || (254 <? k))%Z = true) as ->; [|done].
    apply orb_true_iff. rewrite Z.ltb_lt, Z.ltb_lt. done.
  - intros Hk Hbad.
    assert (((k <? 2) || (254 <? k))%Z = false) as ->.
    { apply orb_false_iff. rewrite !Z.ltb_ge. lia. }
    assert (Qltb 0 lambda && (0 <? max_iter)%Z = false) as ->; [|done].
    apply andb_false_iff. rewrite Qltb_ge, Z.ltb_ge. done.
  - intros Hk Hl Hm Hc.
    assert (((k <? 2) || (254 <? k))%Z = false) as ->.
    { apply orb_false_iff. rewrite !Z.ltb_ge. lia. }
    assert (Qltb 0 lambda && (0 <? max_iter)%Z = true) as ->.
    { apply andb_true_iff. rewrite Qltb_lt, Z.ltb_lt. done. }
    simpl. by apply Qltb_lt in Hc as ->.
  - intros Hk Hl Hm Hc H2 H3.
    assert (((k <? 2) || (254 <? k))%Z = false) as ->.
    { apply orb_false_iff. rewrite !Z.ltb_ge. lia. }
    assert (Qltb 0 lambda && (0 <? max_iter)%Z = true) as ->.
    { apply andb_true_iff. rewrite Qltb_lt, Z.ltb_lt. done. }
    simpl. apply Qltb_ge in Hc as ->.
    apply Nat.eqb_neq in H2 as ->. apply Nat.eqb_neq in H3 as ->. done.
Qed.

Lemma Qtrunc_small d : (-1 < d)%Q → (d < 1)%Q → Qtrunc d = 0%Z.
Proof.
  intros Hlo Hhi. unfold Qtrunc.
  destruct (Qle_bool 0 d) eqn:E.
  - apply Qle_bool_iff in E.
    pose proof (Qfloor_le d) as H1. pose proof (Qlt_floor d) as H2.
    assert (Qfloor d < 1)%Z.
    { rewrite Zlt_Qlt. eapply Qle_lt_trans; eauto. }
    assert (0 < Qfloor d + 1)%Z.
    { rewrite Zlt_Qlt. eapply Qle_lt_trans; eauto. }
    lia.
  - assert (d < 0)%Q as Hneg.
    { apply Qnot_le_lt. intros H. apply Qle_bool_iff in H. congruence. }
    pose proof (Qle_ceiling d) as H1. pose proof (Qceiling_lt d) as H2.
    assert (-1 < Qceiling d)%Z.
    { rewrite Zlt_Qlt. eapply Qlt_le_trans; eauto. }
    assert (Qceiling d - 1 < 0)%Z.
    { rewrite Zlt_Qlt. eapply Qlt_trans; eauto. }
    lia.
Qed.

(** A bound of 0 iterations, or any value strictly between -1 and 1, is
    refused by [GcMumfordShah] whatever the platform. *)
Lemma MumfordShah_rejects_zero_max_iter img lambda conv mi nb log :
  (-1 < mi)%Q → (mi < 1)%Q →
  MumfordShah_mexFunction oor garbageQ garbageZ Lloyd MS_iteration 4
    [img; scalar 3; scalar lambda; scalar conv; scalar mi; text nb;
     logical log]
  = MexError "Parameters lambda and max_iter must be greater than zero.".
Proof.
  intros Hlo Hhi.
  destruct (MumfordShah_mexFunction_validates img 3 lambda conv mi nb log)
    as (_ & H & _).
  apply H; [done|]. right. unfold double_to_Size.
  rewrite Qtrunc_small by done. done.
Qed.

(** C4, on [GcMumfordShah]: a bound of -1 on the iterations.  The
    conversion of -1.0 to the unsigned [Gc::Size] comes before the test
    [max_iter > 0]; with the conversion of the x86-64 compilers the value
    tested is 2^64 - 1, no error is raised and the segmentation is run with
    that bound. *)
Theorem MumfordShah_mexFunction_accepts_negative_max_iter :
  let img := MxArray [2; 2] (DoubleData [0; 1; 0; 1]%Q) in
  double_to_Size x86_64_oor (-1) = 18446744073709551615%Z
  ∧ MumfordShah_mexFunction x86_64_oor garbageQ garbageZ Lloyd MS_iteration 4
      [img; scalar 3; scalar 10; scalar (1 # 1000); scalar (-1); text "N4";
       logical false]
    = catch_exception
        (MumfordShah_Segment garbageQ garbageZ Lloyd MS_iteration 2 img 3 10
           (1 # 1000) 18446744073709551615 "N4" false).
Proof. split; reflexivity. Qed.

(** The same call is not refused on any platform whose conversion of -1.0
    is not 0. *)
Lemma MumfordShah_accepts_negative_max_iter_any_platform :
  (0 < oor (-1))%Z →
  let img := MxArray [2; 2] (DoubleData [0; 1; 0; 1]%Q) in
  MumfordShah_mexFunction oor garbageQ garbageZ Lloyd MS_iteration 4
    [img; scalar 3; scalar 10; scalar (1 # 1000); scalar (-1); text "N4";
     logical false]
  = catch_exception
      (MumfordShah_Segment garbageQ garbageZ Lloyd MS_iteration 2 img 3 10
         (1 # 1000) (oor (-1)) "N4" false).
Proof.
  intros Hpos img. unfold MumfordShah_mexFunction. simpl.
  change (double_to_Size oor (-1)) with (oor (-1)).
  apply Z.ltb_lt in Hpos as ->. reflexivity.
Qed.

End Validation.

(** *** The iteration count *)

Lemma bind_Done_inv {X Y : Type} (m : outcome X) (k : X → outcome Y) y :
  bind m k = Done y → ∃ x, m = Done x ∧ k x = Done y.
Proof. destruct m; simpl; intros H; try discriminate. eauto. Qed.

Section OuterLoop.
Context {St : Type}.
Variable iteration : St → outcome St.
Variable converged : St → St → bool.

(** The counter of the loop counts the states of the trace. *)
Lemma outer_loop_count fuel : ∀ iter s sf n,
  outer_loop iteration converged fuel iter s = Done (sf, n) →
  n = (iter + Z.of_nat (length (outer_trace iteration converged fuel s)))%Z
  ∧ length (outer_trace iteration converged fuel s) ≤ fuel
  ∧ last (s :: outer_trace iteration converged fuel s) = Some sf.
Proof.
  induction fuel as [|fuel IH]; intros iter s sf n H; simpl in *.
  - simplify_eq. split; [lia|]. split; [lia|done].
  - apply bind_Done_inv in H as (s' & Hs & H). rewrite Hs.
    destruct (converged s s').
    + simplify_eq. simpl. split; [lia|]. split; [lia|done].
    + apply IH in H as (-> & Hle & Hlast). simpl.
      split; [lia|]. split; [lia|]. exact Hlast.
Qed.

(** The loop stops at the first iteration whose test succeeds. *)
Lemma outer_loop_stops fuel : ∀ iter s j p q sf n,
  iterate_n iteration j s = Done p → iteration p = Done q →
  converged p q = true → j < fuel →
  outer_loop iteration converged fuel iter s = Done (sf, n) →
  (n <= iter + Z.of_nat j + 1)%Z.
Proof.
  induction fuel as [|fuel IH]; intros iter s j p q sf n Hj Hq Hc Hlt H; [lia|].
  simpl in H. apply bind_Done_inv in H as (s' & Hs & H).
  destruct (converged s s') eqn:Hcs.
  - simplify_eq. lia.
  - destruct j as [|j]; simpl in Hj.
    + simplify_eq. congruence.
    + rewrite Hs in Hj. simpl in Hj.
      pose proof (IH (iter + 1)%Z s' j p q sf n Hj Hq Hc ltac:(lia) H). lia.
Qed.

Lemma outer_loop_counts_iterations max_iter s0 sf n :
  outer_loop iteration converged (Z.to_nat max_iter) 0 s0 = Done (sf, n) →
  counts_iterations iteration converged max_iter s0 n.
Proof.
  intros H. pose proof (outer_loop_count _ _ _ _ _ H) as (Hn & Hle & _).
  split; [lia|]. split; [lia|]. split; [lia|].
  intros j p q Hj Hq Hc Hlt.
  pose proof (outer_loop_stops (Z.to_nat max_iter) 0 s0 j p q sf n Hj Hq Hc
                ltac:(lia) H). lia.
Qed.

End OuterLoop.

Ltac inv_bind H x Hx :=
  apply bind_Done_inv in H as (x & Hx & H); cbv beta iota in H.

Section IterationsOutput.
Variables (garbageQ : nat → Q) (garbageZ : nat → Z) (garbageB : nat → bool).
Variable CV_iteration :
  Array Q → option (Array Z) → Array Z → Q → Q → Neighbourhood →
  CVState → outcome CVState.
Variable Lloyd : Array Q → Z → list Q → Q → Z → outcome (list Q).
Variable MS_iteration :
  Array Q → Z → list Q → Neighbourhood → MSState → outcome MSState.
Variable RD_InitialEstimate : Array Q → Z → outcome RDParams.
Variable RD_iteration :
  Array Q → Q → Neighbourhood → GridMaxFlow → RDState → outcome RDState.
Variable RD_converged : Q → RDState → RDState → bool.

(** [GcChanVeseLab]: [plhs[2]] is what [ChanVese::Compute] left in
    [max_iter]. *)
Lemma ChanVeseLab_Segment_iterations N mx_in mx_interface mx_mask
    l1 l2 c1 c2 conv max_iter str_nb log plhs :
  ChanVeseLab_Segment garbageQ garbageZ garbageB CV_iteration N mx_in
    mx_interface mx_mask l1 l2 c1 c2 conv max_iter str_nb log = Done plhs →
  ∃ d img mask iface nb r n,
    float_data mx_in = Done d
    ∧ GetImage N id (mxGetDimensions mx_in) d garbageQ = Done img
    ∧ driver_neighbourhood N str_nb = Done nb
    ∧ ChanVese_Compute garbageZ garbageB CV_iteration img mask iface
        l1 l2 c1 c2 conv max_iter nb = Done (r, n)
    ∧ iterations_output plhs = Some (inject_Z n).
Proof.
  intros H. unfold ChanVeseLab_Segment in H.
  inv_bind H d Hd. inv_bind H img Himg.
  inv_bind H d' Hd'. inv_bind H iface Hiface.
  destruct (negb _); [discriminate|].
  inv_bind H msk Hmask. inv_bind H nb Hnb.
  inv_bind H rn Hrn. destruct rn as [r n]. cbv beta iota zeta in H.
  inv_bind H lj Hlj. destruct lj as [labels j]. cbv beta iota in H.
  inv_bind H out Hout. injection H as <-.
  exists d, img, msk, iface, nb, r, n. repeat split; auto.
Qed.

(** [GcMumfordShah]. *)
Lemma MumfordShah_Segment_iterations N mx_in k lambda conv max_iter str_nb
    log plhs :
  MumfordShah_Segment garbageQ garbageZ Lloyd MS_iteration N mx_in k lambda
    conv max_iter str_nb log = Done plhs →
  ∃ d img nb c r n,
    float_data mx_in = Done d
    ∧ GetImage N id (mxGetDimensions mx_in) d garbageQ = Done img
    ∧ driver_neighbourhood N str_nb = Done nb
    ∧ Lloyd img k (replicate (Z.to_nat k) lambda) conv 50 = Done c
    ∧ MumfordShah_ComputePiecewiseConstant garbageZ MS_iteration img k
        (replicate (Z.to_nat k) lambda) c conv max_iter nb = Done (r, n)
    ∧ iterations_output plhs = Some (inject_Z n).
Proof.
  intros H. unfold MumfordShah_Segment in H.
  inv_bind H d Hd. inv_bind H img Himg. inv_bind H nb Hnb.
  cbv zeta in H. inv_bind H c Hc.
  inv_bind H rn Hrn. destruct rn as [r n]. cbv beta iota in H.
  inv_bind H out Hout. inv_bind H cv Hcv. injection H as <-.
  exists d, img, nb, c, r, n. repeat split; auto.
Qed.

(** [GcRoussonDeriche]. *)
Lemma RoussonDeriche_Segment_iterations N mx_in lambda conv max_iter str_nb
    str_mf log plhs :
  RoussonDeriche_Segment garbageQ garbageB RD_InitialEstimate RD_iteration
    RD_converged N mx_in lambda conv max_iter str_nb str_mf log = Done plhs →
  ∃ d img nb rdpar mf r n,
    float_data mx_in = Done d
    ∧ GetImage N id (mxGetDimensions mx_in) d garbageQ = Done img
    ∧ driver_neighbourhood N str_nb = Done nb
    ∧ RD_InitialEstimate img 50 = Done rdpar
    ∧ CreateGridMaxFlow str_mf false = Done mf
    ∧ RoussonDeriche_Compute garbageB RD_iteration RD_converged img lambda
        rdpar conv max_iter nb mf = Done (r, n)
    ∧ iterations_output plhs = Some (inject_Z n).
Proof.
  intros H. unfold RoussonDeriche_Segment in H.
  inv_bind H d Hd. inv_bind H img Himg. inv_bind H nb Hnb.
  inv_bind H rdpar Hpar. inv_bind H mf Hmf.
  inv_bind H rn Hrn. destruct rn as [r n]. cbv beta iota in H.
  inv_bind H out Hout. injection H as <-.
  exists d, img, nb, rdpar, mf, r, n. repeat split; auto.
Qed.


(** *** Fixed labels in the masked variant *)

Lemma count_unknown_snoc l m :
  count_unknown (l ++ [m])
  = count_unknown l + (if (m =? MaskUnknown)%Z then 1 else 0).
Proof.
  unfold count_unknown. rewrite filter_app, length_app. f_equal.
  rewrite filter_cons, filter_nil.
  destruct (Z.eqb_spec m MaskUnknown); case_decide; done.
Qed.

(** The loop of [Segment] that writes the final labels, lines 98-111. *)
Lemma labels_loop_spec (label : nat → Z) (msk iface lab0 : list Z) n :
  length msk = n → length iface = n → length lab0 = n →
  ∃ lab j,
    for_loop n
      (λ i '(lab, j),
         let* m := defined (msk !! i) in
         if (m =? MaskUnknown)%Z then Done (<[i:=label j]> lab, j + 1)
         else let* v := defined (iface !! i) in Done (<[i:=v]> lab, j))
      0 (lab0, 0) = Done (lab, j)
    ∧ length lab = n
    ∧ ∀ i m, msk !! i = Some m →
        lab !! i = if (m =? MaskUnknown)%Z
                   then Some (label (count_unknown (take i msk)))
                   else iface !! i.
Proof.
  intros Hm Hi Hl.
  destruct (for_loop_inv
    (λ k (s : list Z * nat),
       length s.1 = n ∧ s.2 = count_unknown (take k msk)
       ∧ ∀ i m, i < k → msk !! i = Some m →
           s.1 !! i = if (m =? MaskUnknown)%Z
                      then Some (label (count_unknown (take i msk)))
                      else iface !! i)
    n
    (λ i '(lab, j),
       let* m := defined (msk !! i) in
       if (m =? MaskUnknown)%Z then Done (<[i:=label j]> lab, j + 1)
       else let* v := defined (iface !! i) in Done (<[i:=v]> lab, j))
    0 (lab0, 0)) as ([lab j] & Hloop & Hlen & Hj & Hcells).
  { simpl. repeat split; auto. intros i m Hlt. lia. }
  { intros k [lab j] Hk (Hlen & Hj & Hcells). simpl in Hlen, Hj, Hcells.
    destruct (lookup_lt_is_Some_2 msk k) as [m Hmk]; [lia|].
    destruct (lookup_lt_is_Some_2 iface k) as [v Hvk]; [lia|].
    simpl. rewrite Hmk. simpl.
    destruct (m =? MaskUnknown)%Z eqn:E.
    - eexists. split; [done|]. simpl.
      split; [by rewrite length_insert|].
      split.
      { rewrite (take_S_r _ _ _ Hmk), count_unknown_snoc, E. lia. }
      intros i m' Hlt Hi'. destruct (decide (i = k)) as [->|Hne].
      + rewrite list_lookup_insert_eq by lia. simplify_eq. by rewrite E.
      + rewrite list_lookup_insert_ne by done. apply Hcells; [lia|done].
    - rewrite Hvk. simpl. eexists. split; [done|]. simpl.
      split; [by rewrite length_insert|].
      split.
      { rewrite (take_S_r _ _ _ Hmk), count_unknown_snoc, E. lia. }
      intros i m' Hlt Hi'. destruct (decide (i = k)) as [->|Hne].
      + rewrite list_lookup_insert_eq by lia. simplify_eq. by rewrite E.
      + rewrite list_lookup_insert_ne by done. apply Hcells; [lia|done]. }
  exists lab, j. split; [done|]. split; [done|].
  intros i m Him. apply Hcells; [|done].
  apply lookup_lt_Some in Him. lia.
Qed.

(** C7.  In the masked variant of [GcChanVeseLab], on an image, an initial
    labelling and a mask of the same sizes, whenever the driver returns:
    the label returned at a position whose mask value is not UNKNOWN is the
    initial label of that position, and the label returned at a position
    marked UNKNOWN is [mf.NodeLabel(j)] of the max-flow object, [j]
    counting the UNKNOWN cells before it in the order of the Gc array. *)
Theorem ChanVeseLab_masked_keeps_fixed_labels h w rest
    (img_data : list Q) (iface_data mask_data : list Z)
    l1 l2 c1 c2 conv max_iter str_nb log plhs :
  0 < h → 0 < w →
  length img_data = Elements (h :: w :: rest) →
  length iface_data = Elements (h :: w :: rest) →
  length mask_data = Elements (h :: w :: rest) →
  ChanVeseLab_Segment garbageQ garbageZ garbageB CV_iteration
    (2 + length rest)
    (MxArray (h :: w :: rest) (DoubleData img_data))
    (MxArray (h :: w :: rest) (Uint8Data iface_data))
    (Some (MxArray (h :: w :: rest) (Uint8Data mask_data)))
    l1 l2 c1 c2 conv max_iter str_nb log = Done plhs →
  ∃ out others img iface msk nb r n,
    plhs = MxArray (h :: w :: rest) (Uint8Data out) :: others
    ∧ length out = Elements (h :: w :: rest)
    ∧ (∀ k m, mask_data !! k = Some m → m ≠ MaskUnknown →
         out !! k = iface_data !! k)
    ∧ GetImage (2 + length rest) id (h :: w :: rest) mask_data garbageZ
      = Done msk
    ∧ ChanVese_Compute garbageZ garbageB CV_iteration img (Some msk) iface
        l1 l2 c1 c2 conv max_iter nb = Done (r, n)
    ∧ (∀ k, mask_data !! k = Some MaskUnknown →
         out !! k
         = Some (cv_label r (count_unknown (take (gc_index h w k) (Data msk))))).
Proof.
  intros Hh Hw Himg Hiface Hmask H.
  destruct (GetImage_index (@id Q) h w rest img_data garbageQ Hh Hw Himg)
    as (gimg & Hgi & Hgil & _).
  destruct (GetImage_index (@id Z) h w rest iface_data garbageZ Hh Hw Hiface)
    as (gif & Hgf & Hgfl & Hgfc).
  destruct (GetImage_index (@id Z) h w rest mask_data garbageZ Hh Hw Hmask)
    as (gmk & Hgm & Hgml & Hgmc).
  unfold ChanVeseLab_Segment in H.
  cbn [float_data uint8_data mxGetData mxGetDimensions bind] in H.
  rewrite Hgi, Hgf in H. cbn [bind Dimensions] in H.
  rewrite bool_decide_eq_true_2 in H by done.
  cbn [negb] in H. rewrite Hgm in H. cbn [bind Dimensions] in H.
  rewrite bool_decide_eq_true_2 in H by done.
  cbn [negb bind] in H.
  inv_bind H nb Hnb. inv_bind H rn Hrn. destruct rn as [r n].
  cbv beta iota zeta in H. cbn [Dimensions Data Resize] in H.
  assert (Hel : Elements (w :: h :: rest) = Elements (h :: w :: rest))
    by (rewrite !Elements_cons2; lia).
  destruct (labels_loop_spec (cv_label r) gmk gif
              (garbageZ <$> seq 0 (Elements (w :: h :: rest)))
              (Elements (w :: h :: rest)))
    as (lab & j & Hloop & Hlab & Hcells).
  { lia. } { lia. } { by rewrite length_fmap, length_seq. }
  rewrite Hloop in H. cbn [bind] in H. cbv beta iota in H.
  destruct (SetImage_index (@id Z) h w rest lab
              (replicate (Elements (h :: w :: rest)) 0%Z) Hh Hw Hlab)
    as (out & Hset & Hol & Hoc).
  { rewrite length_replicate. lia. }
  rewrite Hset in H. cbn [bind] in H. injection H as <-.
  eexists out, _, _, _, _, nb, r, n. split; [done|].
  split; [lia|]. split; [|split; [done|split; [done|]]].
  - intros k m Hk Hm.
    assert (Hkl : k < length lab)
      by (apply lookup_lt_Some in Hk; lia).
    rewrite Hoc by done. rewrite option_fmap_id.
    pose proof (Hgmc k ltac:(lia)) as Hmk.
    rewrite option_fmap_id, Hk in Hmk.
    rewrite (Hcells _ _ Hmk).
    apply Z.eqb_neq in Hm as ->.
    rewrite Hgfc by lia. by rewrite option_fmap_id.
  - intros k Hk.
    assert (Hkl : k < length lab)
      by (apply lookup_lt_Some in Hk; lia).
    rewrite Hoc by done. rewrite option_fmap_id.
    pose proof (Hgmc k ltac:(lia)) as Hmk.
    rewrite option_fmap_id, Hk in Hmk.
    by rewrite (Hcells _ _ Hmk).
Qed.

End IterationsOutput.

(** A run of the masked driver on a 2 x 2 image: the positions with mask
    values 1 and 2 keep the initial labels 5 and 7, the two unknown
    positions get the labels 7 and 8 of the nodes 0 and 1. *)
Lemma ChanVeseLab_masked_keeps_fixed_labels_witness :
  let gq := λ _ : nat, 0%Q in
  let gz := λ _ : nat, 0%Z in
  let gb := λ _ : nat, false in
  let plhs :=
    [MxArray [2; 2] (Uint8Data [5; 7; 7; 8]%Z); mxCreateDoubleScalar 1;
     mxCreateDoubleScalar 2; mxCreateDoubleScalar (1 # 4);
     mxCreateDoubleScalar 2] in
  0 < 2 ∧ 0 < 2
  ∧ length [0; 1; 0; 1]%Q = Elements [2; 2]
  ∧ length [5; 6; 7; 8]%Z = Elements [2; 2]
  ∧ length [1; 3; 2; 3]%Z = Elements [2; 2]
  ∧ ChanVeseLab_Segment gq gz gb halving_iteration 2
      (MxArray [2; 2] (DoubleData [0; 1; 0; 1]%Q))
      (MxArray [2; 2] (Uint8Data [5; 6; 7; 8]%Z))
      (Some (MxArray [2; 2] (Uint8Data [1; 3; 2; 3]%Z)))
      10 10 1 2 (1 # 4) 5 "N4" false = Done plhs
  ∧ ∃ out others img iface msk nb r n,
      plhs = MxArray [2; 2] (Uint8Data out) :: others
      ∧ length out = Elements [2; 2]
      ∧ (∀ k m, [1; 3; 2; 3]%Z !! k = Some m → m ≠ MaskUnknown →
           out !! k = [5; 6; 7; 8]%Z !! k)
      ∧ GetImage 2 id [2; 2] [1; 3; 2; 3]%Z gz = Done msk
      ∧ ChanVese_Compute gz gb halving_iteration img (Some msk) iface
          10 10 1 2 (1 # 4) 5 nb = Done (r, n)
      ∧ (∀ k, [1; 3; 2; 3]%Z !! k = Some MaskUnknown →
           out !! k
           = Some (cv_label r (count_unknown (take (gc_index 2 2 k) (Data msk))))).
Proof.
  intros gq gz gb plhs.
  split; [lia|]. split; [lia|]. split; [reflexivity|]. split; [reflexivity|].
  split; [reflexivity|]. split; [vm_compute; reflexivity|].
  apply (ChanVeseLab_masked_keeps_fixed_labels gq gz gb halving_iteration
           2 2 [] [0; 1; 0; 1]%Q [5; 6; 7; 8]%Z [1; 3; 2; 3]%Z
           10 10 1 2 (1 # 4) 5 "N4" false plhs);
    [lia|lia|reflexivity|reflexivity|reflexivity|vm_compute; reflexivity].
Defined.

(** The same run reports 2 iterations for a bound of 5: the test succeeds
    after the second one. *)
Example ChanVeseLab_reports_two_iterations :
  (let* plhs :=
     ChanVeseLab_Segment (λ _, 0%Q) (λ _, 0%Z) (λ _, false) halving_iteration
       2 (MxArray [2; 2] (DoubleData [0; 1; 0; 1]%Q))
       (MxArray [2; 2] (Uint8Data [5; 6; 7; 8]%Z))
       (Some (MxArray [2; 2] (Uint8Data [1; 3; 2; 3]%Z)))
       10 10 1 2 (1 # 4) 5 "N4" false in
   Done (iterations_output plhs))
  = Done (Some 2%Q).
Proof. vm_compute. reflexivity. Qed.

(** *** More on [GetImage] and [SetImage] *)

(** The decomposition of a position of the Gc image. *)
Lemma gc_position_split h w n j :
  0 < h → 0 < w → j < n * (w * h) →
  ∃ i x y, i < n ∧ x < w ∧ y < h ∧ j = i * (w * h) + x + y * w.
Proof.
  intros Hh Hw Hj.
  set (i := j / (w * h)). set (r := j mod (w * h)).
  set (y := r / w). set (x := r mod w).
  assert (Hjr : j = i * (w * h) + r)
    by (unfold i, r; pose proof (Nat.div_mod_eq j (w * h)); lia).
  assert (Hrxy : r = y * w + x)
    by (unfold x, y; pose proof (Nat.div_mod_eq r w); lia).
  assert (Hr : r < w * h) by (unfold r; apply Nat.mod_upper_bound; nia).
  assert (Hx : x < w) by (unfold x; apply Nat.mod_upper_bound; lia).
  assert (Hy : y < h) by (unfold y; apply Nat.Div0.div_lt_upper_bound; lia).
  assert (Hi : i < n) by (unfold i; apply Nat.Div0.div_lt_upper_bound; lia).
  exists i, x, y. repeat split; auto; lia.
Qed.

(** X5.  The round trip in the other direction: an image of sizes
    [w :: h :: rest] with at least one row and one column, written by
    [SetImage] to an mxArray of sizes [h :: w :: rest] and read back by
    [GetImage], comes back as it was, sizes and elements, for element
    conversions that compose to the identity; what the mxArray and the new
    image held before does not matter. *)
Theorem GetImage_SetImage_identity {GC MX : Type}
    (to_gc : MX → GC) (to_mx : GC → MX) h w rest
    (data : list GC) (mx_out : list MX) garbage :
  (∀ v, to_gc (to_mx v) = v) →
  0 < h → 0 < w →
  length data = Elements (w :: h :: rest) →
  length mx_out = length data →
  ∃ out, SetImage to_mx (MkArray (w :: h :: rest) data) mx_out = Done out
    ∧ length out = length data
    ∧ GetImage (2 + length rest) to_gc (h :: w :: rest) out garbage
      = Done (MkArray (w :: h :: rest) data).
Proof.
  intros Hcast Hh Hw Hlen Hout.
  destruct (SetImage_spec to_mx h w rest data mx_out Hh Hw Hlen Hout)
    as (out & Hset & Hlo & Hcells).
  exists out. split; [done|]. split; [lia|].
  assert (Hlen' : length out = Elements (h :: w :: rest)).
  { rewrite Hlo, Hout, Hlen, !Elements_cons2. lia. }
  destruct (GetImage_spec to_gc h w rest out garbage Hh Hw Hlen')
    as ([dims data'] & Hget & Hdims & Hdata & Hcells').
  cbn [Dimensions Data] in *. subst dims. rewrite Hget. do 2 f_equal.
  apply list_eq. intros j.
  destruct (decide (j < length data)) as [Hj|Hj].
  2:{ rewrite !lookup_ge_None_2; [done|lia|lia]. }
  rewrite Elements_cons2 in Hlen.
  destruct (gc_position_split h w (Elements rest) j Hh Hw) as
    (i & x & y & Hi & Hx & Hy & ->); [lia|].
  rewrite (Hcells' i x y Hi Hx Hy).
  replace (i * (w * h) + x * h + y) with (i * (h * w) + y + x * h) by lia.
  rewrite (Hcells i x y Hi Hx Hy).
  replace (i * (h * w) + y * w + x) with (i * (w * h) + x + y * w) by lia.
  destruct (data !! _); simpl; by rewrite ?Hcast.
Qed.

(** A segmentation of 3 columns and 2 rows written over zeros and read
    back. *)
Lemma GetImage_SetImage_identity_witness :
  (∀ v : Z, id (id v) = v)
  ∧ 0 < 2 ∧ 0 < 3
  ∧ length [1; 3; 5; 2; 4; 6]%Z = Elements [3; 2]
  ∧ length [0; 0; 0; 0; 0; 0]%Z = length [1; 3; 5; 2; 4; 6]%Z
  ∧ ∃ out, SetImage id (MkArray [3; 2] [1; 3; 5; 2; 4; 6]%Z)
             [0; 0; 0; 0; 0; 0]%Z = Done out
      ∧ length out = length [1; 3; 5; 2; 4; 6]%Z
      ∧ GetImage 2 id [2; 3] out (λ _, 0%Z)
        = Done (MkArray [3; 2] [1; 3; 5; 2; 4; 6]%Z).
Proof.
  split; [done|]. split; [lia|]. split; [lia|]. split; [reflexivity|].
  split; [reflexivity|].
  apply (GetImage_SetImage_identity (GC:=Z) (MX:=Z) id id 2 3 []
           [1; 3; 5; 2; 4; 6]%Z [0; 0; 0; 0; 0; 0]%Z (λ _, 0%Z));
    [done|lia|lia|reflexivity|reflexivity].
Defined.

(** X6.  An array without rows or without columns: both functions compute
    [Elements() / slice_sz] with [slice_sz = 0] before they look at any
    element, whatever the other sizes and the data are.  Neither function
    tests for it. *)
Theorem GetImage_SetImage_empty_undefined {GC MX : Type}
    (to_gc : MX → GC) (to_mx : GC → MX) h w rest
    (mx_data mx_out : list MX) (data : list GC) garbage :
  h = 0 ∨ w = 0 →
  GetImage (2 + length rest) to_gc (h :: w :: rest) mx_data garbage = Undefined
  ∧ SetImage to_mx (MkArray (w :: h :: rest) data) mx_out = Undefined.
Proof.
  intros H0. assert (Hz : w * h = 0) by (destruct H0; subst; lia).
  split.
  - unfold GetImage. simpl. rewrite Nat.sub_0_r.
    rewrite (dims_loop (h :: w :: rest) (length rest) 2 []) by (simpl; lia).
    simpl. by rewrite Hz.
  - unfold SetImage. simpl. by rewrite Hz.
Qed.

Lemma GetImage_SetImage_empty_undefined_witness :
  (0 = 0 ∨ 3 = 0)
  ∧ GetImage (2 + length [2]) id [0; 3; 2] ([] : list Z) (λ _, 0%Z) = Undefined
  ∧ SetImage id (MkArray [3; 0; 2] ([] : list Z)) ([] : list Z) = Undefined.
Proof.
  split; [by left|].
  apply (GetImage_SetImage_empty_undefined (GC:=Z) (MX:=Z) id id 0 3 [2]
           [] [] [] (λ _, 0%Z)).
  by left.
Defined.

(** *** The factories of [GcMatlabTools.h] *)

Lemma CreateNeighbourhood_Done_inv N s nb :
  CreateNeighbourhood N s = Done nb → supported N s.
Proof.
  unfold supported. intros H.
  destruct (CreateNeighbourhood_accepts_exactly s) as (H2 & H3 & _).
  unfold CreateNeighbourhood in H.
  destruct (Nat.eqb_spec N 2) as [->|N2].
  - left. split; [done|]. apply H2. by exists nb.
  - destruct (Nat.eqb_spec N 3) as [->|N3].
    + right. split; [done|]. apply H3. by exists nb.
    + simpl in H. discriminate.
Qed.

(** X7.  [CreateNeighbourhood<N>] builds a neighbourhood for N4, N8, N16
    and N32 when [N] is 2 and for N6, N18, N26 and N98 when [N] is 3; every
    other string, a symbol of the other dimensionality included, and every
    other [N] end in the error "Unsupported neighbourhood type for given
    image dimensionality." *)
Theorem CreateNeighbourhood_supported_symbols N (s : string) :
  (supported N s → ∃ nb, CreateNeighbourhood N s = Done nb)
  ∧ (¬ supported N s → CreateNeighbourhood N s = MexError
       "Unsupported neighbourhood type for given image dimensionality.")
  ∧ (∀ nb, CreateNeighbourhood N s = Done nb → supported N s).
Proof.
  destruct (CreateNeighbourhood_accepts_exactly s) as (H2 & H3 & E2 & E3).
  split; [|split].
  - intros [[-> Hs]|[-> Hs]]; [by apply H2|by apply H3].
  - intros Hn. destruct (Nat.eqb_spec N 2) as [->|N2].
    + apply E2. intros Hs. apply Hn. by left.
    + destruct (Nat.eqb_spec N 3) as [->|N3].
      * apply E3. intros Hs. apply Hn. by right.
      * unfold CreateNeighbourhood.
        apply Nat.eqb_neq in N2 as ->. apply Nat.eqb_neq in N3 as ->. done.
  - apply CreateNeighbourhood_Done_inv.
Qed.

(** X8.  The two ways the drivers build a neighbourhood agree on the size
    wherever [CreateNeighbourhood] calls [Common]: for such a symbol the
    drivers that call the constructor pass it the same size, one of 4, 8,
    16, 32, 6, 18 and 26.  They part on N98, where [CreateNeighbourhood]
    builds a box of half-width 2 and those drivers pass 98 to the
    constructor. *)
Theorem driver_neighbourhood_against_CreateNeighbourhood N (s : string) nb :
  CreateNeighbourhood N s = Done nb →
  (∃ sz, nb = Common N sz false
      ∧ driver_neighbourhood N s = Done (Ctor N sz false)
      ∧ sz ∈ [4; 8; 16; 32; 6; 18; 26]%Z)
  ∨ (s = "N98" ∧ N = 3 ∧ nb = Box 3 [2; 2; 2]%Z true false
     ∧ driver_neighbourhood N s = Done (Ctor N 98 false)).
Proof.
  intros H. pose proof (CreateNeighbourhood_Done_inv N s nb H) as Hs.
  unfold supported, symbols_2d, symbols_3d in Hs.
  destruct Hs as [[-> Hs]|[-> Hs]];
    repeat (apply elem_of_cons in Hs as [->|Hs];
            [vm_compute in H; injection H as <-;
             first [ by right
                   | left; eexists; split; [reflexivity|];
                     split; [reflexivity|]; in_list ]|]);
    by apply elem_of_nil in Hs.
Qed.

Lemma driver_neighbourhood_against_CreateNeighbourhood_witness :
  CreateNeighbourhood 3 "N26" = Done (Common 3 26 false)
  ∧ ((∃ sz, Common 3 26 false = Common 3 sz false
        ∧ driver_neighbourhood 3 "N26" = Done (Ctor 3 sz false)
        ∧ sz ∈ [4; 8; 16; 32; 6; 18; 26]%Z)
     ∨ ("N26" = "N98" ∧ 3 = 3 ∧ Common 3 26 false = Box 3 [2; 2; 2]%Z true false
        ∧ driver_neighbourhood 3 "N26" = Done (Ctor 3 98 false))).
Proof.
  split; [reflexivity|].
  apply (driver_neighbourhood_against_CreateNeighbourhood 3 "N26"
           (Common 3 26 false)).
  reflexivity.
Defined.

Ltac by_name H :=
  repeat (apply elem_of_cons in H as [->|H]; [by eexists|]);
  by apply elem_of_nil in H.

Ltac known_name E :=
  apply streq_eq in E as ->; first [by eexists | in_list].

Lemma CreateGridMaxFlow_Done_inv name mask mf :
  CreateGridMaxFlow name mask = Done mf →
  name ∈ grid_names
  ∧ (mf = Kohli mask ∨ mf = PushRelabelFifo mask
     ∨ mf = PushRelabelHighestLevel mask).
Proof.
  unfold CreateGridMaxFlow, grid_names. intros H.
  destruct (streq name "GRD-KO") eqn:E1;
    [apply streq_eq in E1 as ->; simplify_eq; split; [in_list|auto]|].
  destruct (streq name "GRD-PRF") eqn:E2;
    [apply streq_eq in E2 as ->; simplify_eq; split; [in_list|auto]|].
  destruct (streq name "GRD-PRH") eqn:E3;
    [apply streq_eq in E3 as ->; simplify_eq; split; [in_list|auto]|].
  discriminate.
Qed.

Lemma CreateGridMaxFlow_unknown name mask :
  name ∉ grid_names →
  CreateGridMaxFlow name mask = MexError "Unknown grid max-flow algorithm.".
Proof.
  unfold CreateGridMaxFlow, grid_names. intros Hn.
  destruct (streq name "GRD-KO") eqn:E1;
    [exfalso; apply Hn; known_name E1|].
  destruct (streq name "GRD-PRF") eqn:E2;
    [exfalso; apply Hn; known_name E2|].
  destruct (streq name "GRD-PRH") eqn:E3;
    [exfalso; apply Hn; known_name E3|].
  done.
Qed.

Lemma CreateGeneralMaxFlow_Done_inv name mf :
  CreateGeneralMaxFlow name = Done mf → name ∈ general_names.
Proof.
  unfold CreateGeneralMaxFlow, general_names. intros H.
  destruct (streq name "GEN-FF") eqn:E1; [known_name E1|].
  destruct (streq name "GEN-EK") eqn:E2; [known_name E2|].
  destruct (streq name "GEN-DI") eqn:E3; [known_name E3|].
  destruct (streq name "GEN-BK") eqn:E4; [known_name E4|].
  destruct (streq name "GEN-KO") eqn:E5; [known_name E5|].
  destruct (streq name "GEN-PRF") eqn:E6; [known_name E6|].
  destruct (streq name "GEN-PRH") eqn:E7; [known_name E7|].
  discriminate.
Qed.

Lemma CreateGeneralMaxFlow_unknown name :
  name ∉ general_names →
  CreateGeneralMaxFlow name = MexError "Unknown general max-flow algorithm.".
Proof.
  unfold CreateGeneralMaxFlow, general_names. intros Hn.
  destruct (streq name "GEN-FF") eqn:E1; [exfalso; apply Hn; known_name E1|].
  destruct (streq name "GEN-EK") eqn:E2; [exfalso; apply Hn; known_name E2|].
  destruct (streq name "GEN-DI") eqn:E3; [exfalso; apply Hn; known_name E3|].
  destruct (streq name "GEN-BK") eqn:E4; [exfalso; apply Hn; known_name E4|].
  destruct (streq name "GEN-KO") eqn:E5; [exfalso; apply Hn; known_name E5|].
  destruct (streq name "GEN-PRF") eqn:E6; [exfalso; apply Hn; known_name E6|].
  destruct (streq name "GEN-PRH") eqn:E7; [exfalso; apply Hn; known_name E7|].
  done.
Qed.

(** X9.  The two max-flow factories: [CreateGridMaxFlow] knows GRD-KO,
    GRD-PRF and GRD-PRH and hands its [mask] flag to the object it builds,
    [CreateGeneralMaxFlow] knows GEN-FF, GEN-EK, GEN-DI, GEN-BK, GEN-KO,
    GEN-PRF and GEN-PRH; on every other name, a name of the other factory
    included, each raises its "Unknown ... max-flow algorithm." error. *)
Theorem max_flow_factories_known_names (name : string) (mask : bool) :
  ((∃ mf, CreateGridMaxFlow name mask = Done mf) ↔ name ∈ grid_names)
  ∧ (name ∉ grid_names →
     CreateGridMaxFlow name mask = MexError "Unknown grid max-flow algorithm.")
  ∧ (∀ mf, CreateGridMaxFlow name mask = Done mf →
       mf = Kohli mask ∨ mf = PushRelabelFifo mask
       ∨ mf = PushRelabelHighestLevel mask)
  ∧ ((∃ mf, CreateGeneralMaxFlow name = Done mf) ↔ name ∈ general_names)
  ∧ (name ∉ general_names →
     CreateGeneralMaxFlow name
     = MexError "Unknown general max-flow algorithm.")
  ∧ (name ∈ grid_names → name ∉ general_names).
Proof.
  split; [|split; [|split; [|split; [|split]]]].
  - split.
    + intros [mf H]. by apply CreateGridMaxFlow_Done_inv in H as [H _].
    + intros H. unfold grid_names in H. by_name H.
  - apply CreateGridMaxFlow_unknown.
  - intros mf H. by apply CreateGridMaxFlow_Done_inv in H as [_ H].
  - split.
    + intros [mf H]. by apply CreateGeneralMaxFlow_Done_inv in H.
    + intros H. unfold general_names in H. by_name H.
  - apply CreateGeneralMaxFlow_unknown.
  - unfold grid_names, general_names. intros H1 H2.
    repeat (apply elem_of_cons in H1 as [->|H1]; [not_in_list H2|]).
    by apply elem_of_nil in H1.
Qed.

(** *** What the checks of the mex functions guarantee *)

Lemma catch_exception_Done_inv {X : Type} (m : outcome X) y :
  catch_exception m = Done y → m = Done y.
Proof. by destruct m. Qed.

(** A property that every pass of a loop keeps holds when the loop
    returns. *)
Lemma for_loop_post {S : Type} (P : nat → S → Prop) n :
  ∀ (body : nat → S → outcome S) i0 s s',
  P i0 s →
  (∀ i s s', P i s → body i s = Done s' → P (Datatypes.S i) s') →
  for_loop n body i0 s = Done s' → P (i0 + n) s'.
Proof.
  induction n as [|n IH]; intros body i0 s s' H0 Hstep H; simpl in H.
  - simplify_eq. by rewrite Nat.add_0_r.
  - inv_bind H s1 Hs1.
    replace (i0 + Datatypes.S n) with (Datatypes.S i0 + n) by lia.
    eapply IH; [|done|done]. by eapply Hstep.
Qed.

Lemma dims_loop_inv (mx_dim : list nat) n : ∀ k acc r,
  for_loop n (λ i dims, let* d := defined (mx_dim !! i) in Done (dims ++ [d]))
           k acc = Done r →
  r = acc ++ take n (drop k mx_dim) ∧ length r = length acc + n.
Proof.
  induction n as [|n IH]; intros k acc r H; simpl in H.
  - simplify_eq. rewrite app_nil_r. split; [done|lia].
  - destruct (mx_dim !! k) as [d|] eqn:Hd; [|done]. simpl in H.
    apply IH in H as [Hr Hl]. rewrite length_app in Hl. simpl in Hl.
    rewrite (drop_S _ _ _ Hd). simpl. rewrite <-app_assoc in Hr.
    split; [done|lia].
Qed.

(** When [GetImage<N>] returns on an mxArray with [N] axes, the array has
    at least one row and one column and the image has its sizes, X and Y
    swapped. *)
Lemma GetImage_Done_inv {GC MX : Type} (cast : MX → GC) N mx_dim
    (mx_data : list MX) garbage img :
  length mx_dim = N →
  GetImage N cast mx_dim mx_data garbage = Done img →
  ∃ h w rest, mx_dim = h :: w :: rest ∧ 0 < h ∧ 0 < w
    ∧ Dimensions img = w :: h :: rest.
Proof.
  intros HN H. unfold GetImage in H.
  inv_bind H d0 Hd0. inv_bind H d1 Hd1. inv_bind H rest Hrest.
  cbv zeta in H. inv_bind H dwx Hdwx. inv_bind H c Hc. simplify_eq.
  destruct mx_dim as [|h [|w tl]]; simpl in *; simplify_eq.
  apply dims_loop_inv in Hrest as [-> Hl]. simpl in *.
  rewrite Nat.sub_0_r, drop_0, take_ge by lia.
  destruct (Nat.eqb_spec (d0 * d1) 0) as [E|E]; [done|].
  exists d1, d0, tl. repeat split; auto; nia.
Qed.

Lemma image_sizes_ok_intro (p0 : mxArray) h w rest :
  (mxGetNumberOfDimensions p0 =? 2) || (mxGetNumberOfDimensions p0 =? 3) = true →
  mxGetDimensions p0 = h :: w :: rest → 0 < h → 0 < w →
  image_sizes_ok p0.
Proof.
  intros Ed Hdi Hh Hw. exists h, w, rest. repeat split; auto.
  unfold mxGetNumberOfDimensions in Ed. rewrite Hdi in Ed. simpl in Ed.
  apply orb_true_iff in Ed as [Ed|Ed]; apply Nat.eqb_eq in Ed; lia.
Qed.

Lemma bind_not_Throw {X Y : Type} (m : outcome X) (k : X → outcome Y) msg :
  m ≠ Throw msg → (∀ x, k x ≠ Throw msg) → bind m k ≠ Throw msg.
Proof. destruct m; simpl; auto; congruence. Qed.

Lemma catch_exception_not_Throw {X : Type} (m : outcome X) msg :
  catch_exception m ≠ Throw msg.
Proof. by destruct m. Qed.

Lemma defined_not_Throw {X : Type} (o : option X) msg :
  defined o ≠ Throw msg.
Proof. by destruct o. Qed.

Lemma GetNumber_not_Throw prhs idx msg : GetNumber prhs idx ≠ Throw msg.
Proof.
  unfold GetNumber. apply bind_not_Throw; [apply defined_not_Throw|].
  intros a. destruct (mxGetData a); try done; apply defined_not_Throw.
Qed.

Lemma GetString_not_Throw prhs idx n msg : GetString prhs idx n ≠ Throw msg.
Proof.
  unfold GetString. apply bind_not_Throw; [apply defined_not_Throw|].
  intros a. by destruct (mxGetData a).
Qed.

Lemma GetLogical_not_Throw prhs idx msg : GetLogical prhs idx ≠ Throw msg.
Proof.
  unfold GetLogical. apply bind_not_Throw; [apply defined_not_Throw|].
  intros a. by destruct (mxGetData a) as [| | |[|b [|]]|].
Qed.

Ltac not_throw :=
  lazymatch goal with
  | |- (if ?b then _ else _) ≠ Throw _ => destruct b; not_throw
  | |- bind _ _ ≠ Throw _ =>
      apply bind_not_Throw; [not_throw|intros ?; cbv beta iota zeta; not_throw]
  | |- catch_exception _ ≠ Throw _ => apply catch_exception_not_Throw
  | |- GetNumber _ _ ≠ Throw _ => apply GetNumber_not_Throw
  | |- GetString _ _ _ ≠ Throw _ => apply GetString_not_Throw
  | |- GetLogical _ _ ≠ Throw _ => apply GetLogical_not_Throw
  | |- defined _ ≠ Throw _ => apply defined_not_Throw
  | |- _ => discriminate
  end.

Section DriversValid.
Variable oor : Q → Z.
Variables (garbageQ : nat → Q) (garbageZ : nat → Z) (garbageB : nat → bool).
Variable CV_iteration :
  Array Q → option (Array Z) → Array Z → Q → Q → Neighbourhood →
  CVState → outcome CVState.
Variable Lloyd : Array Q → Z → list Q → Q → Z → outcome (list Q).
Variable MS_iteration :
  Array Q → Z → list Q → Neighbourhood → MSState → outcome MSState.
Variable RD_InitialEstimate : Array Q → Z → outcome RDParams.
Variable RD_iteration :
  Array Q → Q → Neighbourhood → GridMaxFlow → RDState → outcome RDState.
Variable RD_converged : Q → RDState → RDState → bool.
Variable ChanVeseTp_Compute :
  Array Q → option (Array Z) → Array bool → Q → Q → Q → Q → Q → Z →
  Neighbourhood → outcome (Q * Array bool * Q * Q * Z).
Variable CityBlock_bool : Array bool → bool → outcome (Array Z).
Variable ChessBoard_bool : Array bool → bool → outcome (Array Z).
Variable CityBlock_uint8 : Array Z → Z → outcome (Array Z).
Variable ChessBoard_uint8 : Array Z → Z → outcome (Array Z).





(** X14.  [GcDistTransform] returns a distance map only for a call with
    three arguments and one output, a metric that is "cityblock" or
    "chessboard", an image of class logical or uint8 with two or three axes
    and no empty row or column, and a zero value of the class of the image;
    the map returned has the sizes of the image. *)
Theorem DistTransform_mexFunction_Done_valid nlhs prhs dims out :
  DistTransform_mexFunction garbageZ garbageB CityBlock_bool ChessBoard_bool
    CityBlock_uint8 ChessBoard_uint8 nlhs prhs = Done (dims, out) →
  DistTransform_accepted nlhs prhs dims.
Proof.
  intros H. unfold DistTransform_mexFunction in H.
  destruct (Nat.eqb_spec (length prhs) 3) as [En|?]; [|done].
  destruct (Nat.eqb_spec nlhs 1) as [->|?]; [|done]. simpl in H.
  inv_bind H metric Hmetric. inv_bind H p0 Hp0. inv_bind H p1 Hp1.
  cbv zeta in H.
  destruct (prhs !! 0) as [p0'|] eqn:E0; [|done].
  destruct (prhs !! 1) as [p1'|] eqn:E1; [|done].
  simpl in Hp0, Hp1. simplify_eq.
  apply catch_exception_Done_inv in H.
  destruct ((mxGetNumberOfDimensions p0 =? 2) || (mxGetNumberOfDimensions p0 =? 3))
    eqn:Ed; [|done].
  assert (Hcore : ∀ (T : Type) CB ChB (g : nat → T) (img z : list T),
    DistTransform (mxGetNumberOfDimensions p0) CB ChB g (mxGetDimensions p0)
      img z metric = Done (dims, out) →
    (metric = "cityblock" ∨ metric = "chessboard")
    ∧ image_sizes_ok p0 ∧ dims = mxGetDimensions p0).
  { intros T CB ChB g img z HD. unfold DistTransform in HD.
    inv_bind HD im Him. inv_bind HD zv Hzv. inv_bind HD dmap Hdmap.
    inv_bind HD o Ho. simplify_eq.
    apply GetImage_Done_inv in Him as (h & w & rest & Hdi & Hh & Hw & Hdimg);
      [|done].
    split; [|split; [by eapply image_sizes_ok_intro|done]].
    destruct (streq metric "cityblock") eqn:M1;
      [left; by apply streq_eq|].
    destruct (streq metric "chessboard") eqn:M2;
      [right; by apply streq_eq|done]. }
  split; [done|]. split; [done|]. exists p0, p1, metric.
  split; [done|]. split; [done|]. split; [done|].
  unfold mxIsLogical, mxIsUint8.
  destruct (mxGetData p0) as [| |img|img|]; try done;
    destruct (mxGetData p1) as [| |z|z|]; try done;
    apply Hcore in H as (Hm & Hd & Hs); auto.
Qed.

(** X15.  No mex entry point lets a [Gc::System::Exception] out: whatever
    the arguments are and whatever the library functions called inside the
    [try] block do, the outcome of [mexFunction] is never an exception on
    its way to MATLAB; the [catch] turns it into a [mexErrMsgTxt], and the
    code in front of the [try] raises nothing but [mexErrMsgTxt]. *)
Theorem mexFunctions_catch_exceptions nlhs prhs msg :
  ChanVeseLab_mexFunction oor garbageQ garbageZ garbageB CV_iteration nlhs prhs
    ≠ Throw msg
  ∧ ChanVeseTp_mexFunction oor garbageQ garbageZ garbageB ChanVeseTp_Compute
      nlhs prhs ≠ Throw msg
  ∧ MumfordShah_mexFunction oor garbageQ garbageZ Lloyd MS_iteration nlhs prhs
      ≠ Throw msg
  ∧ RoussonDeriche_mexFunction oor garbageQ garbageB RD_InitialEstimate
      RD_iteration RD_converged nlhs prhs ≠ Throw msg
  ∧ DistTransform_mexFunction garbageZ garbageB CityBlock_bool ChessBoard_bool
      CityBlock_uint8 ChessBoard_uint8 nlhs prhs ≠ Throw msg.
Proof.
  repeat split.
  - unfold ChanVeseLab_mexFunction. cbv zeta. not_throw.
  - unfold ChanVeseTp_mexFunction. cbv zeta. not_throw.
  - unfold MumfordShah_mexFunction. cbv zeta. not_throw.
  - unfold RoussonDeriche_mexFunction. cbv zeta. not_throw.
  - unfold DistTransform_mexFunction. cbv zeta. not_throw.
Qed.

End DriversValid.

(** The loop of [Segment] that reads the labels of all nodes, lines
    81-85 of [GcChanVeseLab.cpp]. *)
Lemma all_labels_loop_spec (label : nat → Z) (lab0 : list Z) n :
  length lab0 = n →
  ∃ lab j,
    for_loop n (λ i '(lab, j), Done (<[i:=label i]> lab, j)) 0 (lab0, 0)
    = Done (lab, j)
    ∧ length lab = n
    ∧ ∀ i, i < n → lab !! i = Some (label i).
Proof.
  intros Hl.
  destruct (for_loop_inv
    (λ k (s : list Z * nat),
       length s.1 = n ∧ ∀ i, i < k → s.1 !! i = Some (label i))
    n (λ i '(lab, j), Done (<[i:=label i]> lab, j)) 0 (lab0, 0))
    as ([lab j] & Hloop & Hlen & Hcells).
  { simpl. split; [done|]. intros i Hi. lia. }
  { intros k [lab j] Hk [Hlen Hcells]. simpl in Hlen, Hcells.
    eexists. split; [done|]. simpl. split; [by rewrite length_insert|].
    intros i Hi. destruct (decide (i = k)) as [->|Hne].
    - by rewrite list_lookup_insert_eq by lia.
    - rewrite list_lookup_insert_ne by done. apply Hcells. lia. }
  by exists lab, j.
Qed.

Section Unmasked.
Variables (garbageQ : nat → Q) (garbageZ : nat → Z) (garbageB : nat → bool).
Variable CV_iteration :
  Array Q → option (Array Z) → Array Z → Q → Q → Neighbourhood →
  CVState → outcome CVState.

(** X16.  The variant of [GcChanVeseLab] without a mask, on an image and
    an initial labelling of the same sizes, whenever the driver returns:
    every label returned is [mf.NodeLabel(i)] of the max-flow object, [i]
    being the position of the pixel in the Gc array, X before Y; the
    initial labelling reaches the output through the max-flow object
    only. *)
Theorem ChanVeseLab_unmasked_labels h w rest
    (img_data : list Q) (iface_data : list Z)
    l1 l2 c1 c2 conv max_iter str_nb log plhs :
  0 < h → 0 < w →
  length img_data = Elements (h :: w :: rest) →
  length iface_data = Elements (h :: w :: rest) →
  ChanVeseLab_Segment garbageQ garbageZ garbageB CV_iteration
    (2 + length rest)
    (MxArray (h :: w :: rest) (DoubleData img_data))
    (MxArray (h :: w :: rest) (Uint8Data iface_data))
    None l1 l2 c1 c2 conv max_iter str_nb log = Done plhs →
  ∃ out others img iface nb r n,
    plhs = MxArray (h :: w :: rest) (Uint8Data out) :: others
    ∧ length out = Elements (h :: w :: rest)
    ∧ ChanVese_Compute garbageZ garbageB CV_iteration img None iface
        l1 l2 c1 c2 conv max_iter nb = Done (r, n)
    ∧ ∀ k, k < Elements (h :: w :: rest) →
        out !! k = Some (cv_label r (gc_index h w k)).
Proof.
  intros Hh Hw Himg Hiface H.
  destruct (GetImage_index (@id Q) h w rest img_data garbageQ Hh Hw Himg)
    as (gimg & Hgi & Hgil & _).
  destruct (GetImage_index (@id Z) h w rest iface_data garbageZ Hh Hw Hiface)
    as (gif & Hgf & Hgfl & Hgfc).
  unfold ChanVeseLab_Segment in H.
  cbn [float_data uint8_data mxGetData mxGetDimensions bind] in H.
  rewrite Hgi, Hgf in H. cbn [bind Dimensions] in H.
  rewrite bool_decide_eq_true_2 in H by done.
  cbn [negb bind] in H.
  inv_bind H nb Hnb. inv_bind H rn Hrn. destruct rn as [r n].
  cbv beta iota zeta in H. cbn [Dimensions Data Resize] in H.
  assert (Hel : Elements (w :: h :: rest) = Elements (h :: w :: rest))
    by (rewrite !Elements_cons2; lia).
  destruct (all_labels_loop_spec (cv_label r)
              (garbageZ <$> seq 0 (Elements (w :: h :: rest)))
              (Elements (w :: h :: rest)))
    as (lab & j & Hloop & Hlab & Hcells).
  { by rewrite length_fmap, length_seq. }
  rewrite Hloop in H. cbn [bind] in H. cbv beta iota in H.
  destruct (SetImage_index (@id Z) h w rest lab
              (replicate (Elements (h :: w :: rest)) 0%Z) Hh Hw Hlab)
    as (out & Hset & Hol & Hoc).
  { rewrite length_replicate. lia. }
  rewrite Hset in H. cbn [bind] in H. injection H as <-.
  eexists out, _, _, _, nb, r, n. split; [done|].
  split; [lia|]. split; [done|].
  intros k Hk. rewrite Hoc by lia. rewrite option_fmap_id.
  apply Hcells. rewrite Hel, Elements_cons2.
  apply gc_index_lt; [done|done|]. rewrite Elements_cons2 in Hk. lia.
Qed.

End Unmasked.

(** The driver without a mask on a 2 x 2 image: the node labels 7, 8, 9,
    10 of the Gc array come back in MATLAB's order. *)
Lemma ChanVeseLab_unmasked_labels_witness :
  let gq := λ _ : nat, 0%Q in
  let gz := λ _ : nat, 0%Z in
  let gb := λ _ : nat, false in
  let plhs :=
    [MxArray [2; 2] (Uint8Data [7; 9; 8; 10]%Z); mxCreateDoubleScalar 1;
     mxCreateDoubleScalar 2; mxCreateDoubleScalar (1 # 4);
     mxCreateDoubleScalar 2] in
  0 < 2 ∧ 0 < 2
  ∧ length [0; 1; 0; 1]%Q = Elements [2; 2]
  ∧ length [5; 6; 7; 8]%Z = Elements [2; 2]
  ∧ ChanVeseLab_Segment gq gz gb halving_iteration 2
      (MxArray [2; 2] (DoubleData [0; 1; 0; 1]%Q))
      (MxArray [2; 2] (Uint8Data [5; 6; 7; 8]%Z))
      None 10 10 1 2 (1 # 4) 5 "N4" false = Done plhs
  ∧ ∃ out others img iface nb r n,
      plhs = MxArray [2; 2] (Uint8Data out) :: others
      ∧ length out = Elements [2; 2]
      ∧ ChanVese_Compute gz gb halving_iteration img None iface
          10 10 1 2 (1 # 4) 5 nb = Done (r, n)
      ∧ ∀ k, k < Elements [2; 2] →
          out !! k = Some (cv_label r (gc_index 2 2 k)).
Proof.
  intros gq gz gb plhs.
  split; [lia|]. split; [lia|]. split; [reflexivity|]. split; [reflexivity|].
  split; [vm_compute; reflexivity|].
  apply (ChanVeseLab_unmasked_labels gq gz gb halving_iteration
           2 2 [] [0; 1; 0; 1]%Q [5; 6; 7; 8]%Z
           10 10 1 2 (1 # 4) 5 "N4" false plhs);
    [lia|lia|reflexivity|reflexivity|vm_compute; reflexivity].
Defined.





Lemma DistTransform_mexFunction_Done_valid_witness :
  let of_bool :=
    λ (img : Array bool) (_ : bool),
      Done (MkArray (Dimensions img)
              ((λ b : bool, if b then 1%Z else 0%Z) <$> Data img)) in
  let of_uint8 := λ (img : Array Z) (_ : Z), Done img in
  let prhs :=
    [MxArray [2; 3] (LogicalData [true; false; false; true; true; false]);
     logical false; text "cityblock"] in
  DistTransform_mexFunction (λ _, 0%Z) (λ _, false) of_bool of_bool of_uint8
    of_uint8 1 prhs = Done ([2; 3], [1; 0; 0; 1; 1; 0]%Z)
  ∧ DistTransform_accepted 1 prhs [2; 3].
Proof.
  intros of_bool of_uint8 prhs. split; [vm_compute; reflexivity|].
  apply (DistTransform_mexFunction_Done_valid (λ _, 0%Z) (λ _, false) of_bool
           of_bool of_uint8 of_uint8 1 prhs [2; 3] [1; 0; 0; 1; 1; 0]%Z).
  vm_compute; reflexivity.
Defined.

End MatlabProofs.

Module ToolsProofs.
Import Tools.

Lemma Qltb_true x y : Qltb x y = true ↔ (x < y)%Q.
Proof.
  unfold Qltb. rewrite negb_true_iff. split.
  - intros H. apply Qnot_le_lt. intros Hle.
    apply Qle_bool_iff in Hle. congruence.
  - intros H. destruct (Qle_bool y x) eqn:E; [|done].
    apply Qle_bool_iff in E. by apply Qle_not_lt in E.
Qed.

Lemma Qltb_false x y : Qltb x y = false ↔ (y <= x)%Q.
Proof. unfold Qltb. rewrite negb_false_iff. apply Qle_bool_iff. Qed.

(** *** Minimum and maximum of a vector *)

Lemma qmin_cases x y : (qmin x y = x ∧ (x <= y)%Q) ∨ (qmin x y = y ∧ (y <= x)%Q).
Proof.
  unfold qmin. destruct (Qle_bool x y) eqn:E.
  - left. split; [done|]. by apply Qle_bool_iff.
  - right. split; [done|]. apply Qlt_le_weak, Qnot_le_lt. intros H.
    apply Qle_bool_iff in H. congruence.
Qed.

Lemma qmax_cases x y : (qmax x y = y ∧ (x <= y)%Q) ∨ (qmax x y = x ∧ (y <= x)%Q).
Proof.
  unfold qmax. destruct (Qle_bool x y) eqn:E.
  - left. split; [done|]. by apply Qle_bool_iff.
  - right. split; [done|]. apply Qlt_le_weak, Qnot_le_lt. intros H.
    apply Qle_bool_iff in H. congruence.
Qed.

Lemma list_min_spec x l :
  list_min x l ∈ x :: l ∧ ∀ y, y ∈ x :: l → (list_min x l <= y)%Q.
Proof.
  induction l as [|z l [IHin IHle]]; simpl.
  - split; [apply list_elem_of_here|].
    intros y Hy. apply elem_of_cons in Hy as [->|Hy];
      [apply Qle_refl|by apply elem_of_nil in Hy].
  - destruct (qmin_cases z (list_min x l)) as [[-> Hle]|[-> Hle]].
    + split; [apply list_elem_of_further, list_elem_of_here|].
      intros y Hy. apply elem_of_cons in Hy as [->|Hy].
      * eapply Qle_trans; [exact Hle|]. apply IHle, list_elem_of_here.
      * apply elem_of_cons in Hy as [->|Hy]; [apply Qle_refl|].
        eapply Qle_trans; [exact Hle|]. by apply IHle, list_elem_of_further.
    + split.
      { apply elem_of_cons in IHin as [Heq|Hin].
        - rewrite Heq. apply list_elem_of_here.
        - by do 2 apply list_elem_of_further. }
      intros y Hy. apply elem_of_cons in Hy as [->|Hy].
      * apply IHle, list_elem_of_here.
      * apply elem_of_cons in Hy as [->|Hy]; [done|].
        by apply IHle, list_elem_of_further.
Qed.

Lemma list_max_spec x l :
  list_max x l ∈ x :: l ∧ ∀ y, y ∈ x :: l → (y <= list_max x l)%Q.
Proof.
  induction l as [|z l [IHin IHle]]; simpl.
  - split; [apply list_elem_of_here|].
    intros y Hy. apply elem_of_cons in Hy as [->|Hy];
      [apply Qle_refl|by apply elem_of_nil in Hy].
  - destruct (qmax_cases z (list_max x l)) as [[-> Hle]|[-> Hle]].
    + split.
      { apply elem_of_cons in IHin as [Heq|Hin].
        - rewrite Heq. apply list_elem_of_here.
        - by do 2 apply list_elem_of_further. }
      intros y Hy. apply elem_of_cons in Hy as [->|Hy].
      * apply IHle, list_elem_of_here.
      * apply elem_of_cons in Hy as [->|Hy]; [done|].
        by apply IHle, list_elem_of_further.
    + split; [apply list_elem_of_further, list_elem_of_here|].
      intros y Hy. apply elem_of_cons in Hy as [->|Hy].
      * eapply Qle_trans; [|exact Hle]. apply IHle, list_elem_of_here.
      * apply elem_of_cons in Hy as [->|Hy]; [apply Qle_refl|].
        eapply Qle_trans; [|exact Hle]. by apply IHle, list_elem_of_further.
Qed.

(** Two distinct intensities separate the minimum from the maximum. *)
Lemma distinct_min_lt_max x l y z :
  y ∈ x :: l → z ∈ x :: l → ¬ (y == z)%Q → (list_min x l < list_max x l)%Q.
Proof.
  intros Hy Hz Hne.
  destruct (list_min_spec x l) as [_ Hmin].
  destruct (list_max_spec x l) as [_ Hmax].
  destruct (Q_dec y z) as [[Hlt|Hgt]|Heq]; [| |done].
  - eapply Qle_lt_trans; [apply (Hmin y Hy)|].
    eapply Qlt_le_trans; [exact Hlt|]. by apply Hmax.
  - eapply Qle_lt_trans; [apply (Hmin z Hz)|].
    eapply Qlt_le_trans; [exact Hgt|]. by apply Hmax.
Qed.

(** *** [gc_normalize_image] *)

Lemma fdiv_pos_range v a b :
  (a <= v)%Q → (v <= b)%Q → (a < b)%Q →
  ∃ q, fdiv (v - a) (b - a) = Fin q ∧ (0 <= q)%Q ∧ (q <= 1)%Q
       ∧ ((v == a)%Q → (q == 0)%Q) ∧ ((v == b)%Q → (q == 1)%Q).
Proof.
  intros Hav Hvb Hab. unfold fdiv.
  assert (Hpos : (0 < b - a)%Q) by (by apply Qlt_minus_iff in Hab).
  destruct (Qeq_bool (b - a) 0) eqn:E.
  { apply Qeq_bool_iff in E. rewrite E in Hpos. by apply Qlt_irrefl in Hpos. }
  eexists. split; [done|]. split; [|split; [|split]].
  - apply Qle_shift_div_l; [done|]. rewrite Qmult_0_l.
    by apply Qle_minus_iff in Hav.
  - apply Qle_shift_div_r; [done|]. rewrite Qmult_1_l.
    apply Qplus_le_l with (z := a). ring_simplify. done.
  - intros Hva. rewrite Hva. unfold Qdiv.
    assert (Hz : (a - a == 0)%Q) by ring. rewrite Hz. apply Qmult_0_l.
  - intros Hvb'. rewrite Hvb'. apply Qmult_inv_r. intros H0.
    rewrite H0 in Hpos. by apply Qlt_irrefl in Hpos.
Qed.

Lemma fdiv_zero_zero v a b :
  (v == a)%Q → (b == a)%Q → fdiv (v - a) (b - a) = NaN.
Proof.
  intros Hv Hb. unfold fdiv.
  assert (Qeq_bool (b - a) 0 = true) as ->
    by (apply Qeq_bool_iff; rewrite Hb; ring).
  assert (Qeq_bool (v - a) 0 = true) as ->
    by (apply Qeq_bool_iff; rewrite Hv; ring).
  done.
Qed.


Example gc_normalize_image_example :
  gc_normalize_image (FloatImage [1; 3] [2; 4; 3]%Q)
  = Ok [Fin (0 # 2); Fin (2 # 2); Fin (1 # 2)].
Proof. reflexivity. Qed.

Example gc_normalize_image_constant :
  gc_normalize_image (FloatImage [1; 3] [2; 2; 2]%Q) = Ok [NaN; NaN; NaN].
Proof. reflexivity. Qed.

Example gc_normalize_image_not_float :
  gc_normalize_image (OtherImage [1; 2] [1; 2]%Z)
  = Error "Use only with SINGLE[] or DOUBLE[] images.".
Proof. reflexivity. Qed.

(** *** [gc_weighted_kmeans] *)

(** The means the script starts from: (min + avg) / 2 and
    (avg + max) / 2. *)
Lemma k_init_means x l :
  let avg := (qsum (x :: l) / inject_Z (Z.of_nat (length (x :: l))))%Q in
  ∃ q1 q2, k_c1 (k_init x l) = Fin q1 ∧ k_c2 (k_init x l) = Fin q2
    ∧ (q1 == (list_min x l + avg) / 2)%Q
    ∧ (q2 == (avg + list_max x l) / 2)%Q
    ∧ k_iter (k_init x l) = 0%Z.
Proof.
  intros avg. eexists _, _. split; [reflexivity|]. split; [reflexivity|].
  fold avg. split; [field|]. split; [field|reflexivity].
Qed.

(** One pass of the loop: the new means are those of the pixels with
    [R >= 0] and with [R < 0], the old ones are kept, the count goes up by
    one. *)
Lemma k_body_spec px lambda1 lambda2 s :
  let R := residual lambda1 lambda2 (k_c1 s) (k_c2 s) in
  k_c1 (k_body px lambda1 lambda2 s)
    = mean (filter (λ x, fge0 (R x) = true) px)
  ∧ k_c2 (k_body px lambda1 lambda2 s)
    = mean (filter (λ x, flt0 (R x) = true) px)
  ∧ k_old_c1 (k_body px lambda1 lambda2 s) = k_c1 s
  ∧ k_old_c2 (k_body px lambda1 lambda2 s) = k_c2 s
  ∧ k_iter (k_body px lambda1 lambda2 s) = (k_iter s + 1)%Z.
Proof. repeat split. Qed.

(** The loop returns, and it returns the first state in which its
    condition fails: [abs(c1-old_c1) + abs(c2-old_c2) > conv] is false or
    [iter < maxiter] is. *)
Lemma k_loop_returns px lambda1 lambda2 conv maxiter fuel : ∀ s,
  (Qceiling maxiter - k_iter s <= Z.of_nat fuel)%Z →
  ∃ s', k_loop fuel px lambda1 lambda2 conv maxiter s = Some s'
        ∧ k_guard conv maxiter s' = false.
Proof.
  induction fuel as [|fuel IH]; intros s Hf; simpl;
    destruct (k_guard conv maxiter s) eqn:G; eauto.
  - apply andb_true_iff in G as [_ G]. apply Qltb_true in G.
    pose proof (Qle_ceiling maxiter) as Hc.
    assert (k_iter s < Qceiling maxiter)%Z
      by (rewrite Zlt_Qlt; eapply Qlt_le_trans; eauto).
    lia.
  - apply IH. simpl. lia.
Qed.

Lemma gc_weighted_kmeans_returns dims x l lambda1 lambda2 conv maxiter :
  ∃ s, gc_weighted_kmeans (FloatImage dims (x :: l)) lambda1 lambda2 conv
         maxiter = Ok (Some s)
       ∧ k_guard (default (1 # 1000)%Q conv) (default 30%Q maxiter) s = false.
Proof.
  unfold gc_weighted_kmeans.
  destruct (k_loop_returns (x :: l) lambda1 lambda2
              (default (1 # 1000)%Q conv) (default 30%Q maxiter)
              (Z.to_nat (Qceiling (default 30%Q maxiter))) (k_init x l))
    as (s & -> & Hs); [simpl; lia|].
  by exists s.
Qed.

(** Where the loop condition of the script and the stopping rule of the
    specification part: a state whose change of means equals [conv], with
    iterations left.  The script stops there, the rule continues. *)
Lemma guards_differ_at_equality conv maxiter s d :
  k_delta s = Fin d → (d == conv)%Q → (inject_Z (k_iter s) < maxiter)%Q →
  k_guard conv maxiter s = false ∧ spec_guard conv maxiter s = true.
Proof.
  intros Hd Heq Hit. unfold k_guard, spec_guard. rewrite Hd. simpl.
  apply Qltb_true in Hit as ->.
  assert (Qltb conv d = false) as -> by (apply Qltb_false; rewrite Heq; apply Qle_refl).
  assert (Qltb d conv = false) as -> by (apply Qltb_false; rewrite Heq; apply Qle_refl).
  done.
Qed.

(** C5, on the image [0 1] with both weights 1, [conv = 0] and
    [maxiter = 30]: the script returns c1 = 0, c2 = 1 after 2 iterations.
    At that point the change of the means is 0, which is not less than
    [conv], and 28 iterations are left: by the stopping rule of the claim
    the loop would go on. *)
Theorem gc_weighted_kmeans_stops_at_equality :
  let final := MkK (Fin 0) (Fin 1) (Fin 0) (Fin 1) 2 in
  gc_weighted_kmeans (FloatImage [1; 2] [0; 1]%Q) 1 1 (Some 0%Q) (Some 30%Q)
  = Ok (Some final)
  ∧ k_outputs final = (Fin 0, Fin 1, 2%Z)
  ∧ k_delta final = Fin 0
  ∧ fgt (Fin 0) (k_delta final) = false
  ∧ Qltb (inject_Z (k_iter final)) 30 = true
  ∧ k_guard 0 30 final = false
  ∧ spec_guard 0 30 final = true.
Proof. repeat split; vm_compute; reflexivity. Qed.

(** With the default [conv = 0.001] the same image also takes 2
    iterations; a constant image leaves the second class empty and its
    mean NaN after one. *)
Example gc_weighted_kmeans_defaults :
  k_outputs <$> (match gc_weighted_kmeans (FloatImage [1; 2] [0; 1]%Q) 1 1
                         None None with Ok o => o | Error _ => None end)
  = Some (Fin 0, Fin 1, 2%Z).
Proof. vm_compute. reflexivity. Qed.

Example gc_weighted_kmeans_constant :
  k_outputs <$> (match gc_weighted_kmeans (FloatImage [1; 2] [3; 3]%Q) 1 1
                         None None with Ok o => o | Error _ => None end)
  = Some (Fin (6 # 2), NaN, 1%Z).
Proof. vm_compute. reflexivity. Qed.

(** *** [gc_chan_vese_two_stage] *)

Lemma least_spec l :
  match least l with
  | Some d => d ∈ l ∧ ∀ e, e ∈ l → (d <= e)%Z
  | None => l = []
  end.
Proof.
  induction l as [|x l IH]; [done|]. simpl.
  destruct (least l) as [m|].
  - destruct IH as [Hin Hle]. split.
    + destruct (Z.min_spec x m) as [[_ ->]|[_ ->]];
        [apply list_elem_of_here|by apply list_elem_of_further].
    + intros e He. apply elem_of_cons in He as [->|He]; [lia|].
      specialize (Hle e He). lia.
  - subst l. split; [apply list_elem_of_here|].
    intros e He. apply elem_of_cons in He as [->|He]; [lia|].
    by apply elem_of_nil in He.
Qed.

Lemma cityblock_nonneg p q : (0 <= cityblock p q)%Z.
Proof.
  unfold cityblock. revert q. induction p as [|a p IH]; intros [|b q]; simpl;
    try lia. specialize (IH q). lia.
Qed.

Lemma cityblock_self p : cityblock p p = 0%Z.
Proof.
  unfold cityblock. induction p as [|a p IH]; simpl; [done|]. lia.
Qed.

(** [dist_to] is the distance to the nearest element equal to
    [zero_val]. *)
Lemma dist_to_spec dims seg zero_val k :
  match dist_to dims seg zero_val k with
  | Some d =>
      (∃ j, seg !! j = Some zero_val
            ∧ d = cityblock (position dims k) (position dims j))
      ∧ ∀ j, seg !! j = Some zero_val →
          (d <= cityblock (position dims k) (position dims j))%Z
  | None => ∀ j, seg !! j ≠ Some zero_val
  end.
Proof.
  unfold dist_to.
  set (cands := filter (λ j, seg !! j = Some zero_val) (seq 0 (length seg))).
  assert (Hc : ∀ j, j ∈ cands ↔ seg !! j = Some zero_val).
  { intros j. unfold cands. rewrite list_elem_of_filter, elem_of_seq. split.
    - by intros [? _].
    - intros Hj. split; [done|]. apply lookup_lt_Some in Hj. lia. }
  pose proof (least_spec ((λ j, cityblock (position dims k) (position dims j))
                            <$> cands)) as Hl.
  destruct (least _) as [d|].
  - destruct Hl as [Hin Hle]. split.
    + apply list_elem_of_fmap in Hin as (j & -> & Hj). exists j.
      split; [by apply Hc|done].
    + intros j Hj. apply Hle. apply list_elem_of_fmap. exists j.
      split; [done|by apply Hc].
  - intros j Hj. apply Hc in Hj. apply fmap_nil_inv in Hl.
    rewrite Hl in Hj. by apply elem_of_nil in Hj.
Qed.

Lemma dist_to_self dims seg zero_val k :
  seg !! k = Some zero_val → dist_to dims seg zero_val k = Some 0%Z.
Proof.
  intros Hk. pose proof (dist_to_spec dims seg zero_val k) as H.
  destruct (dist_to dims seg zero_val k) as [d|].
  - destruct H as [(j & _ & ->) Hle]. f_equal.
    specialize (Hle k Hk). rewrite cityblock_self in Hle.
    pose proof (cityblock_nonneg (position dims k) (position dims j)). lia.
  - by specialize (H k).
Qed.

(** The mask, element by element. *)
Lemma band_mask_lookup dims seg bandradius k :
  k < length seg →
  band_mask dims seg bandradius !! k
  = Some (if exceeds bandradius (dist_to dims seg true k) then 1%Z
          else if exceeds bandradius (dist_to dims seg false k) then 2%Z
          else 3%Z).
Proof.
  intros Hk. unfold band_mask, GcDistTransform.
  rewrite !lookup_zip_with, !list_lookup_fmap, lookup_seq_lt by done.
  simpl. by rewrite lookup_replicate_2 by done.
Qed.

(** For a radius that is not negative, the three values of the mask mark
    exactly the deep foreground, the deep background and the band. *)
Lemma band_mask_classes dims seg bandradius k :
  (0 <= bandradius)%Q → k < length seg →
  let far_from_bg := exceeds bandradius (dist_to dims seg false k) in
  let far_from_fg := exceeds bandradius (dist_to dims seg true k) in
  (band_mask dims seg bandradius !! k = Some Matlab.MaskForeground
   ↔ far_from_bg = true)
  ∧ (band_mask dims seg bandradius !! k = Some Matlab.MaskBackground
     ↔ far_from_fg = true)
  ∧ (band_mask dims seg bandradius !! k = Some Matlab.MaskUnknown
     ↔ far_from_bg = false ∧ far_from_fg = false).
Proof.
  intros Hr Hk far_from_bg far_from_fg.
  rewrite band_mask_lookup by done. fold far_from_bg. fold far_from_fg.
  assert (Hnot : ¬ (far_from_bg = true ∧ far_from_fg = true)).
  { intros [Hb Hf]. unfold far_from_bg, far_from_fg in *.
    destruct (lookup_lt_is_Some_2 seg k Hk) as [b Hb'].
    assert (H0 : exceeds bandradius (Some 0%Z) = false)
      by (simpl; by apply Qltb_false).
    destruct b.
    - rewrite (dist_to_self dims seg true k Hb') in Hf. congruence.
    - rewrite (dist_to_self dims seg false k Hb') in Hb. congruence. }
  unfold Matlab.MaskForeground, Matlab.MaskBackground, Matlab.MaskUnknown.
  destruct far_from_bg, far_from_fg; try (exfalso; by apply Hnot);
    repeat split; try done; by intros [? ?].
Qed.

Lemma mbind_Ok_inv {X Y : Type} (m : mresult X) (k : X → mresult Y) y :
  mbind m k = Ok y → ∃ x, m = Ok x ∧ k x = Ok y.
Proof. destruct m; simpl; intros H; [eauto|discriminate]. Qed.



Example band_mask_example :
  band_mask [1; 8] [false; false; false; false; true; true; true; true] 1
  = [1; 1; 1; 3; 3; 2; 2; 2]%Z.
Proof. vm_compute. reflexivity. Qed.

(** With a negative radius every distance exceeds it and the second
    assignment overwrites the first: the whole mask is 1. *)
Example band_mask_negative_radius :
  band_mask [1; 4] [true; false; true; true] (-1) = [1; 1; 1; 1]%Z.
Proof. vm_compute. reflexivity. Qed.

(** *** More on [gc_normalize_image] and [gc_weighted_kmeans] *)

(** X17.  [gc_normalize_image] keeps the order of the intensities: on an
    image with two distinct intensities, a pixel that is not brighter than
    another one before is not brighter after. *)
Theorem gc_normalize_image_monotone dims (x : Q) (l : list Q) :
  ∃ out,
    gc_normalize_image (FloatImage dims (x :: l)) = Ok out
    ∧ ((∃ y z, y ∈ x :: l ∧ z ∈ x :: l ∧ ¬ (y == z)%Q) →
       ∀ i j u v, (x :: l) !! i = Some u → (x :: l) !! j = Some v →
         (u <= v)%Q →
         ∃ p q, out !! i = Some (Fin p) ∧ out !! j = Some (Fin q)
                ∧ (p <= q)%Q).
Proof.
  eexists. split; [reflexivity|].
  intros (y & z & Hy & Hz & Hne) i j u v Hu Hv Huv.
  pose proof (distinct_min_lt_max x l y z Hy Hz Hne) as Hlt.
  assert (Hpos : (0 < list_max x l - list_min x l)%Q)
    by (by apply Qlt_minus_iff in Hlt).
  assert (E : Qeq_bool (list_max x l - list_min x l) 0 = false).
  { destruct (Qeq_bool _ 0) eqn:E; [|done].
    apply Qeq_bool_iff in E. rewrite E in Hpos. by apply Qlt_irrefl in Hpos. }
  rewrite !list_lookup_fmap, Hu, Hv. simpl. unfold fdiv. rewrite E.
  eexists _, _. split; [done|]. split; [done|].
  unfold Qdiv. apply Qmult_le_compat_r.
  - apply Qplus_le_l with (z := list_min x l). by ring_simplify.
  - apply Qinv_le_0_compat. by apply Qlt_le_weak.
Qed.

Lemma k_loop_iter px lambda1 lambda2 conv maxiter fuel : ∀ s s',
  k_loop fuel px lambda1 lambda2 conv maxiter s = Some s' →
  (k_iter s <= k_iter s')%Z
  ∧ (s' = s ∨ ((k_iter s < k_iter s')%Z
               ∧ (inject_Z (k_iter s') - 1 < maxiter)%Q)).
Proof.
  induction fuel as [|fuel IH]; intros s s' H; simpl in H;
    destruct (k_guard conv maxiter s) eqn:G; try done;
    try (simplify_eq; split; [lia|by left]).
  apply andb_true_iff in G as [_ G]. apply Qltb_true in G.
  apply IH in H as [Hle Hor]. simpl in Hle. split; [lia|]. right.
  split; [lia|].
  destruct Hor as [->|[Hlt Hb]]; [|done]. simpl.
  rewrite inject_Z_plus. ring_simplify. done.
Qed.


Lemma qsum_bounds (l : list Q) a b :
  (∀ y, y ∈ l → (a <= y)%Q ∧ (y <= b)%Q) →
  (inject_Z (Z.of_nat (length l)) * a <= qsum l)%Q
  ∧ (qsum l <= inject_Z (Z.of_nat (length l)) * b)%Q.
Proof.
  induction l as [|y l IH]; intros H.
  - simpl. split; rewrite Qmult_0_l; apply Qle_refl.
  - destruct IH as [IH1 IH2].
    { intros z Hz. apply H. by apply list_elem_of_further. }
    destruct (H y) as [H1 H2]; [apply list_elem_of_here|].
    cbn [length qsum foldr]. rewrite Nat2Z.inj_succ, <-Z.add_1_l, inject_Z_plus.
    fold (qsum l). split.
    + rewrite Qmult_plus_distr_l, Qmult_1_l. by apply Qplus_le_compat.
    + rewrite Qmult_plus_distr_l, Qmult_1_l. by apply Qplus_le_compat.
Qed.

Lemma mean_bounds (l : list Q) a b :
  (∀ y, y ∈ l → (a <= y)%Q ∧ (y <= b)%Q) →
  mean l = NaN ∨ ∃ q, mean l = Fin q ∧ (a <= q)%Q ∧ (q <= b)%Q.
Proof.
  intros H. destruct l as [|y l]; [by left|]. right.
  destruct (qsum_bounds (y :: l) a b H) as [H1 H2].
  eexists. split; [reflexivity|].
  assert (Hn : (0 < inject_Z (Z.of_nat (length (y :: l))))%Q).
  { rewrite <-(Zlt_Qlt 0). simpl. lia. }
  split.
  - apply Qle_shift_div_l; [done|]. by rewrite Qmult_comm.
  - apply Qle_shift_div_r; [done|]. by rewrite Qmult_comm.
Qed.

(** A point halfway between [a] and a bound lies between them. *)
Lemma halfway_down (m a : Q) :
  (m <= a)%Q → (m <= a - (a - m) / 2)%Q ∧ (a - (a - m) / 2 <= a)%Q.
Proof.
  intros H.
  assert (Ht : (0 <= (a - m) * (1 # 2))%Q).
  { apply Qmult_le_0_compat; [|done]. by apply Qle_minus_iff in H. }
  split.
  - assert (E : (a - (a - m) / 2 == m + (a - m) * (1 # 2))%Q) by field.
    rewrite E. apply Qle_trans with (m + 0)%Q;
      [rewrite Qplus_0_r; apply Qle_refl|]. by apply Qplus_le_r.
  - assert (E : (a - (a - m) / 2 == a + - ((a - m) * (1 # 2)))%Q) by field.
    rewrite E. apply Qle_trans with (a + 0)%Q;
      [|rewrite Qplus_0_r; apply Qle_refl].
    apply Qplus_le_r. apply Qopp_le_compat in Ht. exact Ht.
Qed.

Lemma halfway_up (a M : Q) :
  (a <= M)%Q → (a <= a + (M - a) / 2)%Q ∧ (a + (M - a) / 2 <= M)%Q.
Proof.
  intros H.
  assert (Ht : (0 <= (M - a) * (1 # 2))%Q).
  { apply Qmult_le_0_compat; [|done]. by apply Qle_minus_iff in H. }
  split.
  - assert (E : (a + (M - a) / 2 == a + (M - a) * (1 # 2))%Q) by field.
    rewrite E. apply Qle_trans with (a + 0)%Q;
      [rewrite Qplus_0_r; apply Qle_refl|]. by apply Qplus_le_r.
  - assert (E : (a + (M - a) / 2 == M + - ((M - a) * (1 # 2)))%Q) by field.
    rewrite E. apply Qle_trans with (M + 0)%Q;
      [|rewrite Qplus_0_r; apply Qle_refl].
    apply Qplus_le_r. apply Qopp_le_compat in Ht. exact Ht.
Qed.

Lemma k_loop_range px lambda1 lambda2 conv maxiter a b fuel : ∀ s s',
  (∀ y, y ∈ px → (a <= y)%Q ∧ (y <= b)%Q) →
  (k_c1 s = NaN ∨ ∃ q, k_c1 s = Fin q ∧ (a <= q)%Q ∧ (q <= b)%Q) →
  (k_c2 s = NaN ∨ ∃ q, k_c2 s = Fin q ∧ (a <= q)%Q ∧ (q <= b)%Q) →
  k_loop fuel px lambda1 lambda2 conv maxiter s = Some s' →
  (k_c1 s' = NaN ∨ ∃ q, k_c1 s' = Fin q ∧ (a <= q)%Q ∧ (q <= b)%Q)
  ∧ (k_c2 s' = NaN ∨ ∃ q, k_c2 s' = Fin q ∧ (a <= q)%Q ∧ (q <= b)%Q).
Proof.
  induction fuel as [|fuel IH]; intros s s' Hpx H1 H2 H; simpl in H;
    destruct (k_guard conv maxiter s) eqn:G; try done;
    try (by simplify_eq).
  apply IH in H; auto; simpl; apply mean_bounds; intros y Hy;
    apply Hpx; by apply list_elem_of_filter in Hy as [_ Hy].
Qed.


Lemma list_min_replicate x n : list_min x (replicate n x) = x.
Proof.
  induction n as [|n IH]; [done|]. unfold list_min in *. simpl. rewrite IH.
  unfold qmin. by destruct (Qle_bool x x).
Qed.

Lemma list_max_replicate x n : list_max x (replicate n x) = x.
Proof.
  induction n as [|n IH]; [done|]. unfold list_max in *. simpl. rewrite IH.
  unfold qmax. by destruct (Qle_bool x x).
Qed.

Lemma qsum_replicate x n :
  (qsum (replicate n x) == inject_Z (Z.of_nat n) * x)%Q.
Proof.
  induction n as [|n IH].
  - simpl. by rewrite Qmult_0_l.
  - cbn [replicate qsum foldr]. fold (qsum (replicate n x)). rewrite IH.
    rewrite Nat2Z.inj_succ, <-Z.add_1_l, inject_Z_plus. ring.
Qed.

Lemma avg_replicate x n :
  (qsum (replicate (S n) x)
   / inject_Z (Z.of_nat (length (replicate (S n) x))) == x)%Q.
Proof.
  rewrite qsum_replicate, length_replicate.
  assert (Hn : ¬ (inject_Z (Z.of_nat (S n)) == 0)%Q).
  { unfold Qeq. simpl. lia. }
  by field.
Qed.

Lemma filter_replicate_all {X : Type} (P : X → Prop) `{∀ y, Decision (P y)}
    (x : X) n :
  P x → filter P (replicate n x) = replicate n x.
Proof.
  intros Hx. induction n as [|n IH]; [done|]. simpl.
  rewrite filter_cons_True by done. by rewrite IH.
Qed.

Lemma filter_replicate_none {X : Type} (P : X → Prop) `{∀ y, Decision (P y)}
    (x : X) n :
  ¬ P x → filter P (replicate n x) = [].
Proof.
  intros Hx. induction n as [|n IH]; [done|]. simpl.
  by rewrite filter_cons_False.
Qed.

Lemma k_loop_no_pass px lambda1 lambda2 conv maxiter fuel s :
  k_guard conv maxiter s = false →
  k_loop fuel px lambda1 lambda2 conv maxiter s = Some s.
Proof. intros G. destruct fuel; simpl; by rewrite G. Qed.

Lemma k_loop_one_pass px lambda1 lambda2 conv maxiter fuel s :
  k_guard conv maxiter s = true →
  k_guard conv maxiter (k_body px lambda1 lambda2 s) = false →
  k_loop (S fuel) px lambda1 lambda2 conv maxiter s
  = Some (k_body px lambda1 lambda2 s).
Proof. intros G1 G2. simpl. rewrite G1. by apply k_loop_no_pass. Qed.


End ToolsProofs.

Module MetricProofs.
Import Metric.

Lemma for_each_inv {S : Type} (P : nat → S → Prop) n :
  ∀ (body : nat → S → option S) i0 s,
  P 0 s →
  (∀ k s, k < n → P k s → ∃ s', body (i0 + k) s = Some s' ∧ P (Datatypes.S k) s') →
  ∃ s', for_each n body i0 s = Some s' ∧ P n s'.
Proof.
  revert P. induction n as [|n IH]; intros P body i0 s H0 Hstep.
  - by exists s.
  - destruct (Hstep 0 s) as (s1 & Hb & H1); [lia|done|].
    simpl. rewrite Nat.add_0_r in Hb. rewrite Hb. simpl.
    apply (IH (λ k, P (Datatypes.S k))); [done|].
    intros k s2 Hk Hs2. destruct (Hstep (Datatypes.S k) s2) as (s3 & Hb3 & H3);
      [lia|done|].
    exists s3. split; [|done]. rewrite <-Hb3. f_equal. lia.
Qed.

Lemma for_each_ext {S : Type} n (body1 body2 : nat → S → option S) :
  (∀ i s, body1 i s = body2 i s) →
  ∀ i s, for_each n body1 i s = for_each n body2 i s.
Proof.
  intros Hb. induction n as [|n IH]; intros i s; [done|].
  simpl. rewrite Hb. destruct (body2 i s); simpl; [apply IH|done].
Qed.

(** A loop that stores [f i d] at every position [i] of an array, [d]
    being the element of [src] there. *)
Lemma for_each_store {X Y : Type} (src : list X) (f : nat → X → option Y)
    (g : nat → X → Y) (a0 : list Y) :
  length a0 = length src →
  (∀ i d, src !! i = Some d → f i d = Some (g i d)) →
  ∃ a, for_each (length src)
         (λ i a, d ← src !! i; y ← f i d; store a i y) 0 a0 = Some a
       ∧ length a = length src
       ∧ ∀ i d, src !! i = Some d → a !! i = Some (g i d).
Proof.
  intros Hlen Hf.
  destruct (for_each_inv
    (λ k (a : list Y), length a = length src
       ∧ ∀ i d, i < k → src !! i = Some d → a !! i = Some (g i d))
    (length src) (λ i a, d ← src !! i; y ← f i d; store a i y) 0 a0)
    as (a & Ha & Hl & Hcells).
  { split; [done|]. intros i d Hi. lia. }
  { intros k a Hk [Hl Hcells].
    destruct (lookup_lt_is_Some_2 src k Hk) as [d Hd].
    simpl. rewrite Hd. simpl. rewrite (Hf _ _ Hd). simpl.
    unfold store. rewrite decide_True by lia.
    eexists. split; [done|]. split; [by rewrite length_insert|].
    intros i d' Hi Hd'. destruct (decide (i = k)) as [->|Hne].
    - rewrite list_lookup_insert_eq by lia. by simplify_eq.
    - rewrite list_lookup_insert_ne by done. apply Hcells; [lia|done]. }
  exists a. split; [done|]. split; [done|].
  intros i d Hd. apply Hcells; [|done]. by apply lookup_lt_Some in Hd.
Qed.

Section Weights.
Variable N : dimension.
Variables Vector SquareMatrix : Type.
Variable Mul : SquareMatrix → Vector → Vector.
Variable Normalized : Vector → Vector.
Variable Length : Vector → R.
Variable Determinant : SquareMatrix → R.
Variable HypersphereVoronoiDiagram : list Vector → list R.
Variable new_vector : Vector.

(** The diagram gives one share for each vector. *)
Hypothesis Voronoi_length :
  ∀ nv, length (HypersphereVoronoiDiagram nv) = length nv.

(** The first loop leaves in [nv] the normalized transformed
    directions. *)
Lemma transformed_directions (nb : list Vector) mt :
  for_each (length nb)
    (λ i nv, d ← nb !! i; store nv i (Normalized (Mul mt d)))
    0 (replicate (length nb) new_vector)
  = Some ((λ d, Normalized (Mul mt d)) <$> nb).
Proof.
  destruct (for_each_store nb (λ _ d, Some (Normalized (Mul mt d)))
              (λ _ d, Normalized (Mul mt d))
              (replicate (length nb) new_vector))
    as (a & Ha & Hl & Hcells); [by rewrite length_replicate|done|].
  simpl in Ha. rewrite Ha. f_equal. apply list_eq. intros i.
  rewrite list_lookup_fmap. destruct (nb !! i) as [d|] eqn:Hd; simpl.
  - by apply Hcells.
  - apply lookup_ge_None. apply lookup_ge_None in Hd. lia.
Qed.

(** C1.  For every transformation matrix [mt] (symmetric positive
    definite or not), [SetTransformationMatrix] returns, keeps the
    neighbourhood and sets the weight of every direction [d] at position
    [i] to [(phi * drho) / K], where [phi] is the share that
    [HypersphereVoronoiDiagram] gives to position [i] among the normalized
    transformed directions [Normalized (Mul mt d)], [drho] is
    [Determinant mt / Length (Mul mt d)], and [K] is 2 in dimension 2 and
    [PI] in dimension 3. *)
Theorem SetTransformationMatrix_weights
    (this : RiemannianDanek Vector) (mt : SquareMatrix) :
  length (m_rw Vector this) = length (m_nb Vector this) →
  let nv := (λ d, Normalized (Mul mt d)) <$> m_nb Vector this in
  let dphi := HypersphereVoronoiDiagram nv in
  ∃ this',
    SetTransformationMatrix N Vector SquareMatrix Mul Normalized Length
      Determinant HypersphereVoronoiDiagram new_vector this mt = Some this'
    ∧ m_nb Vector this' = m_nb Vector this
    ∧ length (m_rw Vector this') = length (m_nb Vector this)
    ∧ (∀ i d, m_nb Vector this !! i = Some d →
         ∃ phi, dphi !! i = Some phi
           ∧ m_rw Vector this' !! i
             = Some ((phi * (Determinant mt / Length (Mul mt d)))
                     / CauchyCroftonCoef N)%R)
    ∧ CauchyCroftonCoef Dim2 = 2%R ∧ CauchyCroftonCoef Dim3 = PI.
Proof.
  intros Hrw nv dphi. unfold SetTransformationMatrix.
  rewrite transformed_directions. simpl. fold nv. fold dphi.
  assert (Hphi : ∀ i d, m_nb Vector this !! i = Some d →
            ∃ phi, dphi !! i = Some phi).
  { intros i d Hd. apply lookup_lt_is_Some_2. unfold dphi.
    rewrite Voronoi_length. unfold nv. rewrite length_fmap.
    by apply lookup_lt_Some in Hd. }
  destruct (for_each_store (m_nb Vector this)
              (λ i d, phi ← dphi !! i;
                      Some ((phi * (Determinant mt / Length (Mul mt d)))
                            / CauchyCroftonCoef N)%R)
              (λ i d, ((default 0%R (dphi !! i)
                        * (Determinant mt / Length (Mul mt d)))
                       / CauchyCroftonCoef N)%R)
              (m_rw Vector this) Hrw)
    as (rw & Hloop & Hl & Hcells).
  { intros i d Hd. destruct (Hphi i d Hd) as [phi ->]. done. }
  assert (Heq :
    for_each (length (m_nb Vector this))
      (λ i rw,
         d ← m_nb Vector this !! i;
         phi ← dphi !! i;
         store rw i ((phi * (Determinant mt / Length (Mul mt d)))
                     / CauchyCroftonCoef N)%R)
      0 (m_rw Vector this) = Some rw).
  { rewrite <-Hloop. apply for_each_ext. intros i a.
    destruct (m_nb Vector this !! i); simpl; [|done].
    by destruct (dphi !! i). }
  rewrite Heq. simpl. eexists. split; [done|]. simpl.
  split; [done|]. split; [done|]. split; [|done].
  intros i d Hd. destruct (Hphi i d Hd) as [phi Hp]. exists phi.
  split; [done|]. rewrite (Hcells i d Hd), Hp. done.
Qed.

End Weights.

(** Two directions of the plane, the identity for the methods of the
    matrix and a diagram that gives every direction the share 1. *)
Lemma SetTransformationMatrix_weights_witness :
  let Mul := λ (_ : unit) (v : R * R), v in
  let Normalized := λ v : R * R, v in
  let Length := λ _ : R * R, 1%R in
  let Determinant := λ _ : unit, 1%R in
  let Voronoi := λ nv : list (R * R), (λ _, 1%R) <$> nv in
  let this := MkRiemannianDanek (R * R) [(1, 0); (0, 1)]%R [0; 0]%R in
  (∀ nv, length (Voronoi nv) = length nv)
  ∧ length (m_rw (R * R) this) = length (m_nb (R * R) this)
  ∧ ∃ this',
      SetTransformationMatrix Dim2 (R * R) unit Mul Normalized Length
        Determinant Voronoi (0, 0)%R this () = Some this'
      ∧ m_nb (R * R) this' = m_nb (R * R) this
      ∧ length (m_rw (R * R) this') = length (m_nb (R * R) this)
      ∧ (∀ i d, m_nb (R * R) this !! i = Some d →
           ∃ phi, Voronoi ((λ d, Normalized (Mul () d)) <$> m_nb (R * R) this)
                    !! i = Some phi
             ∧ m_rw (R * R) this' !! i
               = Some ((phi * (Determinant () / Length (Mul () d)))
                       / CauchyCroftonCoef Dim2)%R)
      ∧ CauchyCroftonCoef Dim2 = 2%R ∧ CauchyCroftonCoef Dim3 = PI.
Proof.
  intros Mul Normalized Length Determinant Voronoi this.
  assert (HV : ∀ nv, length (Voronoi nv) = length nv)
    by (intros nv; unfold Voronoi; apply length_fmap).
  split; [exact HV|]. split; [reflexivity|].
  exact (SetTransformationMatrix_weights Dim2 (R * R) unit Mul Normalized
           Length Determinant Voronoi (0, 0)%R HV this () eq_refl).
Defined.

(** A loop whose passes write cell [i] of an array shorter than the range
    of [i] writes past its end. *)
Lemma for_each_short {X : Type} (body : nat → list X → option (list X)) n :
  ∀ i (a : list X),
  (∀ i a a', body i a = Some a' → i < length a ∧ length a' = length a) →
  0 < n → length a < i + n → for_each n body i a = None.
Proof.
  induction n as [|n IH]; intros i a Hb Hn Hl; [lia|].
  simpl. destruct (body i a) as [a'|] eqn:E; [|done]. simpl.
  apply Hb in E as [Hi Hl']. apply IH; [done|lia|lia].
Qed.

Section MoreWeights.
Variable N : dimension.
Variables Vector SquareMatrix : Type.
Variable Mul : SquareMatrix → Vector → Vector.
Variable Normalized : Vector → Vector.
Variable Length : Vector → R.
Variable Determinant : SquareMatrix → R.
Variable HypersphereVoronoiDiagram : list Vector → list R.
Variable new_vector : Vector.

(** X21.  [SetTransformationMatrix] writes [m_rw[i]] for every direction
    of [m_nb] and never resizes [m_rw]: with fewer weights than directions
    it writes past the end of [m_rw], whatever the matrix is. *)
Theorem SetTransformationMatrix_short_weights
    (this : RiemannianDanek Vector) (mt : SquareMatrix) :
  length (m_rw Vector this) < length (m_nb Vector this) →
  SetTransformationMatrix N Vector SquareMatrix Mul Normalized Length
    Determinant HypersphereVoronoiDiagram new_vector this mt = None.
Proof.
  intros Hlen. unfold SetTransformationMatrix.
  rewrite transformed_directions. simpl.
  rewrite for_each_short; [done| |lia|lia].
  intros i a a' H.
  destruct (m_nb Vector this !! i) as [d|]; [|done]. simpl in H.
  destruct (_ !! i) as [phi|]; [|done]. simpl in H.
  unfold store in H. destruct (decide (i < length a)); [|done].
  simplify_eq. by rewrite length_insert.
Qed.

Hypothesis Voronoi_length :
  ∀ nv, length (HypersphereVoronoiDiagram nv) = length nv.

(** The weights in closed form. *)
Lemma SetTransformationMatrix_closed_form
    (this : RiemannianDanek Vector) (mt : SquareMatrix) :
  length (m_rw Vector this) = length (m_nb Vector this) →
  let dphi := HypersphereVoronoiDiagram
                ((λ d, Normalized (Mul mt d)) <$> m_nb Vector this) in
  SetTransformationMatrix N Vector SquareMatrix Mul Normalized Length
    Determinant HypersphereVoronoiDiagram new_vector this mt
  = Some (MkRiemannianDanek Vector (m_nb Vector this)
            (imap (λ i d, ((default 0%R (dphi !! i)
                            * (Determinant mt / Length (Mul mt d)))
                           / CauchyCroftonCoef N)%R)
                  (m_nb Vector this))).
Proof.
  intros Hrw dphi. unfold SetTransformationMatrix.
  rewrite transformed_directions. simpl. fold dphi.
  assert (Hphi : ∀ i d, m_nb Vector this !! i = Some d →
            ∃ phi, dphi !! i = Some phi).
  { intros i d Hd. apply lookup_lt_is_Some_2. unfold dphi.
    rewrite Voronoi_length, length_fmap. by apply lookup_lt_Some in Hd. }
  destruct (for_each_store (m_nb Vector this)
              (λ i d, phi ← dphi !! i;
                      Some ((phi * (Determinant mt / Length (Mul mt d)))
                            / CauchyCroftonCoef N)%R)
              (λ i d, ((default 0%R (dphi !! i)
                        * (Determinant mt / Length (Mul mt d)))
                       / CauchyCroftonCoef N)%R)
              (m_rw Vector this) Hrw)
    as (rw & Hloop & Hl & Hcells).
  { intros i d Hd. destruct (Hphi i d Hd) as [phi ->]. done. }
  assert (Heq :
    for_each (length (m_nb Vector this))
      (λ i rw,
         d ← m_nb Vector this !! i;
         phi ← dphi !! i;
         store rw i ((phi * (Determinant mt / Length (Mul mt d)))
                     / CauchyCroftonCoef N)%R)
      0 (m_rw Vector this) = Some rw).
  { rewrite <-Hloop. apply for_each_ext. intros i a.
    destruct (m_nb Vector this !! i); simpl; [|done].
    by destruct (dphi !! i). }
  rewrite Heq. simpl. do 2 f_equal. apply list_eq. intros i.
  rewrite list_lookup_imap.
  destruct (m_nb Vector this !! i) as [d|] eqn:Hd; simpl.
  - by apply Hcells.
  - apply lookup_ge_None. apply lookup_ge_None in Hd. lia.
Qed.

(** X22.  The weights [SetTransformationMatrix] leaves depend on the
    neighbourhood and on the matrix of the call only, not on the weights
    found: after a call with [mt1], a call with [mt2] gives what it gives
    on the object as it was before, and a second call with [mt1] changes
    nothing. *)
Theorem SetTransformationMatrix_last_call_wins
    (this : RiemannianDanek Vector) (mt1 mt2 : SquareMatrix) :
  length (m_rw Vector this) = length (m_nb Vector this) →
  ∃ t1,
    SetTransformationMatrix N Vector SquareMatrix Mul Normalized Length
      Determinant HypersphereVoronoiDiagram new_vector this mt1 = Some t1
    ∧ SetTransformationMatrix N Vector SquareMatrix Mul Normalized Length
        Determinant HypersphereVoronoiDiagram new_vector t1 mt2
      = SetTransformationMatrix N Vector SquareMatrix Mul Normalized Length
          Determinant HypersphereVoronoiDiagram new_vector this mt2
    ∧ SetTransformationMatrix N Vector SquareMatrix Mul Normalized Length
        Determinant HypersphereVoronoiDiagram new_vector t1 mt1 = Some t1.
Proof.
  intros Hrw. eexists. split.
  { by apply SetTransformationMatrix_closed_form. }
  rewrite !SetTransformationMatrix_closed_form; simpl;
    rewrite ?length_imap; done.
Qed.

End MoreWeights.

Lemma SetTransformationMatrix_short_weights_witness :
  let this := MkRiemannianDanek (R * R) [(1, 0); (0, 1)]%R [0%R] in
  length (m_rw (R * R) this) < length (m_nb (R * R) this)
  ∧ SetTransformationMatrix Dim2 (R * R) unit (λ _ v, v) (λ v, v) (λ _, 1%R)
      (λ _, 1%R) (λ nv, (λ _, 1%R) <$> nv) (0, 0)%R this () = None.
Proof.
  intros this. split; [simpl; lia|].
  apply (SetTransformationMatrix_short_weights Dim2 (R * R) unit (λ _ v, v)
           (λ v, v) (λ _, 1%R) (λ _, 1%R) (λ nv, (λ _, 1%R) <$> nv) (0, 0)%R
           this ()).
  simpl. lia.
Defined.

Lemma SetTransformationMatrix_last_call_wins_witness :
  let Mul := λ (m : R) (v : R * R), ((m * v.1)%R, (m * v.2)%R) in
  let Normalized := λ v : R * R, v in
  let Length := λ _ : R * R, 1%R in
  let Determinant := λ m : R, (m * m)%R in
  let Voronoi := λ nv : list (R * R), (λ _, 1%R) <$> nv in
  let Set_ :=
    SetTransformationMatrix Dim2 (R * R) R Mul Normalized Length Determinant
      Voronoi (0, 0)%R in
  let this := MkRiemannianDanek (R * R) [(1, 0); (0, 1)]%R [0; 0]%R in
  (∀ nv, length (Voronoi nv) = length nv)
  ∧ length (m_rw (R * R) this) = length (m_nb (R * R) this)
  ∧ ∃ t1, Set_ this 2%R = Some t1
      ∧ Set_ t1 3%R = Set_ this 3%R
      ∧ Set_ t1 2%R = Some t1.
Proof.
  intros Mul Normalized Length Determinant Voronoi Set_ this.
  assert (HV : ∀ nv, length (Voronoi nv) = length nv)
    by (intros nv; unfold Voronoi; apply length_fmap).
  split; [exact HV|]. split; [reflexivity|].
  exact (SetTransformationMatrix_last_call_wins Dim2 (R * R) R Mul Normalized
           Length Determinant Voronoi (0, 0)%R HV this 2%R 3%R eq_refl).
Defined.

End MetricProofs.
